(** * The CRL updater of Boulder (crl/updater/updater.go)

    A shallow embedding of [NewUpdater], [getShardBoundaries], [tickShard],
    [tickIssuer] with its goroutines and channels, [Tick] and the first
    wait of [Run], and the properties of the shard-boundary computation,
    of the SA -> CA -> storer pipeline, of the worker pool and of a tick
    over all issuers.

    Conventions.
    - Go's [int], [int64] and [time.Duration] are 64-bit two's-complement
      integers: they are values of [Z] and every arithmetic operation of
      the source is followed by [wrap64].  [/] and [%] truncate toward
      zero ([Z.quot], [Z.rem]) and panic on a zero divisor.
    - A [time.Time] is the instant it denotes, counted in nanoseconds from
      the zero Time (January 1, year 1, 00:00:00 UTC); [Add] saturates at
      the ends of the range of Time and [Sub] at those of Duration.
    - gRPC collaborators (SA, CA, storer) are scripts: the results their
      calls return, in call order.  Every property is stated for all
      scripts. *)

From Stdlib Require Import ZArith List String Bool Lia.
From Stdlib.Strings Require Import Byte.
From stdpp Require Import base option gmap.
Import ListNotations.

Local Open Scope string_scope.
Local Open Scope list_scope.
Local Open Scope Z_scope.

Set Warnings "-register-all".

(** ** 64-bit integers *)

Definition minInt64 : Z := - 2 ^ 63.
Definition maxInt64 : Z := 2 ^ 63 - 1.

(** The value of a mathematical integer once stored in an [int64]. *)
Definition wrap64 (z : Z) : Z := (z + 2 ^ 63) mod 2 ^ 64 - 2 ^ 63.

Definition add64 (a b : Z) : Z := wrap64 (a + b).
Definition sub64 (a b : Z) : Z := wrap64 (a - b).
Definition mul64 (a b : Z) : Z := wrap64 (a * b).
Definition neg64 (a : Z) : Z := wrap64 (- a).
(** [a / b] and [a % b] for [b <> 0]; the callers test the divisor. *)
Definition quot64 (a b : Z) : Z := wrap64 (Z.quot a b).
Definition rem64 (a b : Z) : Z := wrap64 (Z.rem a b).

Definition inInt64 (z : Z) : Prop := minInt64 <= z <= maxInt64.

(** ** Package time *)

Module time.

(** [time.Duration]: a signed 64-bit count of nanoseconds. *)
Definition Duration := Z.

Definition Nanosecond : Duration := 1.
Definition Second : Duration := 1000000000.
Definition Hour : Duration := 3600 * Second.

Definition minDuration : Duration := minInt64.
Definition maxDuration : Duration := maxInt64.

(** [time.Time], as nanoseconds since the zero Time.  A Go Time holds a
    count of seconds in an int64 and a count of nanoseconds from 0 to
    999999999, so the instants lie between [minTime] and [maxTime],
    2.9e11 years either side of year 1.  The monotonic clock reading is
    left out: [Sub] against [time.Time{}], which has none, reads the wall
    clock, as do [UnixNano] and, on instants obtained from one atTime by
    [Add], [Before]. *)
Definition Time := Z.

Definition minTime : Time := minInt64 * Second.
Definition maxTime : Time := maxInt64 * Second + 999999999.

(** [time.Time{}] *)
Definition Zero : Time := 0.

(** Seconds from the zero Time to the Unix epoch (unixToInternal). *)
Definition unixToInternal : Z := (1969 * 365 + 1969 / 4 - 1969 / 100 + 1969 / 400) * 86400.

(** [time.Unix(sec, nsec)] *)
Definition Unix (sec nsec : Z) : Time := (sec + unixToInternal) * Second + nsec.

(** [t.Add(d)]: the duration is split into seconds and nanoseconds, the
    nanoseconds are added and carried, and the seconds are added by
    [addSec], which on an int64 overflow stores 2^63 - 1 or -(2^63 - 1)
    seconds instead of the sum. *)
Definition Add (t : Time) (d : Duration) : Time :=
  let sec := t / Second in
  let nsec := t mod Second in
  let dsec := Z.quot d Second in
  let nsec := nsec + Z.rem d Second in
  let '(dsec, nsec) :=
    if Second <=? nsec then (dsec + 1, nsec - Second)
    else if nsec <? 0 then (dsec - 1, nsec + Second)
    else (dsec, nsec) in
  let sum := wrap64 (sec + dsec) in
  let sec :=
    if Bool.eqb (sec <? sum) (0 <? dsec) then sum
    else if 0 <? dsec then maxInt64
    else - maxInt64 in
  sec * Second + nsec.

(** The instants at least 2^65 ns, about 1170 years, from both ends of
    the range: four durations can be added to them, or subtracted, and no
    [Add] reaches the last second. *)
Definition awayFromEnds (t : Time) : Prop :=
  minTime + 2 ^ 65 <= t <= maxTime - 2 ^ 65.

(** [t.Sub(u)]: "If the result exceeds the maximum (or minimum) value
    that can be stored in a Duration, the maximum (or minimum) duration
    will be returned." *)
Definition Sub (t u : Time) : Duration :=
  if t - u <? minDuration then minDuration
  else if maxDuration <? t - u then maxDuration
  else t - u.

(** [t.Before(u)] *)
Definition Before (t u : Time) : bool := t <? u.

(** [t.UnixNano()] *)
Definition UnixNano (t : Time) : Z := wrap64 (t - unixToInternal * Second).

End time.

(** ** Errors

    An error built by [fmt.Errorf] is kept as its format string and
    operands; [%w] operands are errors themselves.  [ErrValue] stands for
    an error produced by a collaborator. *)

Inductive fmtArg (E : Type) : Type :=
| ArgInt (z : Z)
| ArgString (s : string)
| ArgDuration (d : time.Duration)
| ArgTime (t : time.Time)
| ArgBytes (b : list byte)
| ArgError (e : E).

Arguments ArgInt {E} z.
Arguments ArgString {E} s.
Arguments ArgDuration {E} d.
Arguments ArgTime {E} t.
Arguments ArgBytes {E} b.
Arguments ArgError {E} e.

Inductive error : Type :=
| ErrValue (msg : string)
| Errorf (format : string) (args : list (fmtArg error)).

(** ** The updater *)

(** The two fields of [issuance.Certificate] the updater reads:
    [NameID()] and [Subject.CommonName]. *)
Record Certificate : Type := {
  NameID : Z;
  CommonName : string;
}.

Record crlUpdater : Type := {
  issuers : gmap Z Certificate;
  numShards : Z;
  lookbackPeriod : time.Duration;
  lookforwardPeriod : time.Duration;
  updatePeriod : time.Duration;
  updateOffset : time.Duration;
  maxParallelism : Z;
}.

(** [NewUpdater]; the clients, the logger, the clock and the metric
    registration carry no data the computations below read. *)
Definition NewUpdater (issuerCerts : list Certificate)
    (numShards : Z) (certLifetime updatePeriod updateOffset : time.Duration)
    (maxParallelism : Z) : error + crlUpdater :=
  let issuersByNameID :=
    fold_left (fun m issuer => <[NameID issuer := issuer]> m) issuerCerts (∅ : gmap Z Certificate) in
  if numShards <? 1 then
    inl (Errorf "must have positive number of shards, got: %d" [ArgInt numShards])
  else if 7 * 24 * time.Hour <=? updatePeriod then
    inl (Errorf "must update CRLs at least every 7 days, got: %s" [ArgDuration updatePeriod])
  else if updatePeriod <=? updateOffset then
    inl (Errorf "update offset must be less than period: %s !< %s"
           [ArgDuration updateOffset; ArgDuration updatePeriod])
  else
    let lookbackPeriod := mul64 4 updatePeriod in
    let tentativeShardWidth := quot64 (add64 lookbackPeriod certLifetime) numShards in
    let lookforwardPeriod := add64 certLifetime (mul64 4 tentativeShardWidth) in
    let window := add64 lookbackPeriod lookforwardPeriod in
    let offset := rem64 window numShards in
    let lookforwardPeriod :=
      if negb (offset =? 0) then add64 lookforwardPeriod (sub64 numShards offset)
      else lookforwardPeriod in
    let maxParallelism := if maxParallelism <=? 0 then 1 else maxParallelism in
    inr {| issuers := issuersByNameID;
           numShards := numShards;
           lookbackPeriod := lookbackPeriod;
           lookforwardPeriod := lookforwardPeriod;
           updatePeriod := updatePeriod;
           updateOffset := updateOffset;
           maxParallelism := maxParallelism |}.

(** ** getShardBoundaries

    The locals of the function, one definition each. *)

Definition windowWidth (cu : crlUpdater) : time.Duration :=
  add64 (lookbackPeriod cu) (lookforwardPeriod cu).

Definition atTimeOffset (cu : crlUpdater) (atTime : time.Time) : time.Duration :=
  rem64 (time.Sub atTime time.Zero) (windowWidth cu).

Definition zeroStart (cu : crlUpdater) (atTime : time.Time) : time.Time :=
  time.Add atTime (neg64 (atTimeOffset cu atTime)).

Definition shardWidth (cu : crlUpdater) : time.Duration :=
  quot64 (windowWidth cu) (numShards cu).

Definition shardOffset (cu : crlUpdater) (shardIdx : Z) : time.Duration :=
  mul64 (rem64 shardIdx (numShards cu)) (shardWidth cu).

(** The chunk computed before the window test: [shardStart], [shardEnd]
    as of line 452. *)
Definition anchoredShard (cu : crlUpdater) (atTime : time.Time) (shardIdx : Z)
    : time.Time * time.Time :=
  let shardStart := time.Add (zeroStart cu atTime) (shardOffset cu shardIdx) in
  let shardEnd := time.Add shardStart (shardWidth cu) in
  (shardStart, shardEnd).

(** [None] is the run-time panic of an integer division by zero. *)
Definition getShardBoundaries (cu : crlUpdater) (atTime : time.Time) (shardIdx : Z)
    : option (time.Time * time.Time) :=
  if numShards cu =? 0 then None
  else if windowWidth cu =? 0 then None
  else
    let '(shardStart, shardEnd) := anchoredShard cu atTime shardIdx in
    if time.Before shardEnd (time.Add atTime (neg64 (lookbackPeriod cu))) then
      Some (time.Add shardStart (windowWidth cu), time.Add shardEnd (windowWidth cu))
    else
      Some (shardStart, shardEnd).

(** ** The chunk grid of the documentation

    Follows the comment above [getShardBoundaries] and section 4.1 of the
    specification, not the code: the timeline is cut into chunks of one
    shard width, numbered cyclically from the zero Time; instance [k] of
    chunk [i] lies in the [k]-th window-sized epoch.  The current shard is
    the leftmost instance with any overlap with
    [[atTime - lookbackPeriod, atTime + lookforwardPeriod)]. *)

Definition chunkInstance (cu : crlUpdater) (k i : Z) : time.Time * time.Time :=
  (k * windowWidth cu + i * shardWidth cu,
   k * windowWidth cu + (i + 1) * shardWidth cu).

(** Non-empty intersection of the half-open interval [c] with the window. *)
Definition overlapsWindow (cu : crlUpdater) (atTime : time.Time)
    (c : time.Time * time.Time) : bool :=
  (fst c <? atTime + lookforwardPeriod cu) && (atTime - lookbackPeriod cu <? snd c).

(** The epoch of the leftmost instance of chunk [i] that ends after the
    left edge of the window. *)
Definition documentedEpoch (cu : crlUpdater) (atTime : time.Time) (i : Z) : Z :=
  (atTime - lookbackPeriod cu - (i + 1) * shardWidth cu) / windowWidth cu + 1.

Definition documentedShard (cu : crlUpdater) (atTime : time.Time) (i : Z)
    : time.Time * time.Time :=
  chunkInstance cu (documentedEpoch cu atTime i) i.

(** The configurations of section 3 of the specification: at least one
    shard, a positive lifetime (an int64), a period under 7 days and an
    offset from 0 up to the period. *)
Definition validConfig (numShards : Z)
    (certLifetime updatePeriod updateOffset : time.Duration) : Prop :=
  1 <= numShards /\ 0 < certLifetime <= maxInt64 /\
  updatePeriod < 7 * 24 * time.Hour /\ 0 <= updateOffset < updatePeriod.

(** The window as [NewUpdater] computes it when no operation wraps, and
    the condition under which none does. *)
Definition exactWindow (numShards : Z) (certLifetime updatePeriod : time.Duration) : Z :=
  4 * updatePeriod + certLifetime + 4 * ((4 * updatePeriod + certLifetime) / numShards).

Definition windowFits (numShards : Z) (certLifetime updatePeriod : time.Duration) : Prop :=
  exactWindow numShards certLifetime updatePeriod + numShards <= maxInt64.

(** The window once [lookforwardPeriod] has been raised to make it a
    multiple of numShards (lines 88 to 91), and the condition under which
    no operation of [NewUpdater] wraps: this last sum is the largest
    value computed. *)
Definition paddedWindow (numShards : Z) (certLifetime updatePeriod : time.Duration) : Z :=
  let window := exactWindow numShards certLifetime updatePeriod in
  if window mod numShards =? 0 then window
  else window + (numShards - window mod numShards).

Definition noOverflow (numShards : Z) (certLifetime updatePeriod : time.Duration) : Prop :=
  paddedWindow numShards certLifetime updatePeriod <= maxInt64.

(** An updater as [NewUpdater] builds it when nothing wraps. *)
Definition wellFormed (cu : crlUpdater) : Prop :=
  0 < numShards cu
  /\ 0 < lookbackPeriod cu
  /\ 0 < lookforwardPeriod cu
  /\ lookbackPeriod cu + lookforwardPeriod cu <= maxInt64
  /\ (lookbackPeriod cu + lookforwardPeriod cu) mod numShards cu = 0.

(** ** Streams and their scripted peers *)

(** What [Recv] returns: a message, [io.EOF], or another error. *)
Inductive recv (A : Type) : Type :=
| RecvMsg (msg : A)
| RecvEOF
| RecvErr (err : error).

Arguments RecvMsg {A} msg.
Arguments RecvEOF {A}.
Arguments RecvErr {A} err.

(** [corepb.CRLEntry]; the updater forwards entries without reading them. *)
Record CRLEntry : Type := {
  Serial : string;
  Reason : Z;
  RevokedAt : Z;
}.

Record GetRevokedCertsRequest : Type := {
  IssuerNameID : Z;
  ExpiresAfter : Z;
  ExpiresBefore : Z;
  RevokedBefore : Z;
}.

(** The [Payload] of a [capb.GenerateCRLRequest]. *)
Inductive GenerateCRLRequest : Type :=
| GenerateCRLRequest_Metadata (issuerNameID thisUpdate shardIdx : Z)
| GenerateCRLRequest_Entry (entry : CRLEntry).

(** The [Payload] of a [cspb.UploadCRLRequest]. *)
Inductive UploadCRLRequest : Type :=
| UploadCRLRequest_Metadata (issuerNameID number shardIdx : Z)
| UploadCRLRequest_CrlChunk (crlChunk : list byte).

(** The peers of one [tickShard] run: for each call the error it returns
    ([None] is [nil]), for each stream the results of its successive
    [Recv] and [Send] calls.  A [Recv] past the end of its script returns
    [io.EOF]; a [Send] past the end of its script returns [nil]. *)
Record Peers : Type := {
  sa_GetRevokedCerts : option error;
  saStream_Recv : list (recv CRLEntry);
  ca_GenerateCRL : option error;
  caStream_Send : list (option error);
  caStream_CloseSend : option error;
  caStream_Recv : list (recv (list byte));
  cs_UploadCRL : option error;
  csStream_Send : list (option error);
  csStream_CloseAndRecv : option error;
}.

(** What a run does to the outside, in program order. *)
Inductive event : Type :=
| SA_GetRevokedCerts (req : GetRevokedCertsRequest)
| SA_Recv
| CA_GenerateCRL
| CA_Send (req : GenerateCRLRequest)
| CA_CloseSend
| CA_Recv
| CS_UploadCRL
| CS_Send (req : UploadCRLRequest)
| CS_CloseAndRecv
| Log_Debugf (format : string) (args : list (fmtArg error))
| Log_Infof (format : string) (args : list (fmtArg error))
| TickHistogram_Observe (issuer result : string)
| UpdatedCounter_Inc (result : string).

(** ** The monad of a function body

    State: the unread part of the two [Send] scripts, the events so far,
    and the local variable [result] that the deferred function reads. *)
Record frame : Type := {
  caSends : list (option error);
  csSends : list (option error);
  trace : list event;
  result : string;
}.

(** A statement falls through with a value, returns from the function,
    panics, or blocks forever. *)
Inductive control (A : Type) : Type :=
| Next (a : A)
| Return (err : option error)
| Panic
| Block.

Arguments Next {A} a.
Arguments Return {A} err.
Arguments Panic {A}.
Arguments Block {A}.

Definition M (A : Type) : Type := frame -> control A * frame.

#[global] Instance M_ret : MRet M := fun A a s => (Next a, s).

#[global] Instance M_bind : MBind M := fun A B f m s =>
  match m s with
  | (Next a, s') => f a s'
  | (Return err, s') => (Return err, s')
  | (Panic, s') => (Panic, s')
  | (Block, s') => (Block, s')
  end.

Definition emit (e : event) : M unit := fun s =>
  (Next tt, {| caSends := caSends s; csSends := csSends s;
               trace := trace s ++ [e]; result := result s |}).

(** [result = "failed"; return err] *)
Definition failed {A : Type} (err : error) : M A := fun s =>
  (Return (Some err), {| caSends := caSends s; csSends := csSends s;
                         trace := trace s; result := "failed" |}).

Definition returnNil {A : Type} : M A := fun s => (Return None, s).

Definition panic {A : Type} : M A := fun s => (Panic, s).

Definition block {A : Type} : M A := fun s => (Block, s).

(** [caStream.Send(req)] *)
Definition caStream_send (req : GenerateCRLRequest) : M (option error) := fun s =>
  (Next (hd None (caSends s)),
   {| caSends := tl (caSends s); csSends := csSends s;
      trace := trace s ++ [CA_Send req]; result := result s |}).

(** [csStream.Send(req)] *)
Definition csStream_send (req : UploadCRLRequest) : M (option error) := fun s =>
  (Next (hd None (csSends s)),
   {| caSends := caSends s; csSends := tl (csSends s);
      trace := trace s ++ [CS_Send req]; result := result s |}).

(** A call that only succeeds or fails: traced, then its error checked. *)
Definition call (e : event) (err : option error) (wrap : error -> error) : M unit :=
  emit e ;;
  match err with
  | Some err => failed (wrap err)
  | None => mret tt
  end.

(** The outcome of a call. *)
Inductive outcome : Type :=
| Returned (err : option error)
| Panicked
| Blocked.

Definition finish (c : control Empty_set) : outcome :=
  match c with
  | Next a => match a with end
  | Return err => Returned err
  | Panic => Panicked
  | Block => Blocked
  end.

Record shardResult : Type := {
  res_shardIdx : Z;
  res_err : option error;
}.

Section Pipeline.

(** [crl.Id(issuerNameID, crl.Number(atTime), shardIdx)], of package
    crl: from the issuer, the CRL number [atTime.UnixNano()] and the
    shard index, an id (a string) or an error. *)
Variable crl_Id : Z -> Z -> Z -> error + string.

(** [sha256.Sum256]: the digest of a byte string.  A [hash.Hash] made
    by [sha256.New()] is kept as the bytes written to it: [Write]
    appends and [Sum(nil)] is the digest of all of them. *)
Variable sha256_Sum256 : list byte -> list byte.

(** *** tickShard *)

(** The first loop: SA entries forwarded to the CA. *)
Fixpoint forwardEntries (crlId : string) (saStream : list (recv CRLEntry)) : M unit :=
  emit SA_Recv ;;
  match saStream with
  | [] => mret tt
  | RecvEOF :: _ => mret tt
  | RecvErr err :: _ =>
      failed (Errorf "retrieving entry from SA for %s: %w" [ArgString crlId; ArgError err])
  | RecvMsg entry :: saStream =>
      err ← caStream_send (GenerateCRLRequest_Entry entry) ;
      match err with
      | Some err =>
          failed (Errorf "sending entry to CA for %s: %w" [ArgString crlId; ArgError err])
      | None => forwardEntries crlId saStream
      end
  end.

(** The second loop: CA chunks relayed to the storer, counted and
    hashed.  Returns the final [crlLen] and the bytes written to
    [crlHash]. *)
Fixpoint relayChunks (crlId : string) (caStream : list (recv (list byte)))
    (crlLen : Z) (crlHash : list byte) : M (Z * list byte) :=
  emit CA_Recv ;;
  match caStream with
  | [] => mret (crlLen, crlHash)
  | RecvEOF :: _ => mret (crlLen, crlHash)
  | RecvErr err :: _ =>
      failed (Errorf "receiving CRL bytes for %s: %w" [ArgString crlId; ArgError err])
  | RecvMsg chunk :: caStream =>
      err ← csStream_send (UploadCRLRequest_CrlChunk chunk) ;
      match err with
      | Some err =>
          failed (Errorf "uploading CRL bytes for %s: %w" [ArgString crlId; ArgError err])
      | None =>
          relayChunks crlId caStream
            (add64 crlLen (Z.of_nat (length chunk))) (crlHash ++ chunk)
      end
  end.

(** Lines 265 to 384: the body once [crlId] is known and the deferred
    function is installed. *)
Definition tickShardBody (cu : crlUpdater) (peers : Peers) (atTime : time.Time)
    (issuerNameID shardIdx : Z) (crlId : string) : M Empty_set :=
  emit (Log_Debugf "Ticking shard %d of issuer %d at time %s"
          [ArgInt shardIdx; ArgInt issuerNameID; ArgTime atTime]) ;;
  '(expiresAfter, expiresBefore) ←
    match getShardBoundaries cu atTime shardIdx with
    | Some b => mret b
    | None => panic
    end ;
  call (SA_GetRevokedCerts {| IssuerNameID := issuerNameID;
                              ExpiresAfter := time.UnixNano expiresAfter;
                              ExpiresBefore := time.UnixNano expiresBefore;
                              RevokedBefore := time.UnixNano atTime |})
    (sa_GetRevokedCerts peers)
    (fun err => Errorf "connecting to SA for %s: %w" [ArgString crlId; ArgError err]) ;;
  call CA_GenerateCRL (ca_GenerateCRL peers)
    (fun err => Errorf "connecting to CA for %s: %w" [ArgString crlId; ArgError err]) ;;
  err ← caStream_send
          (GenerateCRLRequest_Metadata issuerNameID (time.UnixNano atTime) shardIdx) ;
  match err with
  | Some err =>
      failed (Errorf "sending CA metadata for %s: %w" [ArgString crlId; ArgError err])
  | None => mret tt
  end ;;
  forwardEntries crlId (saStream_Recv peers) ;;
  call CA_CloseSend (caStream_CloseSend peers)
    (fun err => Errorf "closing CA request stream for %s: %w" [ArgString crlId; ArgError err]) ;;
  call CS_UploadCRL (cs_UploadCRL peers)
    (fun err => Errorf "connecting to CRLStorer for %s: %w" [ArgString crlId; ArgError err]) ;;
  err ← csStream_send
          (UploadCRLRequest_Metadata issuerNameID (time.UnixNano atTime) shardIdx) ;
  match err with
  | Some err =>
      failed (Errorf "sending CRLStorer metadata for %s: %w" [ArgString crlId; ArgError err])
  | None => mret tt
  end ;;
  '(crlLen, crlHash) ← relayChunks crlId (caStream_Recv peers) 0 [] ;
  emit (Log_Infof "Generated CRL: id=[%s] size=[%d] hash=[%x]"
          [ArgString crlId; ArgInt crlLen; ArgBytes (sha256_Sum256 crlHash)]) ;;
  call CS_CloseAndRecv (csStream_CloseAndRecv peers)
    (fun err => Errorf "closing CRLStorer upload stream for %s: %w"
                  [ArgString crlId; ArgError err]) ;;
  returnNil.

(** The function deferred at line 261; [cu.issuers[issuerNameID]] is
    nil for an unknown issuer and reading its [Subject] panics. *)
Definition tickShardDeferred (cu : crlUpdater) (issuerNameID : Z) (s : frame)
    : option (list event) :=
  match issuers cu !! issuerNameID with
  | Some issuer =>
      Some [TickHistogram_Observe (CommonName issuer) (result s);
            UpdatedCounter_Inc (result s)]
  | None => None
  end.

(** [tickShard]: its outcome and its events. *)
Definition tickShard (cu : crlUpdater) (peers : Peers) (atTime : time.Time)
    (issuerNameID shardIdx : Z) : outcome * list event :=
  match crl_Id issuerNameID (time.UnixNano atTime) shardIdx with
  | inl err => (Returned (Some err), [])
  | inr crlId =>
      let '(c, s) :=
        tickShardBody cu peers atTime issuerNameID shardIdx crlId
          {| caSends := caStream_Send peers; csSends := csStream_Send peers;
             trace := []; result := "success" |} in
      match tickShardDeferred cu issuerNameID s with
      | Some metrics => (finish c, trace s ++ metrics)
      | None => (Panicked, trace s)
      end
  end.

(** *** tickIssuer *)

(** The goroutines.  Workers take the indices [0 .. numShards-1] from
    [shardIdxs] in order, so at most [maxParallelism] shards run at
    once and a shard starts as soon as a worker is free. *)
Definition startShards (running : list Z) (next numShards maxParallelism : Z)
    : list Z * Z :=
  let free :=
    Z.max 0 (Z.min (maxParallelism - Z.of_nat (length running)) (numShards - next)) in
  (running ++ seqZ next free, next + free).

(** The order in which shards complete: at each completion [sched]
    picks one of the running shards.  A schedule that ends early leaves
    the remaining shards without a result, as workers that found
    [ctx.Done()] closed do. *)
Fixpoint completions (sched : list nat) (running : list Z)
    (next numShards maxParallelism : Z) : list Z :=
  match sched with
  | [] => []
  | pick :: sched =>
      let '(running, next) := startShards running next numShards maxParallelism in
      let i := (pick mod length running)%nat in
      match running !! i with
      | Some idx => idx :: completions sched (delete i running) next numShards maxParallelism
      | None => []
      end
  end.

(** What [shardWorker] sends for one index; [None] when [tickShard]
    panics, which ends the process. *)
Definition shardWorker (cu : crlUpdater) (peers : Z -> Peers) (atTime : time.Time)
    (issuerNameID idx : Z) : option shardResult :=
  match fst (tickShard cu (peers idx) atTime issuerNameID idx) with
  | Returned err => Some {| res_shardIdx := idx; res_err := err |}
  | Panicked | Blocked => None
  end.

(** The values the channel [shardResults] delivers, in order. *)
Definition shardResults (cu : crlUpdater) (peers : Z -> Peers) (sched : list nat)
    (atTime : time.Time) (issuerNameID : Z) : list (option shardResult) :=
  map (shardWorker cu peers atTime issuerNameID)
      (completions sched [] 0 (numShards cu) (maxParallelism cu)).

(** Lines 243 to 249: [n] receives; a receive on the drained channel,
    which nobody closes, never returns. *)
Fixpoint collectResults (n : nat) (shardResults : list (option shardResult)) : M unit :=
  match n with
  | O => mret tt
  | S n =>
      match shardResults with
      | [] => block
      | None :: _ => panic
      | Some res :: shardResults =>
          match res_err res with
          | Some err =>
              failed (Errorf "updating shard %d: %w"
                        [ArgInt (res_shardIdx res); ArgError err])
          | None => collectResults n shardResults
          end
      end
  end.

Definition tickIssuerBody (cu : crlUpdater) (results : list (option shardResult))
    (atTime : time.Time) (issuerNameID : Z) : M Empty_set :=
  emit (Log_Debugf "Ticking issuer %d at time %s" [ArgInt issuerNameID; ArgTime atTime]) ;;
  (* make(chan int, cu.numShards) *)
  (if numShards cu <? 0 then panic else mret tt) ;;
  collectResults (Z.to_nat (numShards cu)) results ;;
  returnNil.

(** The function deferred at line 208. *)
Definition tickIssuerDeferred (cu : crlUpdater) (issuerNameID : Z) (s : frame)
    : option (list event) :=
  match issuers cu !! issuerNameID with
  | Some issuer =>
      Some [TickHistogram_Observe (CommonName issuer ++ " (Overall)")%string (result s)]
  | None => None
  end.

(** [tickIssuer]: its outcome and its own events (those of the shards
    belong to the workers). *)
Definition tickIssuer (cu : crlUpdater) (peers : Z -> Peers) (sched : list nat)
    (atTime : time.Time) (issuerNameID : Z) : outcome * list event :=
  let '(c, s) :=
    tickIssuerBody cu (shardResults cu peers sched atTime issuerNameID) atTime issuerNameID
      {| caSends := []; csSends := []; trace := []; result := "success" |} in
  match c with
  | Block => (Blocked, trace s)
  | _ =>
      match tickIssuerDeferred cu issuerNameID s with
      | Some metrics => (finish c, trace s ++ metrics)
      | None => (Panicked, trace s)
      end
  end.

End Pipeline.

(** ** Reading results *)

(** Whether a constructor returned an error. *)
Definition isError {A B : Type} (r : A + B) : bool :=
  match r with inl _ => true | inr _ => false end.

(** ** Reading scripts and traces *)

(** The messages a [Recv] script delivers before [io.EOF]; [None] when an
    error comes first. *)
Fixpoint received {A : Type} (script : list (recv A)) : option (list A) :=
  match script with
  | [] => Some []
  | RecvEOF :: _ => Some []
  | RecvErr _ :: _ => None
  | RecvMsg msg :: script => option_map (cons msg) (received script)
  end.

(** Every scripted [Send] returns nil. *)
Definition sendsSucceed (script : list (option error)) : Prop :=
  Forall (fun r => r = None) script.

(** A run in which every stream operation succeeds: the SA delivers
    [entries] and the CA delivers [chunks]. *)
Definition allSucceed (peers : Peers) (entries : list CRLEntry)
    (chunks : list (list byte)) : Prop :=
  sa_GetRevokedCerts peers = None
  /\ received (saStream_Recv peers) = Some entries
  /\ ca_GenerateCRL peers = None
  /\ sendsSucceed (caStream_Send peers)
  /\ caStream_CloseSend peers = None
  /\ received (caStream_Recv peers) = Some chunks
  /\ cs_UploadCRL peers = None
  /\ sendsSucceed (csStream_Send peers)
  /\ csStream_CloseAndRecv peers = None.

(** The requests sent on the CA stream, in order. *)
Definition caRequests (tr : list event) : list GenerateCRLRequest :=
  flat_map (fun e => match e with CA_Send req => [req] | _ => [] end) tr.

(** The requests sent on the storer stream, in order. *)
Definition csRequests (tr : list event) : list UploadCRLRequest :=
  flat_map (fun e => match e with CS_Send req => [req] | _ => [] end) tr.

(** The operands of the Infof lines. *)
Definition infoLines (tr : list event) : list (list (fmtArg error)) :=
  flat_map (fun e => match e with Log_Infof _ args => [args] | _ => [] end) tr.

(** The calls that open a stream. *)
Definition streamsOpened (tr : list event) : list event :=
  List.filter (fun e => match e with
                   | SA_GetRevokedCerts _ | CA_GenerateCRL | CS_UploadCRL => true
                   | _ => false
                   end) tr.

(** The metric updates. *)
Definition isMetric (e : event) : bool :=
  match e with
  | TickHistogram_Observe _ _ | UpdatedCounter_Inc _ => true
  | _ => false
  end.

Definition metricUpdates (tr : list event) : list event := List.filter isMetric tr.

(** The events of a shard run in which everything succeeds. *)
Definition successTrace (atTime : time.Time) (issuerNameID shardIdx : Z)
    (expiresAfter expiresBefore : time.Time) (commonName : string)
    (entries : list CRLEntry) (chunks : list (list byte))
    (logged : list (fmtArg error)) : list event :=
  [Log_Debugf "Ticking shard %d of issuer %d at time %s"
     [ArgInt shardIdx; ArgInt issuerNameID; ArgTime atTime];
   SA_GetRevokedCerts {| IssuerNameID := issuerNameID;
                         ExpiresAfter := time.UnixNano expiresAfter;
                         ExpiresBefore := time.UnixNano expiresBefore;
                         RevokedBefore := time.UnixNano atTime |};
   CA_GenerateCRL;
   CA_Send (GenerateCRLRequest_Metadata issuerNameID (time.UnixNano atTime) shardIdx)]
  ++ flat_map (fun entry => [SA_Recv; CA_Send (GenerateCRLRequest_Entry entry)]) entries
  ++ [SA_Recv; CA_CloseSend; CS_UploadCRL;
      CS_Send (UploadCRLRequest_Metadata issuerNameID (time.UnixNano atTime) shardIdx)]
  ++ flat_map (fun chunk => [CA_Recv; CS_Send (UploadCRLRequest_CrlChunk chunk)]) chunks
  ++ [CA_Recv;
      Log_Infof "Generated CRL: id=[%s] size=[%d] hash=[%x]" logged;
      CS_CloseAndRecv;
      TickHistogram_Observe commonName "success";
      UpdatedCounter_Inc "success"].

(** [crlLen] after the chunks have been added to it, one by one. *)
Definition addLengths (crlLen : Z) (chunks : list (list byte)) : Z :=
  fold_left (fun n chunk => add64 n (Z.of_nat (length chunk))) chunks crlLen.

(** The sum of the chunk lengths. *)
Definition totalLength (chunks : list (list byte)) : Z :=
  Z.of_nat (list_sum (map (@length byte) chunks)).

(** A statement that touches no metric and keeps [result] in step with
    the way it ends: "failed" exactly when it returns an error. *)
Definition orderly {A : Type} (m : M A) : Prop :=
  forall s : frame,
    metricUpdates (trace s) = [] -> result s = "success" ->
    metricUpdates (trace (snd (m s))) = []
    /\ match fst (m s) with
       | Return (Some _) => result (snd (m s)) = "failed"
       | Next _ | Return None | Panic | Block => result (snd (m s)) = "success"
       end.

(** ** Concrete inputs *)

(** A [crl.Id] that succeeds and one that fails. *)
Definition exampleId (issuerNameID crlNumber shardIdx : Z) : error + string :=
  inr "crl-id".

Definition failingId (issuerNameID crlNumber shardIdx : Z) : error + string :=
  inl (Errorf "computing CRL Id: %w" [ArgError (ErrValue "unsupported value")]).

(** A digest function to run the pipeline with; the properties hold for
    every one. *)
Definition exampleDigest (data : list byte) : list byte :=
  match Byte.of_N (fold_left (fun acc b => (acc + Byte.to_N b) mod 256)%N data 0%N) with
  | Some checksum => [checksum]
  | None => []
  end.

Definition exampleIssuer : Certificate := {| NameID := 7; CommonName := "Example CA" |}.

(** 2024-01-01T00:00:00Z *)
Definition exampleTime : time.Time := time.Unix 1704067200 0.

(** What [NewUpdater] builds for the issuer above, 10 shards, 90-day
    certificates, hourly updates and 2 workers. *)
Definition exampleUpdater : crlUpdater :=
  {| issuers := {[7 := exampleIssuer]};
     numShards := 10;
     lookbackPeriod := 4 * time.Hour;
     lookforwardPeriod := 10892160000000000;
     updatePeriod := time.Hour;
     updateOffset := 0;
     maxParallelism := 2 |}.

(** The same with 2 shards. *)
Definition smallUpdater : crlUpdater :=
  {| issuers := {[7 := exampleIssuer]};
     numShards := 2;
     lookbackPeriod := 4 * time.Hour;
     lookforwardPeriod := 23356800000000000;
     updatePeriod := time.Hour;
     updateOffset := 0;
     maxParallelism := 2 |}.

Definition exampleEntries : list CRLEntry :=
  [{| Serial := "03a1"; Reason := 1; RevokedAt := 1703980800000000000 |};
   {| Serial := "03b2"; Reason := 5; RevokedAt := 1704000000000000000 |}].

Definition exampleChunks : list (list byte) := [[x30; x82]; [x01]].

(** Peers with which everything succeeds. *)
Definition examplePeers : Peers :=
  {| sa_GetRevokedCerts := None;
     saStream_Recv := map RecvMsg exampleEntries ++ [RecvEOF];
     ca_GenerateCRL := None;
     caStream_Send := [];
     caStream_CloseSend := None;
     caStream_Recv := map RecvMsg exampleChunks ++ [RecvEOF];
     cs_UploadCRL := None;
     csStream_Send := [];
     csStream_CloseAndRecv := None |}.

(** An SA without revocations and a CA that delivers no chunk. *)
Definition emptyPeers : Peers :=
  {| sa_GetRevokedCerts := None;
     saStream_Recv := [RecvEOF];
     ca_GenerateCRL := None;
     caStream_Send := [];
     caStream_CloseSend := None;
     caStream_Recv := [RecvEOF];
     cs_UploadCRL := None;
     csStream_Send := [];
     csStream_CloseAndRecv := None |}.

(** An SA that cannot be reached. *)
Definition unreachablePeers : Peers :=
  {| sa_GetRevokedCerts := Some (ErrValue "unavailable");
     saStream_Recv := [];
     ca_GenerateCRL := None;
     caStream_Send := [];
     caStream_CloseSend := None;
     caStream_Recv := [];
     cs_UploadCRL := None;
     csStream_Send := [];
     csStream_CloseAndRecv := None |}.

(** ** Every run of tickShard

    What a run of the body can be, step by step: where it stops, the
    error it returns there, the events up to that point and the value of
    [result]. *)

(** The events of the first loop and of the second. *)
Definition isForward (e : event) : bool :=
  match e with
  | SA_Recv | CA_Send (GenerateCRLRequest_Entry _) => true
  | _ => false
  end.

Definition isRelay (e : event) : bool :=
  match e with
  | CA_Recv | CS_Send (UploadCRLRequest_CrlChunk _) => true
  | _ => false
  end.

(** The events of a first loop that forwards [entries] and ends on
    [io.EOF], and of a second loop that relays [chunks]. *)
Definition forwarded (entries : list CRLEntry) : list event :=
  flat_map (fun entry => [SA_Recv; CA_Send (GenerateCRLRequest_Entry entry)]) entries
  ++ [SA_Recv].

Definition relayed (chunks : list (list byte)) : list event :=
  flat_map (fun chunk => [CA_Recv; CS_Send (UploadCRLRequest_CrlChunk chunk)]) chunks
  ++ [CA_Recv].

(** [fmt.Errorf(step, crlId, cause)] *)
Definition stepError (step crlId : string) (cause : error) : error :=
  Errorf step [ArgString crlId; ArgError cause].

(** What ends a loop early: the error of a [Recv], or the error of the
    [Send] of a message received.  [sends] are the results of the
    [Send]s still to come. *)
Inductive loopFailure : Type :=
| RecvFailed (cause : error)
| SendFailed (cause : error).

Fixpoint firstFailure {A : Type} (script : list (recv A)) (sends : list (option error))
    : option loopFailure :=
  match script with
  | [] => None
  | RecvEOF :: _ => None
  | RecvErr cause :: _ => Some (RecvFailed cause)
  | RecvMsg _ :: script =>
      match hd None sends with
      | Some cause => Some (SendFailed cause)
      | None => firstFailure script (tl sends)
      end
  end.

(** The first operation of a shard's run that the peers fail, in program
    order: the format of its step and the error the peer returns there.
    The first [Send] on each stream carries the metadata. *)
Definition firstError (peers : Peers) : option (string * error) :=
  match sa_GetRevokedCerts peers with
  | Some cause => Some ("connecting to SA for %s: %w", cause)
  | None =>
  match ca_GenerateCRL peers with
  | Some cause => Some ("connecting to CA for %s: %w", cause)
  | None =>
  match hd None (caStream_Send peers) with
  | Some cause => Some ("sending CA metadata for %s: %w", cause)
  | None =>
  match firstFailure (saStream_Recv peers) (tl (caStream_Send peers)) with
  | Some (RecvFailed cause) => Some ("retrieving entry from SA for %s: %w", cause)
  | Some (SendFailed cause) => Some ("sending entry to CA for %s: %w", cause)
  | None =>
  match caStream_CloseSend peers with
  | Some cause => Some ("closing CA request stream for %s: %w", cause)
  | None =>
  match cs_UploadCRL peers with
  | Some cause => Some ("connecting to CRLStorer for %s: %w", cause)
  | None =>
  match hd None (csStream_Send peers) with
  | Some cause => Some ("sending CRLStorer metadata for %s: %w", cause)
  | None =>
  match firstFailure (caStream_Recv peers) (tl (csStream_Send peers)) with
  | Some (RecvFailed cause) => Some ("receiving CRL bytes for %s: %w", cause)
  | Some (SendFailed cause) => Some ("uploading CRL bytes for %s: %w", cause)
  | None =>
  match csStream_CloseAndRecv peers with
  | Some cause => Some ("closing CRLStorer upload stream for %s: %w", cause)
  | None => None
  end end end end end end end end end.

Section ShardRuns.

Variable sha256_Sum256 : list byte -> list byte.
Variable peers : Peers.
Variable atTime : time.Time.
Variables issuerNameID shardIdx : Z.
Variable crlId : string.
Variables expiresAfter expiresBefore : time.Time.

(** The events up to the call of [GetRevokedCerts]. *)
Definition started : list event :=
  [Log_Debugf "Ticking shard %d of issuer %d at time %s"
     [ArgInt shardIdx; ArgInt issuerNameID; ArgTime atTime];
   SA_GetRevokedCerts {| IssuerNameID := issuerNameID;
                         ExpiresAfter := time.UnixNano expiresAfter;
                         ExpiresBefore := time.UnixNano expiresBefore;
                         RevokedBefore := time.UnixNano atTime |}].

(** The events up to the metadata frame of the CA stream. *)
Definition announced : list event :=
  started
  ++ [CA_GenerateCRL;
      CA_Send (GenerateCRLRequest_Metadata issuerNameID (time.UnixNano atTime) shardIdx)].

(** The events up to the metadata frame of the storer stream. *)
Definition handedOver (entries : list CRLEntry) : list event :=
  announced ++ forwarded entries
  ++ [CA_CloseSend; CS_UploadCRL;
      CS_Send (UploadCRLRequest_Metadata issuerNameID (time.UnixNano atTime) shardIdx)].

(** The events up to the line logged. *)
Definition generated (entries : list CRLEntry) (chunks : list (list byte)) : list event :=
  handedOver entries ++ relayed chunks
  ++ [Log_Infof "Generated CRL: id=[%s] size=[%d] hash=[%x]"
        [ArgString crlId; ArgInt (addLengths 0 chunks);
         ArgBytes (sha256_Sum256 (concat chunks))]].

Inductive shardRun : option error -> list event -> string -> Prop :=
| run_sa_connect (cause : error) :
    sa_GetRevokedCerts peers = Some cause ->
    firstError peers = Some ("connecting to SA for %s: %w", cause) ->
    shardRun (Some (stepError "connecting to SA for %s: %w" crlId cause)) started "failed"
| run_ca_connect (cause : error) :
    sa_GetRevokedCerts peers = None ->
    ca_GenerateCRL peers = Some cause ->
    firstError peers = Some ("connecting to CA for %s: %w", cause) ->
    shardRun (Some (stepError "connecting to CA for %s: %w" crlId cause))
      (started ++ [CA_GenerateCRL]) "failed"
| run_ca_metadata (cause : error) :
    sa_GetRevokedCerts peers = None ->
    ca_GenerateCRL peers = None ->
    hd None (caStream_Send peers) = Some cause ->
    firstError peers = Some ("sending CA metadata for %s: %w", cause) ->
    shardRun (Some (stepError "sending CA metadata for %s: %w" crlId cause))
      announced "failed"
| run_sa_recv (cause : error) (sent : list event) :
    sa_GetRevokedCerts peers = None ->
    ca_GenerateCRL peers = None ->
    received (saStream_Recv peers) = None ->
    forallb isForward sent = true ->
    firstError peers = Some ("retrieving entry from SA for %s: %w", cause) ->
    shardRun (Some (stepError "retrieving entry from SA for %s: %w" crlId cause))
      (announced ++ sent) "failed"
| run_ca_send (cause : error) (sent : list event) :
    sa_GetRevokedCerts peers = None ->
    ca_GenerateCRL peers = None ->
    forallb isForward sent = true ->
    firstError peers = Some ("sending entry to CA for %s: %w", cause) ->
    shardRun (Some (stepError "sending entry to CA for %s: %w" crlId cause))
      (announced ++ sent) "failed"
| run_close_send (entries : list CRLEntry) (cause : error) :
    sa_GetRevokedCerts peers = None ->
    ca_GenerateCRL peers = None ->
    received (saStream_Recv peers) = Some entries ->
    caStream_CloseSend peers = Some cause ->
    firstError peers = Some ("closing CA request stream for %s: %w", cause) ->
    shardRun (Some (stepError "closing CA request stream for %s: %w" crlId cause))
      (announced ++ forwarded entries ++ [CA_CloseSend]) "failed"
| run_cs_connect (entries : list CRLEntry) (cause : error) :
    sa_GetRevokedCerts peers = None ->
    ca_GenerateCRL peers = None ->
    received (saStream_Recv peers) = Some entries ->
    caStream_CloseSend peers = None ->
    cs_UploadCRL peers = Some cause ->
    firstError peers = Some ("connecting to CRLStorer for %s: %w", cause) ->
    shardRun (Some (stepError "connecting to CRLStorer for %s: %w" crlId cause))
      (announced ++ forwarded entries ++ [CA_CloseSend; CS_UploadCRL]) "failed"
| run_cs_metadata (entries : list CRLEntry) (cause : error) :
    sa_GetRevokedCerts peers = None ->
    ca_GenerateCRL peers = None ->
    received (saStream_Recv peers) = Some entries ->
    caStream_CloseSend peers = None ->
    cs_UploadCRL peers = None ->
    hd None (csStream_Send peers) = Some cause ->
    firstError peers = Some ("sending CRLStorer metadata for %s: %w", cause) ->
    shardRun (Some (stepError "sending CRLStorer metadata for %s: %w" crlId cause))
      (handedOver entries) "failed"
| run_ca_recv (entries : list CRLEntry) (cause : error) (sent : list event) :
    sa_GetRevokedCerts peers = None ->
    ca_GenerateCRL peers = None ->
    received (saStream_Recv peers) = Some entries ->
    caStream_CloseSend peers = None ->
    cs_UploadCRL peers = None ->
    received (caStream_Recv peers) = None ->
    forallb isRelay sent = true ->
    firstError peers = Some ("receiving CRL bytes for %s: %w", cause) ->
    shardRun (Some (stepError "receiving CRL bytes for %s: %w" crlId cause))
      (handedOver entries ++ sent) "failed"
| run_cs_send (entries : list CRLEntry) (cause : error) (sent : list event) :
    sa_GetRevokedCerts peers = None ->
    ca_GenerateCRL peers = None ->
    received (saStream_Recv peers) = Some entries ->
    caStream_CloseSend peers = None ->
    cs_UploadCRL peers = None ->
    forallb isRelay sent = true ->
    firstError peers = Some ("uploading CRL bytes for %s: %w", cause) ->
    shardRun (Some (stepError "uploading CRL bytes for %s: %w" crlId cause))
      (handedOver entries ++ sent) "failed"
| run_close_recv (entries : list CRLEntry) (chunks : list (list byte)) (cause : error) :
    sa_GetRevokedCerts peers = None ->
    ca_GenerateCRL peers = None ->
    received (saStream_Recv peers) = Some entries ->
    caStream_CloseSend peers = None ->
    cs_UploadCRL peers = None ->
    received (caStream_Recv peers) = Some chunks ->
    csStream_CloseAndRecv peers = Some cause ->
    firstError peers = Some ("closing CRLStorer upload stream for %s: %w", cause) ->
    shardRun (Some (stepError "closing CRLStorer upload stream for %s: %w" crlId cause))
      (generated entries chunks ++ [CS_CloseAndRecv]) "failed"
| run_success (entries : list CRLEntry) (chunks : list (list byte)) :
    sa_GetRevokedCerts peers = None ->
    ca_GenerateCRL peers = None ->
    received (saStream_Recv peers) = Some entries ->
    caStream_CloseSend peers = None ->
    cs_UploadCRL peers = None ->
    received (caStream_Recv peers) = Some chunks ->
    csStream_CloseAndRecv peers = None ->
    firstError peers = None ->
    shardRun None (generated entries chunks ++ [CS_CloseAndRecv]) "success".

End ShardRuns.

(** Equality of two traces up to the nesting of [++]. *)
Ltac same_trace :=
  unfold generated, handedOver, announced, started;
  cbn [app]; repeat (rewrite <- app_assoc; cbn [app]); reflexivity.

(** [firstError] from the results of the operations up to the first
    failure. *)
Ltac first_error :=
  unfold firstError;
  repeat match goal with
         | H : sa_GetRevokedCerts _ = _ |- _ => rewrite H; clear H
         | H : ca_GenerateCRL _ = _ |- _ => rewrite H; clear H
         | H : hd None _ = _ |- _ => rewrite H; clear H
         | H : firstFailure _ _ = _ |- _ => rewrite H; clear H
         | H : caStream_CloseSend _ = _ |- _ => rewrite H; clear H
         | H : cs_UploadCRL _ = _ |- _ => rewrite H; clear H
         | H : csStream_CloseAndRecv _ = _ |- _ => rewrite H; clear H
         end;
  reflexivity.

(** ** Run

    The wait before the first tick, lines 142 to 148: [currOffset] is
    where the clock stands in the current period.  [None] is the run-time
    panic of an integer division by zero. *)
Definition waitNanos (cu : crlUpdater) (now : time.Time) : option Z :=
  if updatePeriod cu =? 0 then None
  else
    let currOffset := rem64 (time.UnixNano now) (updatePeriod cu) in
    if currOffset <=? updateOffset cu then
      Some (sub64 (updateOffset cu) currOffset)
    else
      Some (add64 (sub64 (updatePeriod cu) currOffset) (updateOffset cu)).

(** ** The goroutines of tickIssuer

    Lines 217 to 250 as a transition system: the goroutine of
    [tickIssuer] itself, the workers it starts, the two buffered
    channels and the context.  A schedule is a list of actions, each the
    next step of one goroutine or the cancellation of the context; a
    step that would block is not enabled.  [tickShard] runs in one
    step: what it does to its peers is the matter of the sections
    above. *)

Module pool.

(** Where a worker stands in [shardWorker]. *)
Inductive worker : Type :=
| AtRange                      (* at [for idx := range in], line 218 *)
| AtSelect (idx : Z)           (* holds [idx], at the [select] of line 219 *)
| AtSend (res : shardResult)   (* [tickShard] has returned, at [out <- ...] *)
| Exited.                      (* has returned *)

(** Where [tickIssuer] stands. *)
Inductive coordinator : Type :=
| Spawning (i : Z)             (* line 234, with its loop variable *)
| Feeding (shardIdx : Z)       (* line 238, with its loop variable *)
| Collecting (i : Z)           (* line 243, with its loop variable *)
| Returning (err : option error).

(** The buffers of [shardIdxs] and [shardResults], the goroutines, the
    context, and two histories: the indices received from [shardIdxs]
    and the results sent on [shardResults], in order. *)
Record state : Type := {
  idxs : list Z;
  idxsClosed : bool;
  results : list shardResult;
  workers : list worker;
  coord : coordinator;
  ctxDone : bool;
  panicked : bool;
  taken : list Z;
  sent : list shardResult;
}.

Inductive action : Type :=
| Main
| Worker (j : nat)
| Cancel.

Definition setCoord (c : coordinator) (st : state) : state :=
  {| idxs := idxs st; idxsClosed := idxsClosed st; results := results st;
     workers := workers st; coord := c; ctxDone := ctxDone st;
     panicked := panicked st; taken := taken st; sent := sent st |}.

Definition setWorker (j : nat) (w : worker) (st : state) : state :=
  {| idxs := idxs st; idxsClosed := idxsClosed st; results := results st;
     workers := <[j := w]> (workers st); coord := coord st; ctxDone := ctxDone st;
     panicked := panicked st; taken := taken st; sent := sent st |}.

(** The shards that the workers hold: received, and their result not
    yet sent. *)
Definition holds (w : worker) : list Z :=
  match w with
  | AtSelect idx => [idx]
  | AtSend res => [res_shardIdx res]
  | AtRange | Exited => []
  end.

Definition held (ws : list worker) : list Z := flat_map holds ws.

Section Goroutines.

Variable crl_Id : Z -> Z -> Z -> error + string.
Variable sha256_Sum256 : list byte -> list byte.
Variable cu : crlUpdater.
Variable peers : Z -> Peers.
Variable atTime : time.Time.
Variable issuerNameID : Z.

(** After the two [make]s of lines 232 and 233, which panic on a
    negative size. *)
Definition start : state :=
  {| idxs := []; idxsClosed := false; results := []; workers := [];
     coord := Spawning 0; ctxDone := false; panicked := numShards cu <? 0;
     taken := []; sent := [] |}.

(** The next step of [tickIssuer]. *)
Definition stepMain (st : state) : option state :=
  match coord st with
  | Spawning i =>
      if i <? maxParallelism cu then
        (* go shardWorker(shardIdxs, shardResults) *)
        Some {| idxs := idxs st; idxsClosed := idxsClosed st; results := results st;
                workers := workers st ++ [AtRange]; coord := Spawning (i + 1);
                ctxDone := ctxDone st; panicked := panicked st;
                taken := taken st; sent := sent st |}
      else Some (setCoord (Feeding 0) st)
  | Feeding shardIdx =>
      if shardIdx <? numShards cu then
        (* shardIdxs <- shardIdx *)
        if Z.of_nat (length (idxs st)) <? numShards cu then
          Some {| idxs := idxs st ++ [shardIdx]; idxsClosed := idxsClosed st;
                  results := results st; workers := workers st;
                  coord := Feeding (shardIdx + 1);
                  ctxDone := ctxDone st; panicked := panicked st;
                  taken := taken st; sent := sent st |}
        else None
      else
        (* close(shardIdxs) *)
        Some {| idxs := idxs st; idxsClosed := true; results := results st;
                workers := workers st; coord := Collecting 0;
                ctxDone := ctxDone st; panicked := panicked st;
                taken := taken st; sent := sent st |}
  | Collecting i =>
      if i <? numShards cu then
        (* res := <-shardResults *)
        match results st with
        | res :: rest =>
            Some {| idxs := idxs st; idxsClosed := idxsClosed st; results := rest;
                    workers := workers st;
                    coord := match res_err res with
                             | Some err =>
                                 Returning
                                   (Some (Errorf "updating shard %d: %w"
                                            [ArgInt (res_shardIdx res); ArgError err]))
                             | None => Collecting (i + 1)
                             end;
                    ctxDone := ctxDone st; panicked := panicked st;
                    taken := taken st; sent := sent st |}
        | [] => None
        end
      else Some (setCoord (Returning None) st)
  | Returning _ => None
  end.

(** The next step of worker [j]. *)
Definition stepWorker (j : nat) (st : state) : option state :=
  match workers st !! j with
  | None => None
  | Some AtRange =>
      match idxs st with
      | idx :: rest =>
          Some {| idxs := rest; idxsClosed := idxsClosed st; results := results st;
                  workers := <[j := AtSelect idx]> (workers st); coord := coord st;
                  ctxDone := ctxDone st; panicked := panicked st;
                  taken := taken st ++ [idx]; sent := sent st |}
      | [] => if idxsClosed st then Some (setWorker j Exited st) else None
      end
  | Some (AtSelect idx) =>
      if ctxDone st then Some (setWorker j Exited st)
      else
        match shardWorker crl_Id sha256_Sum256 cu peers atTime issuerNameID idx with
        | Some res => Some (setWorker j (AtSend res) st)
        | None =>
            Some {| idxs := idxs st; idxsClosed := idxsClosed st; results := results st;
                    workers := workers st; coord := coord st; ctxDone := ctxDone st;
                    panicked := true; taken := taken st; sent := sent st |}
        end
  | Some (AtSend res) =>
      if Z.of_nat (length (results st)) <? numShards cu then
        Some {| idxs := idxs st; idxsClosed := idxsClosed st;
                results := results st ++ [res];
                workers := <[j := AtRange]> (workers st); coord := coord st;
                ctxDone := ctxDone st; panicked := panicked st;
                taken := taken st; sent := sent st ++ [res] |}
      else None
  | Some Exited => None
  end.

(** One action; none is enabled once a goroutine has panicked. *)
Definition step (a : action) (st : state) : option state :=
  if panicked st then None
  else
    match a with
    | Main => stepMain st
    | Worker j => stepWorker j st
    | Cancel =>
        Some {| idxs := idxs st; idxsClosed := idxsClosed st; results := results st;
                workers := workers st; coord := coord st; ctxDone := true;
                panicked := panicked st; taken := taken st; sent := sent st |}
    end.

Fixpoint exec (schedule : list action) (st : state) : option state :=
  match schedule with
  | [] => Some st
  | a :: schedule =>
      match step a st with
      | Some st => exec schedule st
      | None => None
      end
  end.

(** What every reachable state satisfies.  The indices fed so far: *)
Definition fed (st : state) : Z :=
  match coord st with
  | Spawning _ => 0
  | Feeding shardIdx => shardIdx
  | Collecting _ | Returning _ => numShards cu
  end.

(** a result that is what [tickShard] returned for its shard: *)
Definition ticked (res : shardResult) : Prop :=
  shardWorker crl_Id sha256_Sum256 cu peers atTime issuerNameID (res_shardIdx res)
  = Some res.

(** and the results that [tickIssuer] has received, at each point of its
    code. *)
Definition collectedBy (c : coordinator) (collected : list shardResult) : Prop :=
  match c with
  | Spawning _ | Feeding _ => collected = []
  | Collecting i =>
      i = Z.of_nat (length collected) /\ Forall (fun res => res_err res = None) collected
  | Returning None =>
      numShards cu <= Z.of_nat (length collected)
      /\ Forall (fun res => res_err res = None) collected
  | Returning (Some _) => True
  end.

Record invariant (st : state) : Prop := {
  inv_fed : 0 <= fed st <= numShards cu;
  inv_taken : taken st ++ idxs st = seqZ 0 (fed st);
  inv_held : held (workers st) ++ (res_shardIdx <$> sent st) ⊆+ taken st;
  inv_collected :
    exists collected,
      sent st = collected ++ results st /\ collectedBy (coord st) collected;
  inv_ticked :
    Forall ticked (sent st)
    /\ Forall (fun w => match w with AtSend res => ticked res | _ => True end)
         (workers st);
  inv_workers :
    Z.of_nat (length (workers st)) <= Z.max 0 (maxParallelism cu)
    /\ match coord st with
       | Spawning i => i = Z.of_nat (length (workers st))
       | _ => True
       end;
}.

(** With a single worker: what has been taken has been sent, but for
    the shard the worker holds, or the one it held when it left. *)
Definition inOrder (st : state) : Prop :=
  match workers st with
  | [] => taken st = [] /\ sent st = []
  | [AtRange] => res_shardIdx <$> sent st = taken st
  | [AtSelect idx] => taken st = (res_shardIdx <$> sent st) ++ [idx]
  | [AtSend res] => taken st = (res_shardIdx <$> sent st) ++ [res_shardIdx res]
  | [Exited] => (res_shardIdx <$> sent st) `prefix_of` taken st
  | _ :: _ :: _ => True
  end.

End Goroutines.

End pool.

(** ** Tick *)

(** What a tick does to the outside: its own log lines and histogram
    observation, and its calls of [tickIssuer], each with the events of
    that call. *)
Inductive tickEvent : Type :=
| Tick_Debugf (format : string) (args : list (fmtArg error))
| Tick_tickIssuer (issuerNameID : Z) (events : list event)
| Tick_AuditErrf (format : string) (args : list (fmtArg error))
| Tick_Observe (issuer result : string).

Section Ticks.

Variable crl_Id : Z -> Z -> Z -> error + string.
Variable sha256_Sum256 : list byte -> list byte.
(** [t.Format(time.RFC3339Nano)] *)
Variable Format_RFC3339Nano : time.Time -> string.

(** The loop of lines 188 to 201 over the issuers in the order [order],
    which is the order of the [range] over the map; [peers id] and
    [sched id] are the peers and the schedule that the shards of issuer
    [id] meet.  Returns the outcome, the events and the local variable
    [result]. *)
Fixpoint tickIssuers (cu : crlUpdater) (peers : Z -> Z -> Peers) (sched : Z -> list nat)
    (atTime : time.Time) (order : list (Z * Certificate)) (result : string)
    : outcome * list tickEvent * string :=
  match order with
  | [] => (Returned None, [], result)
  | (id, iss) :: order =>
      let '(out, events) :=
        tickIssuer crl_Id sha256_Sum256 cu (peers id) (sched id) atTime id in
      match out with
      | Returned None =>
          let '(out, tr, result) := tickIssuers cu peers sched atTime order result in
          (out, Tick_tickIssuer id events :: tr, result)
      | Returned (Some err) =>
          let '(out, tr, result) := tickIssuers cu peers sched atTime order "failed" in
          (out,
           Tick_tickIssuer id events
           :: Tick_AuditErrf "tick for issuer %s at time %s failed: %s"
                [ArgString (CommonName iss);
                 ArgString (Format_RFC3339Nano atTime);
                 ArgError err]
           :: tr,
           result)
      | Panicked => (Panicked, [Tick_tickIssuer id events], result)
      | Blocked => (Blocked, [Tick_tickIssuer id events], result)
      end
  end.

(** [Tick], for [order] an enumeration of [cu.issuers].  The deferred
    function runs when the loop ends and when [tickIssuer] panics in
    this goroutine, on a negative [numShards]; a panic in a worker ends
    the process, and a blocked [tickIssuer] never returns. *)
Definition Tick (cu : crlUpdater) (peers : Z -> Z -> Peers) (sched : Z -> list nat)
    (atTime : time.Time) (order : list (Z * Certificate)) : outcome * list tickEvent :=
  let '(out, tr, result) := tickIssuers cu peers sched atTime order "success" in
  let tr := Tick_Debugf "Ticking at time %s" [ArgTime atTime] :: tr in
  match out with
  | Returned _ => (out, tr ++ [Tick_Observe "all" result])
  | Panicked =>
      if numShards cu <? 0 then (Panicked, tr ++ [Tick_Observe "all" result])
      else (Panicked, tr)
  | Blocked => (Blocked, tr)
  end.

(** The issuers that failed, in the order of the loop, each with its
    error. *)
Definition failures (cu : crlUpdater) (peers : Z -> Z -> Peers) (sched : Z -> list nat)
    (atTime : time.Time) (order : list (Z * Certificate)) : list (Certificate * error) :=
  flat_map (fun entry : Z * Certificate =>
              match fst (tickIssuer crl_Id sha256_Sum256 cu (peers (fst entry))
                           (sched (fst entry)) atTime (fst entry)) with
              | Returned (Some err) => [(snd entry, err)]
              | _ => []
              end) order.

End Ticks.

(** The issuers ticked, and the operands of the audit lines. *)
Definition issuersTicked (tr : list tickEvent) : list Z :=
  flat_map (fun e => match e with Tick_tickIssuer id _ => [id] | _ => [] end) tr.

Definition auditLines (tr : list tickEvent) : list (list (fmtArg error)) :=
  flat_map (fun e => match e with Tick_AuditErrf _ args => [args] | _ => [] end) tr.

(** ** More concrete inputs *)

(** An SA stream that breaks after its first entry, and a CA stream that
    breaks after its first chunk. *)
Definition brokenSAPeers : Peers :=
  {| sa_GetRevokedCerts := None;
     saStream_Recv := [RecvMsg {| Serial := "03a1"; Reason := 1;
                                  RevokedAt := 1703980800000000000 |};
                       RecvErr (ErrValue "connection reset")];
     ca_GenerateCRL := None;
     caStream_Send := [];
     caStream_CloseSend := None;
     caStream_Recv := map RecvMsg exampleChunks ++ [RecvEOF];
     cs_UploadCRL := None;
     csStream_Send := [];
     csStream_CloseAndRecv := None |}.

Definition brokenCAPeers : Peers :=
  {| sa_GetRevokedCerts := None;
     saStream_Recv := map RecvMsg exampleEntries ++ [RecvEOF];
     ca_GenerateCRL := None;
     caStream_Send := [];
     caStream_CloseSend := None;
     caStream_Recv := [RecvMsg [x30; x82]; RecvErr (ErrValue "connection reset")];
     cs_UploadCRL := None;
     csStream_Send := [];
     csStream_CloseAndRecv := None |}.

(** A second issuer, and a list of certificates in which two share the
    NameID 7. *)
Definition otherIssuer : Certificate := {| NameID := 9; CommonName := "Other CA" |}.

Definition exampleIssuers : list Certificate :=
  [{| NameID := 7; CommonName := "Old CA" |}; otherIssuer; exampleIssuer].

(** The updater with 2 shards and both issuers; the SA cannot be reached
    for the shards of issuer 9. *)
Definition twoIssuerUpdater : crlUpdater :=
  {| issuers := {[7 := exampleIssuer; 9 := otherIssuer]};
     numShards := 2;
     lookbackPeriod := 4 * time.Hour;
     lookforwardPeriod := 23356800000000000;
     updatePeriod := time.Hour;
     updateOffset := 0;
     maxParallelism := 2 |}.

Definition peersOf (issuerNameID shardIdx : Z) : Peers :=
  if issuerNameID =? 9 then unreachablePeers else examplePeers.

(** A rendering of instants for the audit lines. *)
Definition exampleFormat (t : time.Time) : string :=
  if t =? exampleTime then "2024-01-01T00:00:00Z" else "another instant".

(** The updater with 2 shards and a single worker. *)
Definition serialUpdater : crlUpdater :=
  {| issuers := {[7 := exampleIssuer]};
     numShards := 2;
     lookbackPeriod := 4 * time.Hour;
     lookforwardPeriod := 23356800000000000;
     updatePeriod := time.Hour;
     updateOffset := 0;
     maxParallelism := 1 |}.

(** An interleaving for 2 shards and 2 workers: both workers are
    started, both indices sent and the channel closed; worker 0 takes
    shard 0 and worker 1 shard 1; worker 1 finishes first; then
    [tickIssuer] receives the two results and returns. *)
Definition exampleSchedule : list pool.action :=
  [pool.Main; pool.Main; pool.Main; pool.Main; pool.Main; pool.Main;
   pool.Worker 0; pool.Worker 1; pool.Worker 1; pool.Worker 1;
   pool.Worker 0; pool.Worker 0;
   pool.Main; pool.Main; pool.Main].

(** An interleaving for 2 shards and a single worker, which is slow to
    start: it takes shard 0 once the channel is closed and has sent both
    results when the schedule ends. *)
Definition serialSchedule : list pool.action :=
  [pool.Main; pool.Main; pool.Main; pool.Main; pool.Main;
   pool.Worker 0; pool.Worker 0; pool.Worker 0;
   pool.Main;
   pool.Worker 0; pool.Worker 0; pool.Worker 0].

(** Closed arithmetic facts, by evaluation. *)
Ltac evaluated := vm_compute; repeat split; first [reflexivity | discriminate].

(** * Properties *)

(** ** Arithmetic of 64-bit integers *)

Lemma wrap64_small (z : Z) : inInt64 z -> wrap64 z = z.
Proof.
  unfold inInt64, minInt64, maxInt64, wrap64. intros Hz.
  rewrite Z.mod_small; lia.
Qed.

Lemma wrap64_range (z : Z) : inInt64 (wrap64 z).
Proof.
  unfold inInt64, minInt64, maxInt64, wrap64.
  pose proof (Z.mod_pos_bound (z + 2 ^ 63) (2 ^ 64)). lia.
Qed.

Lemma quot64_nonneg (a b : Z) : 0 <= a <= maxInt64 -> 0 < b -> quot64 a b = a / b.
Proof.
  intros Ha Hb. unfold quot64. rewrite Z.quot_div_nonneg by lia.
  apply wrap64_small. unfold inInt64, minInt64, maxInt64 in *.
  pose proof (Z.div_pos a b). pose proof (Z.div_le_upper_bound a b a).
  split; [lia|]. transitivity a; [|lia]. apply Z.div_le_upper_bound; nia.
Qed.

Lemma rem64_nonneg (a b : Z) : 0 <= a <= maxInt64 -> 0 < b -> rem64 a b = a mod b.
Proof.
  intros Ha Hb. unfold rem64. rewrite Z.rem_mod_nonneg by lia.
  apply wrap64_small. unfold inInt64, minInt64, maxInt64 in *.
  pose proof (Z.mod_pos_bound a b Hb). pose proof (Z.mod_le a b). lia.
Qed.

(** ** Arithmetic of instants *)

(** [Add] is the sum as long as the sum is an instant a Time can hold. *)
Lemma Add_exact (t : time.Time) (d : time.Duration) :
  time.minTime <= t + d <= time.maxTime -> time.Add t d = t + d.
Proof.
  unfold time.minTime, time.maxTime, time.Add, minInt64, maxInt64.
  change time.Second with 1000000000. intros Hsum.
  pose proof (Z.div_mod t 1000000000 ltac:(lia)) as Ht.
  pose proof (Z.mod_pos_bound t 1000000000 ltac:(lia)) as Hnsec.
  pose proof (Z.quot_rem' d 1000000000) as Hd.
  pose proof (Z.rem_bound_abs d 1000000000 ltac:(lia)) as Hrem.
  set (sec := t / 1000000000) in *. set (nsec := t mod 1000000000) in *.
  set (dsec := Z.quot d 1000000000) in *. set (dnsec := Z.rem d 1000000000) in *.
  assert (Hexact : forall carry,
            - 2 ^ 63 <= sec + carry <= 2 ^ 63 - 1 ->
            (if Bool.eqb (sec <? wrap64 (sec + carry)) (0 <? carry)
             then wrap64 (sec + carry)
             else if 0 <? carry then 2 ^ 63 - 1 else - (2 ^ 63 - 1))
            = sec + carry).
  { intros carry Hcarry.
    rewrite wrap64_small by (unfold inInt64, minInt64, maxInt64; lia).
    destruct (Z.ltb_spec sec (sec + carry)); destruct (Z.ltb_spec 0 carry);
      cbn; lia. }
  destruct (Z.leb_spec 1000000000 (nsec + dnsec)) as [Hcarry|Hcarry].
  - rewrite Hexact by lia. lia.
  - destruct (Z.ltb_spec (nsec + dnsec) 0) as [Hborrow|Hborrow].
    + rewrite Hexact by lia. lia.
    + rewrite Hexact by lia. lia.
Qed.

(** The durations that [getShardBoundaries] adds are int64 values. *)
Lemma shard_durations (cu : crlUpdater) (atTime : time.Time) (shardIdx : Z) :
  inInt64 (neg64 (atTimeOffset cu atTime))
  /\ inInt64 (shardOffset cu shardIdx)
  /\ inInt64 (shardWidth cu)
  /\ inInt64 (neg64 (lookbackPeriod cu))
  /\ inInt64 (windowWidth cu).
Proof. repeat split; apply wrap64_range. Qed.

(** [getShardBoundaries] with sums for its [Add]s, away from the ends of
    the range of Time. *)
Lemma getShardBoundaries_sums (cu : crlUpdater) (atTime : time.Time) (shardIdx : Z) :
  time.awayFromEnds atTime ->
  zeroStart cu atTime = atTime + neg64 (atTimeOffset cu atTime)
  /\ anchoredShard cu atTime shardIdx
     = (zeroStart cu atTime + shardOffset cu shardIdx,
        zeroStart cu atTime + shardOffset cu shardIdx + shardWidth cu)
  /\ getShardBoundaries cu atTime shardIdx
     = if numShards cu =? 0 then None
       else if windowWidth cu =? 0 then None
       else
         let shardStart := zeroStart cu atTime + shardOffset cu shardIdx in
         let shardEnd := shardStart + shardWidth cu in
         if shardEnd <? atTime + neg64 (lookbackPeriod cu) then
           Some (shardStart + windowWidth cu, shardEnd + windowWidth cu)
         else
           Some (shardStart, shardEnd).
Proof.
  intros Haway.
  destruct (shard_durations cu atTime shardIdx) as (Hoff & Hso & Hsw & HL & HW).
  unfold time.awayFromEnds, time.minTime, time.maxTime, inInt64, minInt64, maxInt64 in *.
  change time.Second with 1000000000 in *.
  assert (Hzero : zeroStart cu atTime = atTime + neg64 (atTimeOffset cu atTime)).
  { unfold zeroStart. apply Add_exact.
    unfold time.minTime, time.maxTime, minInt64, maxInt64.
    change time.Second with 1000000000. lia. }
  assert (Hanchor : anchoredShard cu atTime shardIdx
                    = (zeroStart cu atTime + shardOffset cu shardIdx,
                       zeroStart cu atTime + shardOffset cu shardIdx + shardWidth cu)).
  { unfold anchoredShard. cbv zeta.
    rewrite (Add_exact (zeroStart cu atTime) (shardOffset cu shardIdx)).
    - rewrite Add_exact; [reflexivity|].
      unfold time.minTime, time.maxTime, minInt64, maxInt64.
      change time.Second with 1000000000. lia.
    - unfold time.minTime, time.maxTime, minInt64, maxInt64.
      change time.Second with 1000000000. lia. }
  split; [exact Hzero|]. split; [exact Hanchor|].
  unfold getShardBoundaries. rewrite Hanchor. unfold time.Before. cbv zeta.
  rewrite !Add_exact
    by (unfold time.minTime, time.maxTime, minInt64, maxInt64;
        change time.Second with 1000000000; lia).
  reflexivity.
Qed.


(** ** NewUpdater *)

(** C7.  [NewUpdater] returns an error exactly when [numShards < 1], or
    [updatePeriod >= 168h], or [updateOffset >= updatePeriod]: a period of
    7 x 24h is refused whatever the other arguments; a period of
    7 x 24h - 1ns is refused only for one of the two other reasons, and
    accepted with one shard and no offset; an offset equal to the period
    is refused; [maxParallelism] is never a reason to refuse, and a value
    of 0 or less is stored as 1. *)
Theorem NewUpdater_validation (issuerCerts : list Certificate)
    (shards : Z) (lifetime period offset : time.Duration)
    (parallelism : Z) :
  (isError (NewUpdater issuerCerts shards lifetime period offset
              parallelism) = true
   <-> shards < 1 \/ 168 * time.Hour <= period \/ period <= offset)
  /\ isError (NewUpdater issuerCerts shards lifetime (7 * 24 * time.Hour)
                offset parallelism) = true
  /\ isError (NewUpdater issuerCerts shards lifetime
                (7 * 24 * time.Hour - time.Nanosecond) offset parallelism)
     = (shards <? 1) || (7 * 24 * time.Hour - time.Nanosecond <=? offset)
  /\ isError (NewUpdater issuerCerts 1 lifetime
                (7 * 24 * time.Hour - time.Nanosecond) 0 parallelism) = false
  /\ isError (NewUpdater issuerCerts shards lifetime period period
                parallelism) = true
  /\ match NewUpdater issuerCerts shards lifetime period offset
             parallelism with
     | inr cu => maxParallelism cu = if parallelism <=? 0 then 1 else parallelism
     | inl _ => True
     end.
Proof.
  unfold NewUpdater, time.Hour, time.Second, time.Nanosecond.
  repeat split.
  - destruct (Z.ltb_spec shards 1); [lia|].
    destruct (Z.leb_spec (7 * 24 * (3600 * 1000000000)) period); [lia|].
    destruct (Z.leb_spec period offset); [lia|].
    cbn. discriminate.
  - intros Hbad.
    destruct (Z.ltb_spec shards 1); [reflexivity|].
    destruct (Z.leb_spec (7 * 24 * (3600 * 1000000000)) period); [reflexivity|].
    destruct (Z.leb_spec period offset); [reflexivity|].
    lia.
  - destruct (Z.ltb_spec shards 1); [reflexivity|].
    destruct (Z.leb_spec (7 * 24 * (3600 * 1000000000)) (7 * 24 * (3600 * 1000000000)));
      [reflexivity | lia].
  - destruct (Z.ltb_spec shards 1); [reflexivity|].
    destruct (Z.leb_spec (7 * 24 * (3600 * 1000000000)) (7 * 24 * (3600 * 1000000000) - 1));
      [lia|].
    destruct (Z.leb_spec (7 * 24 * (3600 * 1000000000) - 1) offset); reflexivity.
  - destruct (Z.ltb_spec shards 1); [reflexivity|].
    destruct (Z.leb_spec (7 * 24 * (3600 * 1000000000)) period); [reflexivity|].
    rewrite Z.leb_refl. reflexivity.
  - destruct (shards <? 1); [exact I|].
    destruct (7 * 24 * (3600 * 1000000000) <=? period); [exact I|].
    destruct (period <=? offset); [exact I|].
    reflexivity.
Qed.

(** What [NewUpdater] stores for a valid configuration when no
    operation wraps. *)
Lemma NewUpdater_padded (issuerCerts : list Certificate)
    (shards : Z) (lifetime period offset : time.Duration) (parallelism : Z) :
  validConfig shards lifetime period offset ->
  noOverflow shards lifetime period ->
  exists cu,
    NewUpdater issuerCerts shards lifetime period offset parallelism = inr cu
    /\ numShards cu = shards
    /\ lookbackPeriod cu = 4 * period
    /\ 0 < lookbackPeriod cu
    /\ 0 < lookforwardPeriod cu
    /\ windowWidth cu = lookbackPeriod cu + lookforwardPeriod cu
    /\ exactWindow shards lifetime period <= windowWidth cu
       < exactWindow shards lifetime period + shards
    /\ windowWidth cu mod shards = 0
    /\ windowWidth cu = paddedWindow shards lifetime period.
Proof.
  unfold validConfig, noOverflow, paddedWindow, exactWindow.
  intros (Hn & Hcl & Hup & Hoff) Hfit. cbv zeta in Hfit.
  assert (H7 : 7 * 24 * time.Hour = 604800000000000) by reflexivity.
  rewrite H7 in Hup.
  assert (Hq : 0 <= (4 * period + lifetime) / shards) by (apply Z.div_pos; lia).
  unfold NewUpdater. rewrite H7.
  destruct (Z.ltb_spec shards 1); [lia|].
  destruct (Z.leb_spec 604800000000000 period); [lia|].
  destruct (Z.leb_spec period offset); [lia|].
  set (t := (4 * period + lifetime) / shards) in *.
  set (w := 4 * period + lifetime + 4 * t) in *.
  pose proof (Z.mod_pos_bound w shards ltac:(lia)) as Hm.
  pose proof (Z.div_mod w shards ltac:(lia)) as Hdm.
  assert (Hw : w <= maxInt64) by (destruct (w mod shards =? 0); lia).
  assert (HL : mul64 4 period = 4 * period).
  { apply wrap64_small. unfold inInt64, minInt64, maxInt64. lia. }
  rewrite HL.
  assert (HLc : add64 (4 * period) lifetime = 4 * period + lifetime).
  { apply wrap64_small. unfold inInt64, minInt64, maxInt64 in *. lia. }
  rewrite HLc.
  rewrite quot64_nonneg by (unfold maxInt64 in *; lia).
  fold t.
  assert (H4t : mul64 4 t = 4 * t).
  { apply wrap64_small. unfold inInt64, minInt64, maxInt64 in *. lia. }
  rewrite H4t.
  assert (HF : add64 lifetime (4 * t) = lifetime + 4 * t).
  { apply wrap64_small. unfold inInt64, minInt64, maxInt64 in *. lia. }
  rewrite HF.
  assert (HW : add64 (4 * period) (lifetime + 4 * t) = w).
  { unfold add64. rewrite wrap64_small; [lia|].
    unfold inInt64, minInt64, maxInt64 in *. lia. }
  rewrite HW.
  rewrite rem64_nonneg by (unfold maxInt64 in *; lia).
  destruct (Z.eqb_spec (w mod shards) 0) as [Hz|Hz]; cbn [negb].
  - eexists. split; [reflexivity|]. cbn [numShards lookbackPeriod lookforwardPeriod].
    unfold windowWidth. cbn [lookbackPeriod lookforwardPeriod].
    rewrite HW. repeat split; try lia.
  - assert (Hs : sub64 shards (w mod shards) = shards - w mod shards).
    { apply wrap64_small. unfold inInt64, minInt64, maxInt64 in *. lia. }
    rewrite Hs.
    assert (HF' : add64 (lifetime + 4 * t) (shards - w mod shards)
                  = lifetime + 4 * t + (shards - w mod shards)).
    { apply wrap64_small. unfold inInt64, minInt64, maxInt64 in *. lia. }
    rewrite HF'.
    eexists. split; [reflexivity|]. cbn [numShards lookbackPeriod lookforwardPeriod].
    unfold windowWidth. cbn [lookbackPeriod lookforwardPeriod].
    assert (HW' : add64 (4 * period) (lifetime + 4 * t + (shards - w mod shards))
                  = w + shards - w mod shards).
    { unfold add64. rewrite wrap64_small; [lia|].
      unfold inInt64, minInt64, maxInt64 in *. lia. }
    rewrite HW'. repeat split; try lia.
    replace (w + shards - w mod shards) with (w / shards * shards + 1 * shards) by lia.
    rewrite Z.mod_add by lia. apply Z.mod_mul. lia.
Qed.

Lemma windowFits_noOverflow (shards : Z) (lifetime period : time.Duration) :
  0 < shards -> windowFits shards lifetime period -> noOverflow shards lifetime period.
Proof.
  unfold windowFits, noOverflow, paddedWindow. intros Hn Hfit. cbv zeta.
  pose proof (Z.mod_pos_bound (exactWindow shards lifetime period) shards Hn).
  destruct (_ =? 0); lia.
Qed.

(** The same when the window fits with numShards to spare. *)
Lemma NewUpdater_exact (issuerCerts : list Certificate)
    (shards : Z) (lifetime period offset : time.Duration) (parallelism : Z) :
  validConfig shards lifetime period offset ->
  windowFits shards lifetime period ->
  exists cu,
    NewUpdater issuerCerts shards lifetime period offset parallelism = inr cu
    /\ numShards cu = shards
    /\ lookbackPeriod cu = 4 * period
    /\ 0 < lookbackPeriod cu
    /\ 0 < lookforwardPeriod cu
    /\ windowWidth cu = lookbackPeriod cu + lookforwardPeriod cu
    /\ exactWindow shards lifetime period <= windowWidth cu
       < exactWindow shards lifetime period + shards
    /\ windowWidth cu mod shards = 0.
Proof.
  intros Hv Hfit.
  assert (Hn : 0 < shards) by (unfold validConfig in Hv; lia).
  destruct (NewUpdater_padded issuerCerts shards lifetime period offset parallelism Hv
              (windowFits_noOverflow shards lifetime period Hn Hfit))
    as (cu & Hcu & Hshards & HL & HLpos & HFpos & HW & Hbound & Hmod & _).
  exists cu. repeat split; first [assumption | lia].
Qed.

(** The interval returned has the width of one shard, away from the
    ends of the range of Time. *)
Lemma getShardBoundaries_width (cu : crlUpdater) (atTime : time.Time) (shardIdx : Z) :
  numShards cu <> 0 -> windowWidth cu <> 0 -> time.awayFromEnds atTime ->
  exists shardStart shardEnd,
    getShardBoundaries cu atTime shardIdx = Some (shardStart, shardEnd)
    /\ shardEnd - shardStart = shardWidth cu.
Proof.
  intros Hn Hw Haway.
  destruct (getShardBoundaries_sums cu atTime shardIdx Haway) as (_ & _ & ->).
  destruct (Z.eqb_spec (numShards cu) 0); [contradiction|].
  destruct (Z.eqb_spec (windowWidth cu) 0); [contradiction|].
  cbv zeta.
  match goal with |- context [if ?b then _ else _] => destruct b end;
    eexists; eexists; (split; [reflexivity | lia]).
Qed.

(** C4, as amended.  For a valid configuration in which no operation of
    [NewUpdater] wraps, that is whose window, once padded to a multiple
    of numShards, is at most 2^63 - 1 ns, [NewUpdater] makes
    lookbackPeriod + lookforwardPeriod an exact multiple of numShards, so
    that shardWidth x numShards = windowWidth; and for every shardIdx and
    every atTime at least 2^65 ns from both ends of the range of Time,
    where no [Add] saturates, [getShardBoundaries] returns an interval of
    exactly windowWidth / numShards nanoseconds. *)
Theorem shard_width_exact (issuerCerts : list Certificate)
    (shards : Z) (lifetime period offset : time.Duration) (parallelism : Z) :
  validConfig shards lifetime period offset ->
  noOverflow shards lifetime period ->
  exists cu,
    NewUpdater issuerCerts shards lifetime period offset parallelism = inr cu
    /\ (lookbackPeriod cu + lookforwardPeriod cu) mod numShards cu = 0
    /\ windowWidth cu = lookbackPeriod cu + lookforwardPeriod cu
    /\ shardWidth cu * numShards cu = windowWidth cu
    /\ forall (atTime : time.Time) (shardIdx : Z),
         time.awayFromEnds atTime ->
         exists shardStart shardEnd,
           getShardBoundaries cu atTime shardIdx = Some (shardStart, shardEnd)
           /\ shardEnd - shardStart = windowWidth cu / numShards cu.
Proof.
  intros Hv Hfit.
  destruct (NewUpdater_padded issuerCerts shards lifetime period offset parallelism Hv Hfit)
    as (cu & Hcu & Hn & HL & HLpos & HFpos & HW & Hbound & Hmod & Hpad).
  assert (Hpos : 0 < shards) by (unfold validConfig in Hv; lia).
  assert (Hfits : 0 <= windowWidth cu <= maxInt64).
  { unfold noOverflow in Hfit. lia. }
  assert (Hsw : shardWidth cu = windowWidth cu / shards).
  { unfold shardWidth. rewrite Hn. apply quot64_nonneg; lia. }
  exists cu. rewrite Hn. repeat split.
  - exact Hcu.
  - rewrite <- HW. exact Hmod.
  - exact HW.
  - rewrite Hsw. pose proof (Z.div_mod (windowWidth cu) shards ltac:(lia)). lia.
  - intros atTime shardIdx Haway.
    destruct (getShardBoundaries_width cu atTime shardIdx) as (s & e & Hb & Hwd).
    + lia.
    + lia.
    + exact Haway.
    + exists s, e. split; [exact Hb | lia].
Qed.

(** At a configuration whose padded window is 2^63 - 2 ns: 2 shards,
    hourly updates and a certificate lifetime of about 97 years. *)
Lemma shard_width_exact_witness :
  exists cu,
    NewUpdater [] 2 3074442945618258602 time.Hour 0 1 = inr cu
    /\ (lookbackPeriod cu + lookforwardPeriod cu) mod numShards cu = 0
    /\ windowWidth cu = lookbackPeriod cu + lookforwardPeriod cu
    /\ shardWidth cu * numShards cu = windowWidth cu
    /\ forall (atTime : time.Time) (shardIdx : Z),
         time.awayFromEnds atTime ->
         exists shardStart shardEnd,
           getShardBoundaries cu atTime shardIdx = Some (shardStart, shardEnd)
           /\ shardEnd - shardStart = windowWidth cu / numShards cu.
Proof.
  apply (shard_width_exact [] 2 3074442945618258602 time.Hour 0 1).
  - unfold validConfig, maxInt64, time.Hour, time.Second. lia.
  - unfold noOverflow, maxInt64. vm_compute. discriminate.
Defined.

(** C4 as stated fails once the window no longer fits in an int64: with
    3 shards, hourly updates and a certificate lifetime of about 125
    years the configuration is accepted, lookforwardPeriod itself fits,
    but lookbackPeriod + lookforwardPeriod wraps to a window that is no
    multiple of 3, and 3 shard widths are not the window. *)
Lemma shard_width_overflow :
  validConfig 3 3952859330080618203 time.Hour 0
  /\ exists cu,
       NewUpdater [] 3 3952859330080618203 time.Hour 0 1 = inr cu
       /\ lookbackPeriod cu = 14400000000000
       /\ lookforwardPeriod cu = 9223357636854775809
       /\ windowWidth cu = -9223372036854775807
       /\ Z.rem (windowWidth cu) (numShards cu) = -1
       /\ shardWidth cu * numShards cu = -9223372036854775806
       /\ shardWidth cu * numShards cu <> windowWidth cu.
Proof.
  split.
  - unfold validConfig, maxInt64, time.Hour, time.Second. lia.
  - eexists. split; [reflexivity|]. vm_compute. repeat split. discriminate.
Qed.

(** Nor does it hold at the end of the range of Time: at the last
    instant a Time can hold, with the configuration of scenario 1, the
    [Add]s saturate and the interval of shard 0 is empty. *)
Lemma shard_width_at_the_last_instant :
  exists cu instant,
    NewUpdater [] 10 (90 * 24 * time.Hour) time.Hour 0 1 = inr cu
    /\ windowWidth cu / numShards cu = 1090656000000000
    /\ getShardBoundaries cu time.maxTime 0 = Some (instant, instant).
Proof.
  do 2 eexists. split; [reflexivity|]. split; vm_compute; reflexivity.
Qed.

(** ** getShardBoundaries and the chunk grid *)

(** From 2^63 - 1 ns after the zero Time on (in year 293), [Sub]
    saturates and the offset no longer depends on atTime. *)
Lemma atTimeOffset_saturated (cu : crlUpdater) (atTime : time.Time) :
  time.maxDuration <= atTime ->
  atTimeOffset cu atTime = rem64 time.maxDuration (windowWidth cu).
Proof.
  intros Ht. unfold atTimeOffset, time.Sub, time.Zero. rewrite Z.sub_0_r.
  destruct (Z.ltb_spec atTime time.minDuration) as [Hlt|_].
  - unfold time.maxDuration, time.minDuration, minInt64, maxInt64 in *. lia.
  - destruct (Z.ltb_spec time.maxDuration atTime) as [_|Hle]; [reflexivity|].
    replace atTime with time.maxDuration by lia. reflexivity.
Qed.

(** X7.  From 2^63 - 1 ns after the zero Time on, and as far as 2^65 ns
    from the end of the range of Time, the boundaries move with atTime,
    nanosecond for nanosecond. *)
Lemma getShardBoundaries_saturated (cu : crlUpdater) (atTime : time.Time)
    (d : time.Duration) (shardIdx : Z) :
  time.maxDuration <= atTime -> 0 <= d <= time.maxDuration ->
  time.awayFromEnds (atTime + d) ->
  getShardBoundaries cu (time.Add atTime d) shardIdx
  = option_map (fun b => (time.Add (fst b) d, time.Add (snd b) d))
      (getShardBoundaries cu atTime shardIdx).
Proof.
  intros Ht Hd Haway.
  assert (Haway0 : time.awayFromEnds atTime).
  { unfold time.awayFromEnds, time.minTime, time.maxTime, time.maxDuration,
      minInt64, maxInt64 in *.
    change time.Second with 1000000000 in *. lia. }
  assert (Hsum : time.Add atTime d = atTime + d).
  { apply Add_exact.
    unfold time.awayFromEnds, time.minTime, time.maxTime in *. lia. }
  rewrite Hsum.
  destruct (getShardBoundaries_sums cu (atTime + d) shardIdx Haway) as (Hz & _ & ->).
  destruct (getShardBoundaries_sums cu atTime shardIdx Haway0) as (Hz0 & _ & ->).
  rewrite Hz, Hz0.
  rewrite !atTimeOffset_saturated by lia.
  destruct (shard_durations cu atTime shardIdx) as (_ & Hso & Hsw & HL & HW).
  assert (Hc : inInt64 (neg64 (rem64 time.maxDuration (windowWidth cu))))
    by apply wrap64_range.
  destruct (numShards cu =? 0); [reflexivity|].
  destruct (windowWidth cu =? 0); [reflexivity|].
  cbv zeta.
  set (c := neg64 (rem64 time.maxDuration (windowWidth cu))) in *.
  unfold time.awayFromEnds, time.minTime, time.maxTime, time.maxDuration,
    inInt64, minInt64, maxInt64 in *.
  change time.Second with 1000000000 in *.
  destruct (Z.ltb_spec (atTime + d + c + shardOffset cu shardIdx + shardWidth cu)
              (atTime + d + neg64 (lookbackPeriod cu)));
    destruct (Z.ltb_spec (atTime + c + shardOffset cu shardIdx + shardWidth cu)
                (atTime + neg64 (lookbackPeriod cu)));
    try lia; cbn [option_map fst snd];
    rewrite !Add_exact
      by (unfold time.minTime, time.maxTime, minInt64, maxInt64;
          change time.Second with 1000000000; lia);
    do 2 f_equal; lia.
Qed.

(** C1 at a present-day instant.  With the configuration of scenario 1
    (10 shards, hourly updates, 90-day certificates), at
    2024-01-01T00:00:00Z and one nanosecond later the leftmost chunk of
    index 0 on the grid is the same one, yet the boundaries returned
    differ by one nanosecond, which is no multiple of windowWidth. *)
Theorem shard_boundaries_drift_2024 :
  let atTime1 := time.Unix 1704067200 0 in
  let atTime2 := time.Add atTime1 time.Nanosecond in
  exists cu,
    NewUpdater [] 10 (90 * 24 * time.Hour) time.Hour 0 1 = inr cu
    /\ windowWidth cu = 10906560000000000
    /\ documentedShard cu atTime1 0 = documentedShard cu atTime2 0
    /\ getShardBoundaries cu atTime1 0
       = Some (63843241723145224193, 63844332379145224193)
    /\ getShardBoundaries cu atTime2 0
       = Some (63843241723145224194, 63844332379145224194)
    /\ ~ (windowWidth cu | 63843241723145224194 - 63843241723145224193).
Proof.
  eexists. split; [reflexivity|].
  split; [reflexivity|]. split; [reflexivity|].
  split; [vm_compute; reflexivity|]. split; [vm_compute; reflexivity|].
  intros [k Hk].
  match type of Hk with
  | _ = _ * ?w => let v := eval vm_compute in w in change w with v in Hk
  end.
  lia.
Qed.

(** C3 at the same instant.  The anchor is atTime minus
    (2^63 - 1) mod windowWidth, not atTime minus atTime_ns mod
    windowWidth: it is no edge of a window-sized epoch counted from the
    zero Time, and the chunk of index 0 computed from it is not the one
    that starts at the epoch's edge. *)
Theorem zeroStart_saturated_2024 :
  let atTime := time.Unix 1704067200 0 in
  exists cu,
    NewUpdater [] 10 (90 * 24 * time.Hour) time.Hour 0 1 = inr cu
    /\ atTime = 63839664000000000000
    /\ atTime mod windowWidth cu = 3568320000000000
    /\ atTimeOffset cu atTime = 7328836854775807
    /\ zeroStart cu atTime = 63832335163145224193
    /\ atTime - atTime mod windowWidth cu = 63836095680000000000
    /\ zeroStart cu atTime <> atTime - atTime mod windowWidth cu
    /\ zeroStart cu atTime mod windowWidth cu = 7146043145224193
    /\ anchoredShard cu atTime 0 = (63832335163145224193, 63833425819145224193).
Proof.
  eexists. split; [reflexivity|]. vm_compute. repeat split. discriminate.
Qed.

(** The grid's leftmost chunk does what the documentation asks: it
    overlaps the window and the instance one epoch earlier ends at or
    before the window's left edge. *)
Lemma documentedShard_leftmost (cu : crlUpdater) (atTime : time.Time) (i : Z) :
  0 < shardWidth cu -> 0 < windowWidth cu ->
  windowWidth cu = lookbackPeriod cu + lookforwardPeriod cu ->
  overlapsWindow cu atTime (documentedShard cu atTime i) = true
  /\ snd (documentedShard cu atTime i) - windowWidth cu <= atTime - lookbackPeriod cu.
Proof.
  intros Hsw Hw HW.
  unfold overlapsWindow, documentedShard, chunkInstance, documentedEpoch. cbn [fst snd].
  set (x := atTime - lookbackPeriod cu - (i + 1) * shardWidth cu).
  pose proof (Z.div_mod x (windowWidth cu) ltac:(lia)) as Hdm.
  pose proof (Z.mod_pos_bound x (windowWidth cu) Hw) as Hm.
  split.
  - apply andb_true_intro. split; apply Z.ltb_lt; nia.
  - nia.
Qed.

(** C2 at a present-day instant.  With 512 shards, updates every 6 hours
    and 90-day certificates, at 2024-01-01T00:00:00Z the interval
    returned for shard 511 starts after the right edge of the window: the
    two do not meet.  The same happens one window width after the zero
    Time, where [Sub] does not saturate and the grid's leftmost chunk, one
    epoch earlier, does overlap the window. *)
Theorem shard_outside_window_2024 :
  let atTime := time.Unix 1704067200 0 in
  exists cu,
    NewUpdater [] 512 (90 * 24 * time.Hour) (6 * time.Hour) 0 1 = inr cu
    /\ atTime - lookbackPeriod cu = 63839577600000000000
    /\ atTime + lookforwardPeriod cu = 63847501425000000000
    /\ getShardBoundaries cu atTime 511
       = Some (63847532611924521068, 63847548088145224193)
    /\ overlapsWindow cu atTime (63847532611924521068, 63847548088145224193) = false
    /\ windowWidth cu = 7923825000000000
    /\ windowWidth cu + lookforwardPeriod cu = 15761250000000000
    /\ getShardBoundaries cu (time.Add time.Zero (windowWidth cu)) 511
       = Some (15832173779296875, 15847650000000000)
    /\ overlapsWindow cu (time.Add time.Zero (windowWidth cu))
         (15832173779296875, 15847650000000000) = false
    /\ documentedShard cu (time.Add time.Zero (windowWidth cu)) 511
       = (7908348779296875, 7923825000000000).
Proof.
  eexists. split; [reflexivity|]. vm_compute. repeat split.
Qed.

(** C5 at a present-day instant.  Same configuration and instant: the
    interval returned for shard 511 starts after the left edge of the
    window, and so does the instance one window width earlier, which
    overlaps the window; the interval returned is not the leftmost one.
    Likewise for shard 9 of scenario 1 one window width after the zero
    Time, where [Sub] does not saturate: the grid's leftmost chunk is the
    one of the epoch before. *)
Theorem shard_not_leftmost_2024 :
  let atTime := time.Unix 1704067200 0 in
  exists cu cu10,
    NewUpdater [] 512 (90 * 24 * time.Hour) (6 * time.Hour) 0 1 = inr cu
    /\ atTime - lookbackPeriod cu = 63839577600000000000
    /\ getShardBoundaries cu atTime 511
       = Some (63847532611924521068, 63847548088145224193)
    /\ 63847548088145224193 - windowWidth cu = 63839624263145224193
    /\ overlapsWindow cu atTime
         (63847532611924521068 - windowWidth cu, 63847548088145224193 - windowWidth cu)
       = true
    /\ NewUpdater [] 10 (90 * 24 * time.Hour) time.Hour 0 1 = inr cu10
    /\ windowWidth cu10 = 10906560000000000
    /\ windowWidth cu10 - lookbackPeriod cu10 = 10892160000000000
    /\ getShardBoundaries cu10 (time.Add time.Zero (windowWidth cu10)) 9
       = Some (20722464000000000, 21813120000000000)
    /\ documentedShard cu10 (time.Add time.Zero (windowWidth cu10)) 9
       = (9815904000000000, 10906560000000000).
Proof.
  eexists. eexists. split; [reflexivity|].
  do 4 (split; [vm_compute; reflexivity|]).
  split; [reflexivity|]. vm_compute. repeat split.
Qed.

(** ** Where getShardBoundaries follows the grid *)

Lemma NewUpdater_wellFormed (issuerCerts : list Certificate)
    (shards : Z) (lifetime period offset : time.Duration) (parallelism : Z) :
  validConfig shards lifetime period offset ->
  windowFits shards lifetime period ->
  exists cu,
    NewUpdater issuerCerts shards lifetime period offset parallelism = inr cu
    /\ wellFormed cu.
Proof.
  intros Hv Hfit.
  destruct (NewUpdater_exact issuerCerts shards lifetime period offset parallelism Hv Hfit)
    as (cu & Hcu & Hn & HL & HLpos & HFpos & HW & Hbound & Hmod).
  exists cu. split; [exact Hcu|].
  unfold wellFormed, validConfig, windowFits in *. rewrite Hn, <- HW.
  repeat split; first [lia | exact Hmod].
Qed.

Lemma wellFormed_widths (cu : crlUpdater) :
  wellFormed cu ->
  windowWidth cu = lookbackPeriod cu + lookforwardPeriod cu
  /\ 0 < shardWidth cu
  /\ shardWidth cu * numShards cu = windowWidth cu.
Proof.
  intros (Hn & HL & HF & Hmax & Hmod).
  assert (HW : windowWidth cu = lookbackPeriod cu + lookforwardPeriod cu).
  { apply wrap64_small. unfold inInt64, minInt64, maxInt64 in *. lia. }
  assert (Hsw : shardWidth cu = windowWidth cu / numShards cu).
  { unfold shardWidth. apply quot64_nonneg; lia. }
  rewrite <- HW in Hmod.
  pose proof (Z.div_mod (windowWidth cu) (numShards cu) ltac:(lia)) as Hdm.
  split; [exact HW|]. rewrite Hsw. split; [|lia].
  apply Z.div_str_pos. split; [lia|].
  destruct (Z.le_gt_cases (numShards cu) (windowWidth cu)) as [Hle|Hgt]; [exact Hle|].
  rewrite Z.mod_small in Hmod by lia. lia.
Qed.

Lemma shardOffset_exact (cu : crlUpdater) (shardIdx : Z) :
  wellFormed cu -> 0 <= shardIdx < numShards cu ->
  shardOffset cu shardIdx = shardIdx * shardWidth cu.
Proof.
  intros Hwf Hi. destruct (wellFormed_widths cu Hwf) as (HW & Hsw & Hmul).
  destruct Hwf as (Hn & HL & HF & Hmax & Hmod).
  unfold shardOffset, rem64. rewrite Z.rem_small by lia.
  rewrite (wrap64_small shardIdx) by (unfold inInt64, minInt64, maxInt64 in *; nia).
  apply wrap64_small. unfold inInt64, minInt64, maxInt64 in *. nia.
Qed.

(** Up to 2^63 - 1 ns after the zero Time no [Add] of the function
    saturates. *)
Lemma awayFromEnds_early (atTime : time.Time) :
  0 <= atTime <= time.maxDuration -> time.awayFromEnds atTime.
Proof.
  unfold time.awayFromEnds, time.minTime, time.maxTime, time.maxDuration,
    minInt64, maxInt64.
  change time.Second with 1000000000. lia.
Qed.

Lemma atTimeOffset_bounds (cu : crlUpdater) (atTime : time.Time) :
  wellFormed cu -> 0 <= atTime ->
  0 <= atTimeOffset cu atTime < windowWidth cu.
Proof.
  intros Hwf Ht. destruct (wellFormed_widths cu Hwf) as (HW & Hsw & Hmul).
  destruct Hwf as (Hn & HL & HF & Hmax & Hmod).
  unfold atTimeOffset. rewrite rem64_nonneg; [apply Z.mod_pos_bound; lia | | lia].
  unfold time.Sub, time.Zero, time.minDuration, time.maxDuration.
  rewrite Z.sub_0_r.
  destruct (Z.ltb_spec atTime minInt64); [unfold minInt64 in *; lia|].
  destruct (Z.ltb_spec maxInt64 atTime); unfold maxInt64 in *; lia.
Qed.

Lemma atTimeOffset_unsaturated (cu : crlUpdater) (atTime : time.Time) :
  wellFormed cu -> 0 <= atTime <= time.maxDuration ->
  atTimeOffset cu atTime = atTime mod windowWidth cu.
Proof.
  intros Hwf Ht. destruct (wellFormed_widths cu Hwf) as (HW & Hsw & Hmul).
  destruct Hwf as (Hn & HL & HF & Hmax & Hmod).
  unfold atTimeOffset, time.Sub, time.Zero. rewrite Z.sub_0_r.
  unfold time.maxDuration, time.minDuration in *.
  destruct (Z.ltb_spec atTime minInt64); [unfold minInt64 in *; lia|].
  destruct (Z.ltb_spec maxInt64 atTime); [lia|].
  apply rem64_nonneg; lia.
Qed.

(** The anchor, the chunk computed first and the result without their
    64-bit operations and with sums for their [Add]s, where nothing wraps
    and nothing saturates. *)
Lemma zeroStart_exact (cu : crlUpdater) (atTime : time.Time) :
  wellFormed cu -> 0 <= atTime -> time.awayFromEnds atTime ->
  zeroStart cu atTime = atTime - atTimeOffset cu atTime.
Proof.
  intros Hwf Ht Haway.
  pose proof (atTimeOffset_bounds cu atTime Hwf Ht) as Hoff.
  destruct (getShardBoundaries_sums cu atTime 0 Haway) as (-> & _).
  destruct Hwf as (Hn & HL & HF & Hmax & Hmod).
  unfold neg64. rewrite wrap64_small; [lia|].
  unfold windowWidth, add64 in Hoff.
  rewrite wrap64_small in Hoff by (unfold inInt64, minInt64, maxInt64 in *; lia).
  unfold inInt64, minInt64, maxInt64 in *. lia.
Qed.

Lemma anchoredShard_exact (cu : crlUpdater) (atTime : time.Time) (shardIdx : Z) :
  wellFormed cu -> 0 <= atTime -> time.awayFromEnds atTime ->
  0 <= shardIdx < numShards cu ->
  anchoredShard cu atTime shardIdx
  = (atTime - atTimeOffset cu atTime + shardIdx * shardWidth cu,
     atTime - atTimeOffset cu atTime + shardIdx * shardWidth cu + shardWidth cu).
Proof.
  intros Hwf Ht Haway Hi.
  destruct (getShardBoundaries_sums cu atTime shardIdx Haway) as (_ & -> & _).
  rewrite (zeroStart_exact cu atTime Hwf Ht Haway), (shardOffset_exact cu shardIdx Hwf Hi).
  reflexivity.
Qed.

Lemma getShardBoundaries_exact (cu : crlUpdater) (atTime : time.Time) (shardIdx : Z) :
  wellFormed cu -> 0 <= atTime -> time.awayFromEnds atTime ->
  0 <= shardIdx < numShards cu ->
  getShardBoundaries cu atTime shardIdx
  = let shardStart := atTime - atTimeOffset cu atTime + shardIdx * shardWidth cu in
    if shardStart + shardWidth cu <? atTime - lookbackPeriod cu then
      Some (shardStart + windowWidth cu, shardStart + shardWidth cu + windowWidth cu)
    else
      Some (shardStart, shardStart + shardWidth cu).
Proof.
  intros Hwf Ht Haway Hi. destruct (wellFormed_widths cu Hwf) as (HW & Hsw & Hmul).
  destruct (getShardBoundaries_sums cu atTime shardIdx Haway) as (_ & _ & ->).
  rewrite (zeroStart_exact cu atTime Hwf Ht Haway), (shardOffset_exact cu shardIdx Hwf Hi).
  destruct Hwf as (Hn & HL & HF & Hmax & Hmod).
  assert (HnegL : neg64 (lookbackPeriod cu) = - lookbackPeriod cu).
  { apply wrap64_small. unfold inInt64, minInt64, maxInt64 in *. lia. }
  rewrite HnegL.
  destruct (Z.eqb_spec (numShards cu) 0); [lia|].
  destruct (Z.eqb_spec (windowWidth cu) 0); [lia|].
  cbv zeta.
  repeat match goal with
         | |- context [if ?a <? ?b then _ else _] => destruct (Z.ltb_spec a b)
         end; try lia; do 2 f_equal; lia.
Qed.

(** Up to 2^63 - 1 ns after the zero Time the anchor is the left edge of
    the epoch that contains atTime. *)
Lemma zeroStart_unsaturated (cu : crlUpdater) (atTime : time.Time) :
  wellFormed cu -> 0 <= atTime <= time.maxDuration ->
  zeroStart cu atTime = atTime - atTime mod windowWidth cu.
Proof.
  intros Hwf Ht.
  rewrite (zeroStart_exact cu atTime Hwf ltac:(lia) (awayFromEnds_early atTime Ht)).
  rewrite (atTimeOffset_unsaturated cu atTime Hwf Ht). reflexivity.
Qed.

(** There the chunk computed first is the instance of the epoch that
    contains atTime, and the interval returned is that instance or the
    next: the boundaries lie on the grid. *)
Lemma getShardBoundaries_on_grid (cu : crlUpdater) (atTime : time.Time) (shardIdx : Z) :
  wellFormed cu -> 0 <= atTime <= time.maxDuration -> 0 <= shardIdx < numShards cu ->
  anchoredShard cu atTime shardIdx = chunkInstance cu (atTime / windowWidth cu) shardIdx
  /\ (getShardBoundaries cu atTime shardIdx
      = Some (chunkInstance cu (atTime / windowWidth cu) shardIdx)
      \/ getShardBoundaries cu atTime shardIdx
         = Some (chunkInstance cu (atTime / windowWidth cu + 1) shardIdx)).
Proof.
  intros Hwf Ht Hi. destruct (wellFormed_widths cu Hwf) as (HW & Hsw & Hmul).
  pose proof (awayFromEnds_early atTime Ht) as Haway.
  pose proof Hwf as (Hn & HL & HF & Hmax & Hmod).
  rewrite (anchoredShard_exact cu atTime shardIdx Hwf ltac:(lia) Haway Hi).
  rewrite (getShardBoundaries_exact cu atTime shardIdx Hwf ltac:(lia) Haway Hi).
  rewrite (atTimeOffset_unsaturated cu atTime Hwf Ht).
  pose proof (Z.div_mod atTime (windowWidth cu) ltac:(lia)) as Hdm.
  set (k := atTime / windowWidth cu) in *. set (off := atTime mod windowWidth cu) in *.
  unfold chunkInstance. cbv zeta. split; [f_equal; lia|].
  match goal with |- context [if ?b then _ else _] => destruct b end.
  - right. do 2 f_equal; lia.
  - left. do 2 f_equal; lia.
Qed.

(** X9.  Up to 2^63 - 1 ns after the zero Time, when the epoch of atTime
    began no later than the window, the
    interval returned is the grid's leftmost chunk, but for a chunk that
    ends exactly on the window's left edge. *)
Lemma getShardBoundaries_leftmost (cu : crlUpdater) (atTime : time.Time) (shardIdx : Z) :
  wellFormed cu -> 0 <= atTime <= time.maxDuration -> 0 <= shardIdx < numShards cu ->
  lookbackPeriod cu <= atTime mod windowWidth cu ->
  atTime mod windowWidth cu - lookbackPeriod cu <> (shardIdx + 1) * shardWidth cu ->
  getShardBoundaries cu atTime shardIdx = Some (documentedShard cu atTime shardIdx).
Proof.
  intros Hwf Ht Hi Hoff Hedge. destruct (wellFormed_widths cu Hwf) as (HW & Hsw & Hmul).
  rewrite (getShardBoundaries_exact cu atTime shardIdx Hwf ltac:(lia)
             (awayFromEnds_early atTime Ht) Hi).
  rewrite (atTimeOffset_unsaturated cu atTime Hwf Ht). cbv zeta.
  destruct Hwf as (Hn & HL & HF & Hmax & Hmod).
  pose proof (Z.div_mod atTime (windowWidth cu) ltac:(lia)) as Hdm.
  pose proof (Z.mod_pos_bound atTime (windowWidth cu) ltac:(lia)) as Hm.
  unfold documentedShard, documentedEpoch, chunkInstance.
  set (W := windowWidth cu) in *. set (sw := shardWidth cu) in *.
  set (k := atTime / W) in *. set (off := atTime mod W) in *.
  assert (Hsw_le : (shardIdx + 1) * sw <= W) by nia.
  match goal with
  | |- context [if ?a <? ?b then _ else _] => destruct (Z.ltb_spec a b) as [Hlt|Hge]
  end.
  - assert (Hq : (atTime - lookbackPeriod cu - (shardIdx + 1) * sw) / W = k).
    { symmetry. apply (Z.div_unique _ W k (off - lookbackPeriod cu - (shardIdx + 1) * sw)); nia. }
    rewrite Hq. do 2 f_equal; lia.
  - assert (Hq : (atTime - lookbackPeriod cu - (shardIdx + 1) * sw) / W = k - 1).
    { symmetry.
      apply (Z.div_unique _ W (k - 1) (off - lookbackPeriod cu - (shardIdx + 1) * sw + W)); nia. }
    rewrite Hq. do 2 f_equal; lia.
Qed.

(** X8.  The first half of C5 holds from the zero Time to 2^65 ns before
    the end of the range of Time: the interval returned never ends before
    the window's left edge. *)
Lemma shardEnd_reaches_window (cu : crlUpdater) (atTime : time.Time) (shardIdx : Z) :
  wellFormed cu -> 0 <= atTime -> time.awayFromEnds atTime ->
  0 <= shardIdx < numShards cu ->
  exists shardStart shardEnd,
    getShardBoundaries cu atTime shardIdx = Some (shardStart, shardEnd)
    /\ atTime - lookbackPeriod cu <= shardEnd.
Proof.
  intros Hwf Ht Haway Hi. destruct (wellFormed_widths cu Hwf) as (HW & Hsw & Hmul).
  pose proof (atTimeOffset_bounds cu atTime Hwf Ht) as Hoff.
  rewrite (getShardBoundaries_exact cu atTime shardIdx Hwf Ht Haway Hi). cbv zeta.
  destruct Hwf as (Hn & HL & HF & Hmax & Hmod).
  assert (Hpos : 0 <= shardIdx * shardWidth cu) by nia.
  match goal with |- context [if ?a <? ?b then _ else _] => destruct (Z.ltb_spec a b) end;
    eexists; eexists; (split; [reflexivity|]); lia.
Qed.

(** In the last second of the range it does not, when lookbackPeriod is
    under a second: [Add] keeps the nanoseconds of a sum whose seconds it
    has clamped.  With 2 shards, a period of 5 ns and a lifetime of
    3639700192 ns, 271041745 ns before the last instant, the interval of
    shard 0 ends before the window's left edge. *)
Lemma shardEnd_in_the_last_second :
  exists cu shardStart shardEnd,
    NewUpdater [] 2 3639700192 5 0 1 = inr cu
    /\ getShardBoundaries cu (time.maxTime - 271041745) 0 = Some (shardStart, shardEnd)
    /\ shardEnd < time.maxTime - 271041745 - lookbackPeriod cu.
Proof.
  do 3 eexists. split; [reflexivity|].
  split; [vm_compute; reflexivity|]. vm_compute. reflexivity.
Qed.

(** X10.  At the first instant of an epoch the last shard's leftmost chunk
    is the one that has just ended, and the interval returned is the one
    a whole window later: so it is for every well-formed updater. *)
Lemma last_shard_at_epoch_start (cu : crlUpdater) (k : Z) :
  wellFormed cu -> 0 <= k -> k * windowWidth cu <= time.maxDuration ->
  getShardBoundaries cu (k * windowWidth cu) (numShards cu - 1)
  = Some (chunkInstance cu k (numShards cu - 1))
  /\ documentedShard cu (k * windowWidth cu) (numShards cu - 1)
     = chunkInstance cu (k - 1) (numShards cu - 1).
Proof.
  intros Hwf Hk Hmaxk. destruct (wellFormed_widths cu Hwf) as (HW & Hsw & Hmul).
  pose proof Hwf as (Hn & HL & HF & Hmax & Hmod).
  assert (Ht : 0 <= k * windowWidth cu <= time.maxDuration) by nia.
  assert (Hi : 0 <= numShards cu - 1 < numShards cu) by lia.
  split.
  - rewrite (getShardBoundaries_exact cu _ _ Hwf (proj1 Ht) (awayFromEnds_early _ Ht) Hi).
    rewrite (atTimeOffset_unsaturated cu _ Hwf Ht).
    rewrite Z.mod_mul by lia. cbv zeta. unfold chunkInstance.
    match goal with
    | |- context [if ?a <? ?b then _ else _] => destruct (Z.ltb_spec a b) as [Hlt|Hge]
    end; [nia | do 2 f_equal; lia].
  - unfold documentedShard, documentedEpoch.
    replace ((k * windowWidth cu - lookbackPeriod cu
              - (numShards cu - 1 + 1) * shardWidth cu) / windowWidth cu)
      with (k - 2); [f_equal; lia|].
    apply (Z.div_unique _ (windowWidth cu) (k - 2) (windowWidth cu - lookbackPeriod cu)); nia.
Qed.

(** ** tickShard *)

Section PipelineFacts.

Variable crl_Id : Z -> Z -> Z -> error + string.
Variable sha256_Sum256 : list byte -> list byte.

Lemma sendsSucceed_hd (script : list (option error)) :
  sendsSucceed script -> hd None script = None.
Proof. intros H. destruct H; [reflexivity | assumption]. Qed.

Lemma sendsSucceed_tl (script : list (option error)) :
  sendsSucceed script -> sendsSucceed (tl script).
Proof. intros H. destruct H; [constructor | assumption]. Qed.

(** The first loop, when the SA delivers [entries] and every send
    succeeds. *)
Lemma forwardEntries_succeeds (crlId : string) (saStream : list (recv CRLEntry)) :
  forall (entries : list CRLEntry) (s : frame),
    received saStream = Some entries ->
    sendsSucceed (caSends s) ->
    exists s',
      forwardEntries crlId saStream s = (Next tt, s')
      /\ trace s' = trace s
           ++ flat_map (fun entry => [SA_Recv; CA_Send (GenerateCRLRequest_Entry entry)]) entries
           ++ [SA_Recv]
      /\ sendsSucceed (caSends s')
      /\ csSends s' = csSends s
      /\ result s' = result s.
Proof.
  induction saStream as [|r saStream IH]; intros entries s Hrecv Hsends.
  - injection Hrecv as <-. eexists. split; [reflexivity|]. cbn. auto.
  - destruct r as [entry| |err]; cbn in Hrecv.
    + destruct (received saStream) as [rest|] eqn:Hrest; [|discriminate].
      injection Hrecv as <-.
      set (s1 := {| caSends := tl (caSends s); csSends := csSends s;
                    trace := (trace s ++ [SA_Recv])
                             ++ [CA_Send (GenerateCRLRequest_Entry entry)];
                    result := result s |}).
      destruct (IH rest s1 eq_refl) as (s' & Hrun & Htr & Hca & Hcs & Hres).
      { apply sendsSucceed_tl. exact Hsends. }
      exists s'. split.
      * cbn. unfold mbind, M_bind, emit, caStream_send. cbn.
        rewrite (sendsSucceed_hd _ Hsends). exact Hrun.
      * rewrite Htr. cbn. rewrite <- !app_assoc. auto.
    + injection Hrecv as <-. eexists. split; [reflexivity|]. cbn. auto.
    + discriminate.
Qed.

(** The second loop, when the CA delivers [chunks] and every send
    succeeds. *)
Lemma relayChunks_succeeds (crlId : string) (caStream : list (recv (list byte))) :
  forall (chunks : list (list byte)) (crlLen : Z) (crlHash : list byte) (s : frame),
    received caStream = Some chunks ->
    sendsSucceed (csSends s) ->
    exists s',
      relayChunks crlId caStream crlLen crlHash s
      = (Next (addLengths crlLen chunks, crlHash ++ concat chunks), s')
      /\ trace s' = trace s
           ++ flat_map (fun chunk => [CA_Recv; CS_Send (UploadCRLRequest_CrlChunk chunk)]) chunks
           ++ [CA_Recv]
      /\ caSends s' = caSends s
      /\ sendsSucceed (csSends s')
      /\ result s' = result s.
Proof.
  induction caStream as [|r caStream IH]; intros chunks crlLen crlHash s Hrecv Hsends.
  - injection Hrecv as <-. eexists. split.
    + cbn. rewrite app_nil_r. reflexivity.
    + cbn. auto.
  - destruct r as [chunk| |err]; cbn in Hrecv.
    + destruct (received caStream) as [rest|] eqn:Hrest; [|discriminate].
      injection Hrecv as <-.
      set (s1 := {| caSends := caSends s; csSends := tl (csSends s);
                    trace := (trace s ++ [CA_Recv])
                             ++ [CS_Send (UploadCRLRequest_CrlChunk chunk)];
                    result := result s |}).
      destruct (IH rest (add64 crlLen (Z.of_nat (length chunk))) (crlHash ++ chunk) s1 eq_refl)
        as (s' & Hrun & Htr & Hca & Hcs & Hres).
      { apply sendsSucceed_tl. exact Hsends. }
      exists s'. split.
      * cbn. unfold mbind, M_bind, emit, csStream_send. cbn.
        rewrite (sendsSucceed_hd _ Hsends). rewrite app_assoc. exact Hrun.
      * rewrite Htr. cbn. rewrite <- !app_assoc. auto.
    + injection Hrecv as <-. eexists. split.
      * cbn. rewrite app_nil_r. reflexivity.
      * cbn. auto.
    + discriminate.
Qed.

(** Below 2^63 bytes the counter does not wrap. *)
Lemma addLengths_exact (chunks : list (list byte)) :
  forall crlLen : Z,
    0 <= crlLen -> crlLen + totalLength chunks <= maxInt64 ->
    addLengths crlLen chunks = crlLen + totalLength chunks.
Proof.
  unfold addLengths, totalLength.
  induction chunks as [|chunk chunks IH]; intros crlLen H0 Hmax.
  - cbn. lia.
  - assert (Hsum : list_sum (map (@length byte) (chunk :: chunks))
                   = (length chunk + list_sum (map (@length byte) chunks))%nat)
      by reflexivity.
    rewrite Hsum, Nat2Z.inj_add in *. cbn [fold_left].
    assert (Hadd : add64 crlLen (Z.of_nat (length chunk))
                   = crlLen + Z.of_nat (length chunk)).
    { apply wrap64_small. unfold inInt64, minInt64, maxInt64 in *. lia. }
    rewrite Hadd, IH; lia.
Qed.

Lemma caRequests_app (tr1 tr2 : list event) :
  caRequests (tr1 ++ tr2) = caRequests tr1 ++ caRequests tr2.
Proof. apply flat_map_app. Qed.

Lemma csRequests_app (tr1 tr2 : list event) :
  csRequests (tr1 ++ tr2) = csRequests tr1 ++ csRequests tr2.
Proof. apply flat_map_app. Qed.

Lemma infoLines_app (tr1 tr2 : list event) :
  infoLines (tr1 ++ tr2) = infoLines tr1 ++ infoLines tr2.
Proof. apply flat_map_app. Qed.

Lemma caRequests_forward (entries : list CRLEntry) :
  caRequests (flat_map (fun entry => [SA_Recv; CA_Send (GenerateCRLRequest_Entry entry)]) entries)
  = map GenerateCRLRequest_Entry entries.
Proof.
  induction entries as [|e entries IH]; [reflexivity|].
  unfold caRequests, csRequests, infoLines in *. cbn. rewrite IH. reflexivity.
Qed.

Lemma caRequests_relay (chunks : list (list byte)) :
  caRequests (flat_map (fun chunk => [CA_Recv; CS_Send (UploadCRLRequest_CrlChunk chunk)]) chunks)
  = [].
Proof.
  induction chunks as [|c chunks IH]; [reflexivity|].
  unfold caRequests, csRequests, infoLines in *. cbn. rewrite IH. reflexivity.
Qed.

Lemma csRequests_forward (entries : list CRLEntry) :
  csRequests (flat_map (fun entry => [SA_Recv; CA_Send (GenerateCRLRequest_Entry entry)]) entries)
  = [].
Proof.
  induction entries as [|e entries IH]; [reflexivity|].
  unfold caRequests, csRequests, infoLines in *. cbn. rewrite IH. reflexivity.
Qed.

Lemma csRequests_relay (chunks : list (list byte)) :
  csRequests (flat_map (fun chunk => [CA_Recv; CS_Send (UploadCRLRequest_CrlChunk chunk)]) chunks)
  = map UploadCRLRequest_CrlChunk chunks.
Proof.
  induction chunks as [|c chunks IH]; [reflexivity|].
  unfold caRequests, csRequests, infoLines in *. cbn. rewrite IH. reflexivity.
Qed.

Lemma infoLines_forward (entries : list CRLEntry) :
  infoLines (flat_map (fun entry => [SA_Recv; CA_Send (GenerateCRLRequest_Entry entry)]) entries)
  = [].
Proof.
  induction entries as [|e entries IH]; [reflexivity|].
  unfold caRequests, csRequests, infoLines in *. cbn. rewrite IH. reflexivity.
Qed.

Lemma infoLines_relay (chunks : list (list byte)) :
  infoLines (flat_map (fun chunk => [CA_Recv; CS_Send (UploadCRLRequest_CrlChunk chunk)]) chunks)
  = [].
Proof.
  induction chunks as [|c chunks IH]; [reflexivity|].
  unfold caRequests, csRequests, infoLines in *. cbn. rewrite IH. reflexivity.
Qed.

(** The whole run, when every stream operation succeeds. *)
Lemma tickShard_succeeds (cu : crlUpdater) (peers : Peers) (atTime : time.Time)
    (issuerNameID shardIdx : Z) (crlId : string) (issuer : Certificate)
    (expiresAfter expiresBefore : time.Time)
    (entries : list CRLEntry) (chunks : list (list byte)) :
  crl_Id issuerNameID (time.UnixNano atTime) shardIdx = inr crlId ->
  getShardBoundaries cu atTime shardIdx = Some (expiresAfter, expiresBefore) ->
  issuers cu !! issuerNameID = Some issuer ->
  allSucceed peers entries chunks ->
  tickShard crl_Id sha256_Sum256 cu peers atTime issuerNameID shardIdx
  = (Returned None,
     successTrace atTime issuerNameID shardIdx expiresAfter expiresBefore
       (CommonName issuer) entries chunks
       [ArgString crlId; ArgInt (addLengths 0 chunks);
        ArgBytes (sha256_Sum256 (concat chunks))]).
Proof.
  intros Hid Hbounds Hissuer
    (Hsa & Hentries & Hca & Hcasend & Hclose & Hchunks & Hcs & Hcssend & Hcsclose).
  unfold tickShard. rewrite Hid.
  unfold tickShardBody, call. rewrite Hbounds, Hsa, Hca, Hclose, Hcs, Hcsclose.
  unfold mbind, M_bind, emit, caStream_send, csStream_send, mret, M_ret, returnNil.
  cbn [caSends csSends trace result fst snd].
  rewrite (sendsSucceed_hd _ Hcasend).
  match goal with
  | |- context [forwardEntries crlId (saStream_Recv peers) ?s] =>
      destruct (forwardEntries_succeeds crlId (saStream_Recv peers) entries s Hentries)
        as (s1 & Hrun1 & Htr1 & Hca1 & Hcs1 & Hres1);
      [apply sendsSucceed_tl; exact Hcasend | rewrite Hrun1]
  end.
  cbn [caSends csSends trace result] in *.
  rewrite Hcs1. rewrite (sendsSucceed_hd _ Hcssend).
  match goal with
  | |- context [relayChunks crlId (caStream_Recv peers) 0 [] ?s] =>
      destruct (relayChunks_succeeds crlId (caStream_Recv peers) chunks 0 [] s Hchunks)
        as (s2 & Hrun2 & Htr2 & Hca2 & Hcs2 & Hres2);
      [apply sendsSucceed_tl; exact Hcssend | rewrite Hrun2]
  end.
  cbn [caSends csSends trace result app] in *.
  unfold tickShardDeferred. rewrite Hissuer.
  cbn [caSends csSends trace result finish].
  rewrite Hres2, Hres1, Htr2, Htr1.
  unfold successTrace. cbn [app]. rewrite <- !app_assoc. reflexivity.
Qed.

(** C6.  In a run of [tickShard] in which every stream operation
    succeeds, with [entries] delivered by the SA and [chunks] by the CA,
    the CA is sent one metadata frame and then each entry once, in the
    order received; the storer is sent its metadata frame and then each
    chunk once, in order; and the one line logged carries the sum of the
    chunk lengths and the SHA-256 digest of the chunks' concatenation.
    (The updater must know the issuer and its shard boundaries must be
    computable, or the run panics; the size is counted in an int, so the
    CRL is taken to be shorter than 2^63 bytes.) *)
Theorem pipeline_fidelity (cu : crlUpdater) (peers : Peers) (atTime : time.Time)
    (issuerNameID shardIdx : Z) (crlId : string) (issuer : Certificate)
    (expiresAfter expiresBefore : time.Time)
    (entries : list CRLEntry) (chunks : list (list byte)) :
  crl_Id issuerNameID (time.UnixNano atTime) shardIdx = inr crlId ->
  getShardBoundaries cu atTime shardIdx = Some (expiresAfter, expiresBefore) ->
  issuers cu !! issuerNameID = Some issuer ->
  allSucceed peers entries chunks ->
  totalLength chunks <= maxInt64 ->
  let run := tickShard crl_Id sha256_Sum256 cu peers atTime issuerNameID shardIdx in
  fst run = Returned None
  /\ caRequests (snd run)
     = GenerateCRLRequest_Metadata issuerNameID (time.UnixNano atTime) shardIdx
       :: map GenerateCRLRequest_Entry entries
  /\ csRequests (snd run)
     = UploadCRLRequest_Metadata issuerNameID (time.UnixNano atTime) shardIdx
       :: map UploadCRLRequest_CrlChunk chunks
  /\ infoLines (snd run)
     = [[ArgString crlId; ArgInt (totalLength chunks);
         ArgBytes (sha256_Sum256 (concat chunks))]].
Proof.
  intros Hid Hbounds Hissuer Hok Hlen run. subst run.
  rewrite (tickShard_succeeds cu peers atTime issuerNameID shardIdx crlId issuer
             expiresAfter expiresBefore entries chunks Hid Hbounds Hissuer Hok).
  cbn [fst snd]. unfold successTrace.
  rewrite (addLengths_exact chunks 0) by (unfold totalLength in *; lia).
  rewrite Z.add_0_l.
  repeat split.
  - rewrite !caRequests_app, caRequests_forward, caRequests_relay.
    unfold caRequests. cbn [flat_map app]. rewrite ?app_nil_r. reflexivity.
  - rewrite !csRequests_app, csRequests_forward, csRequests_relay.
    unfold csRequests. cbn [flat_map app]. rewrite ?app_nil_r. reflexivity.
  - rewrite !infoLines_app, infoLines_forward, infoLines_relay.
    unfold infoLines. cbn [flat_map app]. reflexivity.
Qed.

(** C9.  When the SA stream ends before any entry and the remaining
    operations succeed, [tickShard] returns nil after sending the CA its
    one metadata frame, half-closing the CA stream, opening the storer
    stream and sending its metadata frame, whatever chunks the CA
    delivers; when it delivers none, the storer is sent nothing more and
    the line logged has size 0. *)
Theorem empty_revocation_set (cu : crlUpdater) (peers : Peers) (atTime : time.Time)
    (issuerNameID shardIdx : Z) (crlId : string) (issuer : Certificate)
    (expiresAfter expiresBefore : time.Time) (chunks : list (list byte)) :
  crl_Id issuerNameID (time.UnixNano atTime) shardIdx = inr crlId ->
  getShardBoundaries cu atTime shardIdx = Some (expiresAfter, expiresBefore) ->
  issuers cu !! issuerNameID = Some issuer ->
  allSucceed peers [] chunks ->
  let run := tickShard crl_Id sha256_Sum256 cu peers atTime issuerNameID shardIdx in
  fst run = Returned None
  /\ caRequests (snd run)
     = [GenerateCRLRequest_Metadata issuerNameID (time.UnixNano atTime) shardIdx]
  /\ (exists rest,
        snd run
        = [Log_Debugf "Ticking shard %d of issuer %d at time %s"
             [ArgInt shardIdx; ArgInt issuerNameID; ArgTime atTime];
           SA_GetRevokedCerts {| IssuerNameID := issuerNameID;
                                 ExpiresAfter := time.UnixNano expiresAfter;
                                 ExpiresBefore := time.UnixNano expiresBefore;
                                 RevokedBefore := time.UnixNano atTime |};
           CA_GenerateCRL;
           CA_Send (GenerateCRLRequest_Metadata issuerNameID (time.UnixNano atTime) shardIdx);
           SA_Recv;
           CA_CloseSend;
           CS_UploadCRL;
           CS_Send (UploadCRLRequest_Metadata issuerNameID (time.UnixNano atTime) shardIdx)]
          ++ rest)
  /\ (chunks = [] ->
      snd run
      = [Log_Debugf "Ticking shard %d of issuer %d at time %s"
           [ArgInt shardIdx; ArgInt issuerNameID; ArgTime atTime];
         SA_GetRevokedCerts {| IssuerNameID := issuerNameID;
                               ExpiresAfter := time.UnixNano expiresAfter;
                               ExpiresBefore := time.UnixNano expiresBefore;
                               RevokedBefore := time.UnixNano atTime |};
         CA_GenerateCRL;
         CA_Send (GenerateCRLRequest_Metadata issuerNameID (time.UnixNano atTime) shardIdx);
         SA_Recv;
         CA_CloseSend;
         CS_UploadCRL;
         CS_Send (UploadCRLRequest_Metadata issuerNameID (time.UnixNano atTime) shardIdx);
         CA_Recv;
         Log_Infof "Generated CRL: id=[%s] size=[%d] hash=[%x]"
           [ArgString crlId; ArgInt 0; ArgBytes (sha256_Sum256 [])];
         CS_CloseAndRecv;
         TickHistogram_Observe (CommonName issuer) "success";
         UpdatedCounter_Inc "success"]).
Proof.
  intros Hid Hbounds Hissuer Hok run. subst run.
  rewrite (tickShard_succeeds cu peers atTime issuerNameID shardIdx crlId issuer
             expiresAfter expiresBefore [] chunks Hid Hbounds Hissuer Hok).
  cbn [fst snd]. unfold successTrace.
  split; [reflexivity|]. split; [|split].
  - rewrite !caRequests_app, caRequests_relay. reflexivity.
  - eexists. cbn [flat_map app]. reflexivity.
  - intros ->. reflexivity.
Qed.

(** C10.  When [crl.Id] fails, [tickShard] returns its error and does
    nothing else: no stream is opened and no metric is touched. *)
Theorem crl_id_failure_is_silent (cu : crlUpdater) (peers : Peers) (atTime : time.Time)
    (issuerNameID shardIdx : Z) (err : error) :
  crl_Id issuerNameID (time.UnixNano atTime) shardIdx = inl err ->
  let run := tickShard crl_Id sha256_Sum256 cu peers atTime issuerNameID shardIdx in
  fst run = Returned (Some err)
  /\ snd run = []
  /\ streamsOpened (snd run) = []
  /\ metricUpdates (snd run) = [].
Proof.
  intros Hid run. subst run. unfold tickShard. rewrite Hid. repeat split.
Qed.

(** ** tickIssuer *)

(** The loop returns at the first result that carries an error. *)
Lemma collectResults_failure (done : list shardResult) :
  forall (n : nat) (res : shardResult) (cause : error)
         (rest : list (option shardResult)) (s : frame),
    (length done < n)%nat ->
    Forall (fun r => res_err r = None) done ->
    res_err res = Some cause ->
    collectResults n (map Some done ++ Some res :: rest) s
    = (Return (Some (Errorf "updating shard %d: %w"
                       [ArgInt (res_shardIdx res); ArgError cause])),
       {| caSends := caSends s; csSends := csSends s;
          trace := trace s; result := "failed" |}).
Proof.
  induction done as [|r done IH]; intros n res cause rest s Hn Hnil Hres.
  - destruct n as [|n]; [cbn in Hn; lia|]. cbn. rewrite Hres. reflexivity.
  - destruct n as [|n]; [cbn in Hn; lia|].
    inversion Hnil as [|? ? Hr Hdone]; subst.
    cbn. rewrite Hr. apply IH; [cbn in Hn; lia | assumption | assumption].
Qed.

(** It falls through once [n] results without error have been read. *)
Lemma collectResults_success (done : list shardResult) :
  forall (n : nat) (rest : list (option shardResult)) (s : frame),
    length done = n ->
    Forall (fun r => res_err r = None) done ->
    collectResults n (map Some done ++ rest) s = (Next tt, s).
Proof.
  induction done as [|r done IH]; intros n rest s Hn Hnil.
  - cbn in Hn. subst n. reflexivity.
  - destruct n as [|n]; [discriminate|].
    inversion Hnil as [|? ? Hr Hdone]; subst.
    cbn. rewrite Hr. apply IH; [cbn in Hn; lia | assumption].
Qed.

(** C8.  [tickIssuer] reads the shard results in the order in which the
    shards complete.  At the first one that carries an error it returns
    "updating shard <idx>: <cause>" for that result's index and cause,
    whatever is still to come, and records the tick as failed; if the
    first numShards results carry no error it returns nil. *)
Theorem tickIssuer_first_failure (cu : crlUpdater) (peers : Z -> Peers)
    (sched : list nat) (atTime : time.Time) (issuerNameID : Z) (issuer : Certificate) :
  issuers cu !! issuerNameID = Some issuer ->
  0 <= numShards cu ->
  let results := shardResults crl_Id sha256_Sum256 cu peers sched atTime issuerNameID in
  let run := tickIssuer crl_Id sha256_Sum256 cu peers sched atTime issuerNameID in
  (forall (done : list shardResult) (res : shardResult) (cause : error)
          (rest : list (option shardResult)),
     results = map Some done ++ Some res :: rest ->
     (length done < Z.to_nat (numShards cu))%nat ->
     Forall (fun r => res_err r = None) done ->
     res_err res = Some cause ->
     run = (Returned (Some (Errorf "updating shard %d: %w"
                              [ArgInt (res_shardIdx res); ArgError cause])),
            [Log_Debugf "Ticking issuer %d at time %s"
               [ArgInt issuerNameID; ArgTime atTime];
             TickHistogram_Observe (CommonName issuer ++ " (Overall)")%string "failed"]))
  /\ (forall (done : list shardResult) (rest : list (option shardResult)),
        results = map Some done ++ rest ->
        length done = Z.to_nat (numShards cu) ->
        Forall (fun r => res_err r = None) done ->
        run = (Returned None,
               [Log_Debugf "Ticking issuer %d at time %s"
                  [ArgInt issuerNameID; ArgTime atTime];
                TickHistogram_Observe (CommonName issuer ++ " (Overall)")%string
                  "success"])).
Proof.
  intros Hissuer Hn results run. subst results run.
  unfold tickIssuer, tickIssuerBody, tickIssuerDeferred. rewrite Hissuer.
  destruct (Z.ltb_spec (numShards cu) 0) as [Hneg|_]; [lia|].
  unfold mbind, M_bind, emit, mret, M_ret, returnNil. cbn [caSends csSends trace result app].
  split.
  - intros done res cause rest -> Hlen Hnil Hres.
    rewrite (collectResults_failure done _ res cause rest _ Hlen Hnil Hres).
    reflexivity.
  - intros done rest -> Hlen Hnil.
    rewrite (collectResults_success done _ rest _ Hlen Hnil).
    reflexivity.
Qed.

End PipelineFacts.

(** ** Metrics of tickShard *)

Lemma metricUpdates_app (tr1 tr2 : list event) :
  metricUpdates (tr1 ++ tr2) = metricUpdates tr1 ++ metricUpdates tr2.
Proof. apply List.filter_app. Qed.

Lemma orderly_ret {A : Type} (a : A) : orderly (mret a).
Proof. intros s Htr Hres. split; assumption. Qed.

Lemma orderly_bind {A B : Type} (m : M A) (f : A -> M B) :
  orderly m -> (forall a, orderly (f a)) -> orderly (m ≫= f).
Proof.
  intros Hm Hf s Htr Hres. specialize (Hm s Htr Hres).
  unfold mbind, M_bind. destruct (m s) as [c s']. cbn [fst snd] in Hm.
  destruct Hm as (Htr' & Hres').
  destruct c as [a|[err|]| |]; cbn [fst snd]; try (split; assumption).
  apply (Hf a s' Htr' Hres').
Qed.

Lemma orderly_emit (e : event) : isMetric e = false -> orderly (emit e).
Proof.
  intros He s Htr Hres. cbn. split; [|assumption].
  rewrite metricUpdates_app, Htr. unfold metricUpdates. cbn. rewrite He. reflexivity.
Qed.

Lemma orderly_failed {A : Type} (err : error) : orderly (@failed A err).
Proof. intros s Htr Hres. split; [assumption | reflexivity]. Qed.

Lemma orderly_returnNil {A : Type} : orderly (@returnNil A).
Proof. intros s Htr Hres. split; assumption. Qed.

Lemma orderly_panic {A : Type} : orderly (@panic A).
Proof. intros s Htr Hres. split; assumption. Qed.

Lemma orderly_caStream_send (req : GenerateCRLRequest) : orderly (caStream_send req).
Proof.
  intros s Htr Hres. cbn. split; [|assumption].
  rewrite metricUpdates_app, Htr. reflexivity.
Qed.

Lemma orderly_csStream_send (req : UploadCRLRequest) : orderly (csStream_send req).
Proof.
  intros s Htr Hres. cbn. split; [|assumption].
  rewrite metricUpdates_app, Htr. reflexivity.
Qed.

Lemma orderly_call (e : event) (err : option error) (wrap : error -> error) :
  isMetric e = false -> orderly (call e err wrap).
Proof.
  intros He. unfold call. apply orderly_bind; [apply orderly_emit; exact He|].
  intros _. destruct err; [apply orderly_failed | apply orderly_ret].
Qed.

Lemma orderly_forwardEntries (crlId : string) (saStream : list (recv CRLEntry)) :
  orderly (forwardEntries crlId saStream).
Proof.
  induction saStream as [|r saStream IH]; cbn [forwardEntries].
  - apply orderly_bind; [apply orderly_emit; reflexivity | intros _; apply orderly_ret].
  - apply orderly_bind; [apply orderly_emit; reflexivity | intros _].
    destruct r as [entry| |err].
    + apply orderly_bind; [apply orderly_caStream_send | intros [err|]].
      * apply orderly_failed.
      * exact IH.
    + apply orderly_ret.
    + apply orderly_failed.
Qed.

Lemma orderly_relayChunks (crlId : string) (caStream : list (recv (list byte))) :
  forall (crlLen : Z) (crlHash : list byte),
    orderly (relayChunks crlId caStream crlLen crlHash).
Proof.
  induction caStream as [|r caStream IH]; intros crlLen crlHash; cbn [relayChunks].
  - apply orderly_bind; [apply orderly_emit; reflexivity | intros _; apply orderly_ret].
  - apply orderly_bind; [apply orderly_emit; reflexivity | intros _].
    destruct r as [chunk| |err].
    + apply orderly_bind; [apply orderly_csStream_send | intros [err|]].
      * apply orderly_failed.
      * apply IH.
    + apply orderly_ret.
    + apply orderly_failed.
Qed.

Section MetricFacts.

Variable crl_Id : Z -> Z -> Z -> error + string.
Variable sha256_Sum256 : list byte -> list byte.

Lemma orderly_tickShardBody (cu : crlUpdater) (peers : Peers) (atTime : time.Time)
    (issuerNameID shardIdx : Z) (crlId : string) :
  orderly (tickShardBody sha256_Sum256 cu peers atTime issuerNameID shardIdx crlId).
Proof.
  unfold tickShardBody.
  apply orderly_bind; [apply orderly_emit; reflexivity | intros _].
  apply orderly_bind.
  { destruct (getShardBoundaries cu atTime shardIdx); [apply orderly_ret | apply orderly_panic]. }
  intros [expiresAfter expiresBefore].
  apply orderly_bind; [apply orderly_call; reflexivity | intros _].
  apply orderly_bind; [apply orderly_call; reflexivity | intros _].
  apply orderly_bind; [apply orderly_caStream_send | intros err].
  apply orderly_bind.
  { destruct err; [apply orderly_failed | apply orderly_ret]. }
  intros _.
  apply orderly_bind; [apply orderly_forwardEntries | intros _].
  apply orderly_bind; [apply orderly_call; reflexivity | intros _].
  apply orderly_bind; [apply orderly_call; reflexivity | intros _].
  apply orderly_bind; [apply orderly_csStream_send | intros err'].
  apply orderly_bind.
  { destruct err'; [apply orderly_failed | apply orderly_ret]. }
  intros _.
  apply orderly_bind; [apply orderly_relayChunks | intros [crlLen crlHash]].
  apply orderly_bind; [apply orderly_emit; reflexivity | intros _].
  apply orderly_bind; [apply orderly_call; reflexivity | intros _].
  apply orderly_returnNil.
Qed.

(** X1.  Once [crl.Id] has succeeded, every run of [tickShard] for a known
    issuer, whatever the peers do, ends with one observation of the tick
    histogram and one increment of the counter, and touches no metric
    before: labelled "failed" when an error is returned, "success"
    otherwise. *)
Lemma tickShard_metrics (cu : crlUpdater) (peers : Peers) (atTime : time.Time)
    (issuerNameID shardIdx : Z) (crlId : string) (issuer : Certificate) :
  crl_Id issuerNameID (time.UnixNano atTime) shardIdx = inr crlId ->
  issuers cu !! issuerNameID = Some issuer ->
  let run := tickShard crl_Id sha256_Sum256 cu peers atTime issuerNameID shardIdx in
  let label := match fst run with
               | Returned (Some _) => "failed"
               | _ => "success"
               end in
  metricUpdates (snd run)
  = [TickHistogram_Observe (CommonName issuer) label; UpdatedCounter_Inc label].
Proof.
  intros Hid Hissuer run label. subst run label.
  unfold tickShard, tickShardDeferred. rewrite Hid, Hissuer.
  pose proof (orderly_tickShardBody cu peers atTime issuerNameID shardIdx crlId
                {| caSends := caStream_Send peers; csSends := csStream_Send peers;
                   trace := []; result := "success" |} eq_refl eq_refl) as Hbody.
  destruct (tickShardBody _ _ _ _ _ _ _ _) as [c s]. cbn [fst snd] in *.
  destruct Hbody as (Htr & Hres).
  rewrite metricUpdates_app, Htr.
  destruct c as [[]|[err|]| |]; cbn [finish]; rewrite Hres; reflexivity.
Qed.

End MetricFacts.

(** ** The theorems at concrete inputs *)

Example exampleUpdater_built :
  NewUpdater [exampleIssuer] 10 (90 * 24 * time.Hour) time.Hour 0 2 = inr exampleUpdater
  /\ NewUpdater [exampleIssuer] 2 (90 * 24 * time.Hour) time.Hour 0 2 = inr smallUpdater.
Proof. split; vm_compute; reflexivity. Qed.

Lemma examplePeers_succeed : allSucceed examplePeers exampleEntries exampleChunks.
Proof. repeat split; constructor. Defined.

Lemma emptyPeers_succeed : allSucceed emptyPeers [] [].
Proof. repeat split; constructor. Defined.

(** Shard 3 of the example updater, two entries and two chunks. *)
Lemma pipeline_fidelity_witness :
  let run := tickShard exampleId exampleDigest exampleUpdater examplePeers exampleTime 7 3 in
  fst run = Returned None
  /\ caRequests (snd run)
     = GenerateCRLRequest_Metadata 7 (time.UnixNano exampleTime) 3
       :: map GenerateCRLRequest_Entry exampleEntries
  /\ csRequests (snd run)
     = UploadCRLRequest_Metadata 7 (time.UnixNano exampleTime) 3
       :: map UploadCRLRequest_CrlChunk exampleChunks
  /\ infoLines (snd run)
     = [[ArgString "crl-id"; ArgInt (totalLength exampleChunks);
         ArgBytes (exampleDigest (concat exampleChunks))]].
Proof.
  apply (pipeline_fidelity exampleId exampleDigest exampleUpdater examplePeers exampleTime
           7 3 "crl-id" exampleIssuer 63846513691145224193 63847604347145224193
           exampleEntries exampleChunks).
  - reflexivity.
  - vm_compute. reflexivity.
  - vm_compute. reflexivity.
  - exact examplePeers_succeed.
  - vm_compute. discriminate.
Defined.

(** Shard 0 of the example updater, no revocation and no chunk. *)
Lemma empty_revocation_set_witness :
  fst (tickShard exampleId exampleDigest exampleUpdater emptyPeers exampleTime 7 0)
  = Returned None
  /\ caRequests (snd (tickShard exampleId exampleDigest exampleUpdater emptyPeers
                        exampleTime 7 0))
     = [GenerateCRLRequest_Metadata 7 (time.UnixNano exampleTime) 0]
  /\ infoLines (snd (tickShard exampleId exampleDigest exampleUpdater emptyPeers
                       exampleTime 7 0))
     = [[ArgString "crl-id"; ArgInt 0; ArgBytes (exampleDigest [])]].
Proof.
  pose proof (empty_revocation_set exampleId exampleDigest exampleUpdater emptyPeers
                exampleTime 7 0 "crl-id" exampleIssuer
                63843241723145224193 63844332379145224193 []
                eq_refl eq_refl eq_refl emptyPeers_succeed) as (Hret & Hca & _ & Htrace).
  split; [exact Hret|]. split; [exact Hca|].
  rewrite (Htrace eq_refl). reflexivity.
Defined.

(** A failing [crl.Id]. *)
Lemma crl_id_failure_is_silent_witness :
  tickShard failingId exampleDigest exampleUpdater examplePeers exampleTime 7 3
  = (Returned (Some (Errorf "computing CRL Id: %w"
                       [ArgError (ErrValue "unsupported value")])), []).
Proof.
  pose proof (crl_id_failure_is_silent failingId exampleDigest exampleUpdater examplePeers
                exampleTime 7 3 _ eq_refl) as (Hret & Htrace & _).
  rewrite (surjective_pairing (tickShard _ _ _ _ _ _ _)), Hret, Htrace. reflexivity.
Defined.

(** Two shards, two workers, an SA that cannot be reached: shard 1
    completes first, and it is shard 1 that [tickIssuer] reports, though
    shard 0 fails as well. *)
Lemma tickIssuer_first_failure_witness :
  completions [1; 0]%nat [] 0 2 2 = [1; 0]
  /\ fst (tickShard exampleId exampleDigest smallUpdater unreachablePeers exampleTime 7 0)
     = Returned (Some (Errorf "connecting to SA for %s: %w"
                         [ArgString "crl-id"; ArgError (ErrValue "unavailable")]))
  /\ tickIssuer exampleId exampleDigest smallUpdater (fun _ => unreachablePeers)
       [1; 0]%nat exampleTime 7
     = (Returned (Some (Errorf "updating shard %d: %w"
                          [ArgInt 1;
                           ArgError (Errorf "connecting to SA for %s: %w"
                                       [ArgString "crl-id";
                                        ArgError (ErrValue "unavailable")])])),
        [Log_Debugf "Ticking issuer %d at time %s" [ArgInt 7; ArgTime exampleTime];
         TickHistogram_Observe "Example CA (Overall)" "failed"]).
Proof.
  split; [reflexivity|]. split; [vm_compute; reflexivity|].
  refine (proj1 (tickIssuer_first_failure exampleId exampleDigest smallUpdater
                   (fun _ => unreachablePeers) [1; 0]%nat exampleTime 7 exampleIssuer
                   eq_refl _)
            [] {| res_shardIdx := 1;
                  res_err := Some (Errorf "connecting to SA for %s: %w"
                                     [ArgString "crl-id"; ArgError (ErrValue "unavailable")]) |}
            _ [Some {| res_shardIdx := 0;
                       res_err := Some (Errorf "connecting to SA for %s: %w"
                                          [ArgString "crl-id";
                                           ArgError (ErrValue "unavailable")]) |}]
            _ _ _ eq_refl).
  - cbn. lia.
  - vm_compute. reflexivity.
  - cbn. lia.
  - constructor.
Defined.

(** * More of the updater *)

(** ** Every run of tickShard *)

(** The first loop, whatever the SA and the CA do: it falls through
    after forwarding every entry up to [io.EOF], or returns the error of
    the [Recv] or of the [Send] that failed. *)
Lemma forwardEntries_runs (crlId : string) (saStream : list (recv CRLEntry)) :
  forall s : frame,
    exists c s',
      forwardEntries crlId saStream s = (c, s')
      /\ csSends s' = csSends s
      /\ match c with
         | Next _ =>
             exists entries,
               received saStream = Some entries
               /\ firstFailure saStream (caSends s) = None
               /\ trace s' = trace s ++ forwarded entries
               /\ result s' = result s
         | Return (Some err) =>
             result s' = "failed"
             /\ exists sent cause,
                  trace s' = trace s ++ sent
                  /\ forallb isForward sent = true
                  /\ (err = stepError "retrieving entry from SA for %s: %w" crlId cause
                      /\ received saStream = None
                      /\ firstFailure saStream (caSends s) = Some (RecvFailed cause)
                      \/ err = stepError "sending entry to CA for %s: %w" crlId cause
                         /\ firstFailure saStream (caSends s) = Some (SendFailed cause))
         | _ => False
         end.
Proof.
  induction saStream as [|r saStream IH]; intros s.
  - eexists; eexists. split; [reflexivity|]. split; [reflexivity|].
    exists []. cbn. auto 10.
  - destruct r as [entry| |cause].
    + cbn [forwardEntries firstFailure]. unfold mbind, M_bind, emit, caStream_send.
      cbn [caSends csSends trace result].
      destruct (hd None (caSends s)) as [cause|] eqn:Hsend.
      * eexists; eexists. split; [reflexivity|]. split; [reflexivity|].
        split; [reflexivity|].
        exists [SA_Recv; CA_Send (GenerateCRLRequest_Entry entry)], cause.
        cbn [trace]. rewrite <- app_assoc. auto 10.
      * match goal with
        | |- context [forwardEntries crlId saStream ?s1] =>
            destruct (IH s1) as (c & s' & Hrun & Hcs & Hc); rewrite Hrun
        end.
        exists c, s'. split; [reflexivity|]. split; [exact Hcs|].
        cbn [caSends trace result] in Hc.
        destruct c as [[]|[err|]| |]; try contradiction.
        -- destruct Hc as (entries & Hrecv & Hfirst & Htr & Hres).
           exists (entry :: entries). cbn [received]. rewrite Hrecv.
           split; [reflexivity|]. split; [exact Hfirst|]. split; [|exact Hres].
           rewrite Htr. unfold forwarded. cbn [flat_map app].
           rewrite <- !app_assoc. reflexivity.
        -- destruct Hc as (Hres & sent & cause & Htr & Hsent & Herr).
           split; [exact Hres|].
           exists ([SA_Recv; CA_Send (GenerateCRLRequest_Entry entry)] ++ sent), cause.
           split; [rewrite Htr, <- !app_assoc; reflexivity|].
           split; [cbn; exact Hsent|].
           destruct Herr as [(Herr & Hrecv & Hfirst)|(Herr & Hfirst)];
             [left|right; split; assumption].
           split; [exact Herr|]. split; [|exact Hfirst].
           cbn [received]. rewrite Hrecv. reflexivity.
    + eexists; eexists. split; [reflexivity|]. split; [reflexivity|].
      exists []. cbn. auto 10.
    + eexists; eexists. split; [reflexivity|]. split; [reflexivity|].
      split; [reflexivity|]. exists [SA_Recv], cause. cbn. auto 10.
Qed.

(** The second loop, whatever the CA and the storer do. *)
Lemma relayChunks_runs (crlId : string) (caStream : list (recv (list byte))) :
  forall (crlLen : Z) (crlHash : list byte) (s : frame),
    exists c s',
      relayChunks crlId caStream crlLen crlHash s = (c, s')
      /\ match c with
         | Next (len, hash) =>
             exists chunks,
               received caStream = Some chunks
               /\ firstFailure caStream (csSends s) = None
               /\ len = addLengths crlLen chunks
               /\ hash = crlHash ++ concat chunks
               /\ trace s' = trace s ++ relayed chunks
               /\ result s' = result s
         | Return (Some err) =>
             result s' = "failed"
             /\ exists sent cause,
                  trace s' = trace s ++ sent
                  /\ forallb isRelay sent = true
                  /\ (err = stepError "receiving CRL bytes for %s: %w" crlId cause
                      /\ received caStream = None
                      /\ firstFailure caStream (csSends s) = Some (RecvFailed cause)
                      \/ err = stepError "uploading CRL bytes for %s: %w" crlId cause
                         /\ firstFailure caStream (csSends s) = Some (SendFailed cause))
         | _ => False
         end.
Proof.
  induction caStream as [|r caStream IH]; intros crlLen crlHash s.
  - eexists; eexists. split; [reflexivity|].
    exists []. cbn. rewrite app_nil_r. auto 10.
  - destruct r as [chunk| |cause].
    + cbn [relayChunks firstFailure]. unfold mbind, M_bind, emit, csStream_send.
      cbn [caSends csSends trace result].
      destruct (hd None (csSends s)) as [cause|] eqn:Hsend.
      * eexists; eexists. split; [reflexivity|]. split; [reflexivity|].
        exists [CA_Recv; CS_Send (UploadCRLRequest_CrlChunk chunk)], cause.
        cbn [trace]. rewrite <- app_assoc. auto 10.
      * match goal with
        | |- context [relayChunks crlId caStream ?len ?hash ?s1] =>
            destruct (IH len hash s1) as (c & s' & Hrun & Hc); rewrite Hrun
        end.
        exists c, s'. split; [reflexivity|].
        cbn [csSends trace result] in Hc.
        destruct c as [[len hash]|[err|]| |]; try contradiction.
        -- destruct Hc as (chunks & Hrecv & Hfirst & Hlen & Hhash & Htr & Hres).
           exists (chunk :: chunks). cbn [received]. rewrite Hrecv.
           split; [reflexivity|]. split; [exact Hfirst|]. split; [exact Hlen|].
           split; [rewrite Hhash; cbn [concat]; rewrite app_assoc; reflexivity|].
           split; [|exact Hres].
           rewrite Htr. unfold relayed. cbn [flat_map app].
           rewrite <- !app_assoc. reflexivity.
        -- destruct Hc as (Hres & sent & cause & Htr & Hsent & Herr).
           split; [exact Hres|].
           exists ([CA_Recv; CS_Send (UploadCRLRequest_CrlChunk chunk)] ++ sent), cause.
           split; [rewrite Htr, <- !app_assoc; reflexivity|].
           split; [cbn; exact Hsent|].
           destruct Herr as [(Herr & Hrecv & Hfirst)|(Herr & Hfirst)];
             [left|right; split; assumption].
           split; [exact Herr|]. split; [|exact Hfirst].
           cbn [received]. rewrite Hrecv. reflexivity.
    + eexists; eexists. split; [reflexivity|].
      exists []. cbn. rewrite app_nil_r. auto 10.
    + eexists; eexists. split; [reflexivity|].
      split; [reflexivity|]. exists [CA_Recv], cause. cbn. auto 10.
Qed.

(** The body, whatever the peers do: it returns, and the way it does is
    one of the twelve of [shardRun]. *)
Lemma tickShardBody_runs (sha256_Sum256 : list byte -> list byte)
    (cu : crlUpdater) (peers : Peers) (atTime : time.Time)
    (issuerNameID shardIdx : Z) (crlId : string)
    (expiresAfter expiresBefore : time.Time) :
  getShardBoundaries cu atTime shardIdx = Some (expiresAfter, expiresBefore) ->
  exists err s',
    tickShardBody sha256_Sum256 cu peers atTime issuerNameID shardIdx crlId
      {| caSends := caStream_Send peers; csSends := csStream_Send peers;
         trace := []; result := "success" |}
    = (Return err, s')
    /\ shardRun sha256_Sum256 peers atTime issuerNameID shardIdx crlId
         expiresAfter expiresBefore err (trace s') (result s').
Proof.
  intros Hbounds. unfold tickShardBody, call. rewrite Hbounds.
  unfold mbind, M_bind, emit, caStream_send, csStream_send, mret, M_ret, returnNil.
  cbn [caSends csSends trace result fst snd app].
  destruct (sa_GetRevokedCerts peers) as [cause|] eqn:Hsa.
  { eexists; eexists. split; [reflexivity|].
    apply run_sa_connect; first [assumption | first_error]. }
  cbn [caSends csSends trace result fst snd app].
  destruct (ca_GenerateCRL peers) as [cause|] eqn:Hca.
  { eexists; eexists. split; [reflexivity|].
    apply (run_ca_connect _ _ _ _ _ _ _ _ cause); first [assumption | first_error]. }
  cbn [caSends csSends trace result fst snd app].
  destruct (hd None (caStream_Send peers)) as [cause|] eqn:Hmeta.
  { eexists; eexists. split; [reflexivity|].
    apply (run_ca_metadata _ _ _ _ _ _ _ _ cause); first [assumption | first_error]. }
  cbn [caSends csSends trace result fst snd app].
  match goal with
  | |- context [forwardEntries crlId (saStream_Recv peers) ?s] =>
      destruct (forwardEntries_runs crlId (saStream_Recv peers) s)
        as (c1 & s1 & Hrun1 & Hcs1 & Hc1); rewrite Hrun1
  end.
  cbn [caSends csSends trace result] in Hcs1, Hc1.
  destruct c1 as [[]|[err|]| |]; try contradiction.
  2:{ destruct Hc1
        as (Hres & sent & cause & Htr & Hsent & [(-> & Hrecv & Hfirst)|(-> & Hfirst)]);
        eexists; eexists; (split; [reflexivity|]); rewrite Htr, Hres.
      - apply (run_sa_recv _ _ _ _ _ _ _ _ cause sent); first [assumption | first_error].
      - apply (run_ca_send _ _ _ _ _ _ _ _ cause sent); first [assumption | first_error]. }
  destruct Hc1 as (entries & Hentries & Hfirst1 & Htr1 & Hres1).
  cbn [caSends csSends trace result fst snd app].
  destruct (caStream_CloseSend peers) as [cause|] eqn:Hclose.
  { eexists; eexists. split; [reflexivity|]. cbn [trace result]. rewrite Htr1.
    match goal with
    | |- shardRun _ _ _ _ _ _ _ _ _ ?tr _ =>
        replace tr with (announced atTime issuerNameID shardIdx expiresAfter expiresBefore
                         ++ forwarded entries ++ [CA_CloseSend]) by same_trace
    end.
    apply (run_close_send _ _ _ _ _ _ _ _ entries cause);
      first [assumption | first_error]. }
  cbn [caSends csSends trace result fst snd app].
  destruct (cs_UploadCRL peers) as [cause|] eqn:Hcs.
  { eexists; eexists. split; [reflexivity|]. cbn [trace result]. rewrite Htr1.
    match goal with
    | |- shardRun _ _ _ _ _ _ _ _ _ ?tr _ =>
        replace tr with (announced atTime issuerNameID shardIdx expiresAfter expiresBefore
                         ++ forwarded entries ++ [CA_CloseSend; CS_UploadCRL])
          by same_trace
    end.
    apply (run_cs_connect _ _ _ _ _ _ _ _ entries cause);
      first [assumption | first_error]. }
  cbn [caSends csSends trace result fst snd app]. rewrite Hcs1.
  destruct (hd None (csStream_Send peers)) as [cause|] eqn:Hcsmeta.
  { eexists; eexists. split; [reflexivity|]. cbn [trace result]. rewrite Htr1.
    match goal with
    | |- shardRun _ _ _ _ _ _ _ _ _ ?tr _ =>
        replace tr with (handedOver atTime issuerNameID shardIdx expiresAfter
                           expiresBefore entries) by same_trace
    end.
    apply (run_cs_metadata _ _ _ _ _ _ _ _ entries cause);
      first [assumption | first_error]. }
  cbn [caSends csSends trace result fst snd app].
  match goal with
  | |- context [relayChunks crlId (caStream_Recv peers) 0 [] ?s] =>
      destruct (relayChunks_runs crlId (caStream_Recv peers) 0 [] s)
        as (c2 & s2 & Hrun2 & Hc2); rewrite Hrun2
  end.
  cbn [caSends csSends trace result] in Hc2. rewrite Htr1, Hres1 in Hc2.
  destruct c2 as [[len hash]|[err|]| |]; try contradiction.
  2:{ destruct Hc2
        as (Hres & sent & cause & Htr & Hsent & [(-> & Hrecv & Hfirst)|(-> & Hfirst)]);
        eexists; eexists; (split; [reflexivity|]); rewrite Htr, Hres;
        match goal with
        | |- shardRun _ _ _ _ _ _ _ _ _ ?tr _ =>
            replace tr with (handedOver atTime issuerNameID shardIdx expiresAfter
                               expiresBefore entries ++ sent) by same_trace
        end.
      - apply (run_ca_recv _ _ _ _ _ _ _ _ entries cause sent);
          first [assumption | first_error].
      - apply (run_cs_send _ _ _ _ _ _ _ _ entries cause sent);
          first [assumption | first_error]. }
  destruct Hc2 as (chunks & Hchunks & Hfirst2 & -> & -> & Htr2 & Hres2).
  cbn [caSends csSends trace result fst snd app].
  destruct (csStream_CloseAndRecv peers) as [cause|] eqn:Hfinal.
  - eexists; eexists. split; [reflexivity|]. cbn [trace result]. rewrite Htr2.
    match goal with
    | |- shardRun _ _ _ _ _ _ _ _ _ ?tr _ =>
        replace tr with (generated sha256_Sum256 atTime issuerNameID shardIdx crlId
                           expiresAfter expiresBefore entries chunks ++ [CS_CloseAndRecv])
          by same_trace
    end.
    apply (run_close_recv _ _ _ _ _ _ _ _ entries chunks cause);
      first [assumption | first_error].
  - eexists; eexists. split; [reflexivity|]. cbn [trace result]. rewrite Htr2, Hres2.
    match goal with
    | |- shardRun _ _ _ _ _ _ _ _ _ ?tr _ =>
        replace tr with (generated sha256_Sum256 atTime issuerNameID shardIdx crlId
                           expiresAfter expiresBefore entries chunks ++ [CS_CloseAndRecv])
          by same_trace
    end.
    apply (run_success _ _ _ _ _ _ _ _ entries chunks);
      first [assumption | first_error].
Qed.

Lemma forallb_excludes (f : event -> bool) (e : event) (tr : list event) :
  forallb f tr = true -> f e = false -> ~ In e tr.
Proof.
  intros Hall He Hin. rewrite forallb_forall in Hall.
  specialize (Hall e Hin). congruence.
Qed.

Lemma forallb_flat_map_nil {B : Type} (f : event -> bool) (g : event -> list B)
    (tr : list event) :
  (forall e, f e = true -> g e = []) -> forallb f tr = true -> flat_map g tr = [].
Proof.
  intros Hfg. induction tr as [|e tr IH]; [reflexivity|].
  cbn. intros Hall. apply andb_prop in Hall as [He Htr].
  rewrite (Hfg e He), (IH Htr). reflexivity.
Qed.

Lemma forwarded_isForward (entries : list CRLEntry) :
  forallb isForward (forwarded entries) = true.
Proof.
  unfold forwarded. induction entries as [|entry entries IH]; [reflexivity|exact IH].
Qed.

Lemma relayed_isRelay (chunks : list (list byte)) :
  forallb isRelay (relayed chunks) = true.
Proof.
  unfold relayed. induction chunks as [|chunk chunks IH]; [reflexivity|exact IH].
Qed.

Lemma csRequests_isForward (sent : list event) :
  forallb isForward sent = true -> csRequests sent = [].
Proof.
  apply forallb_flat_map_nil. intros [] He; try discriminate; reflexivity.
Qed.

Lemma caRequests_isRelay (sent : list event) :
  forallb isRelay sent = true -> caRequests sent = [].
Proof.
  apply forallb_flat_map_nil. intros [] He; try discriminate; reflexivity.
Qed.

Lemma infoLines_isForward (sent : list event) :
  forallb isForward sent = true -> infoLines sent = [].
Proof.
  apply forallb_flat_map_nil. intros [] He; try discriminate; reflexivity.
Qed.

Lemma infoLines_isRelay (sent : list event) :
  forallb isRelay sent = true -> infoLines sent = [].
Proof.
  apply forallb_flat_map_nil. intros [] He; try discriminate; reflexivity.
Qed.

Lemma caRequests_forwarded (entries : list CRLEntry) :
  caRequests (forwarded entries) = map GenerateCRLRequest_Entry entries.
Proof.
  unfold forwarded. rewrite caRequests_app, caRequests_forward. apply app_nil_r.
Qed.

Lemma streamsOpened_app (tr1 tr2 : list event) :
  streamsOpened (tr1 ++ tr2) = streamsOpened tr1 ++ streamsOpened tr2.
Proof. apply List.filter_app. Qed.

Lemma streamsOpened_isForward (sent : list event) :
  forallb isForward sent = true -> streamsOpened sent = [].
Proof.
  induction sent as [|e sent IH]; [reflexivity|].
  cbn. intros Hall. apply andb_prop in Hall as [He Hsent].
  unfold streamsOpened in *. cbn. rewrite (IH Hsent).
  destruct e; try discriminate; reflexivity.
Qed.

Lemma streamsOpened_isRelay (sent : list event) :
  forallb isRelay sent = true -> streamsOpened sent = [].
Proof.
  induction sent as [|e sent IH]; [reflexivity|].
  cbn. intros Hall. apply andb_prop in Hall as [He Hsent].
  unfold streamsOpened in *. cbn. rewrite (IH Hsent).
  destruct e; try discriminate; reflexivity.
Qed.

Section ShardRunFacts.

Variable crl_Id : Z -> Z -> Z -> error + string.
Variable sha256_Sum256 : list byte -> list byte.

(** Every run of [tickShard] that gets its id, for a known issuer and
    computable boundaries: one of the twelve runs, then the two metric
    updates. *)
Lemma tickShard_runs (cu : crlUpdater) (peers : Peers) (atTime : time.Time)
    (issuerNameID shardIdx : Z) (crlId : string) (issuer : Certificate)
    (expiresAfter expiresBefore : time.Time) :
  crl_Id issuerNameID (time.UnixNano atTime) shardIdx = inr crlId ->
  getShardBoundaries cu atTime shardIdx = Some (expiresAfter, expiresBefore) ->
  issuers cu !! issuerNameID = Some issuer ->
  exists err tr label,
    shardRun sha256_Sum256 peers atTime issuerNameID shardIdx crlId
      expiresAfter expiresBefore err tr label
    /\ tickShard crl_Id sha256_Sum256 cu peers atTime issuerNameID shardIdx
       = (Returned err,
          tr ++ [TickHistogram_Observe (CommonName issuer) label;
                 UpdatedCounter_Inc label]).
Proof.
  intros Hid Hbounds Hissuer.
  destruct (tickShardBody_runs sha256_Sum256 cu peers atTime issuerNameID shardIdx crlId
              expiresAfter expiresBefore Hbounds) as (err & s' & Hbody & Hrun).
  exists err, (trace s'), (result s'). split; [exact Hrun|].
  unfold tickShard, tickShardDeferred. rewrite Hid, Hbody, Hissuer. reflexivity.
Qed.

(** X2.  A revocation list cut short is never signed off: when the SA stream
    breaks before its end, [tickShard] returns an error, the CA stream is
    never half-closed, and the storer is never contacted. *)
Lemma sa_failure_reaches_no_storer (cu : crlUpdater) (peers : Peers)
    (atTime : time.Time) (issuerNameID shardIdx : Z) (crlId : string)
    (issuer : Certificate) (expiresAfter expiresBefore : time.Time) :
  crl_Id issuerNameID (time.UnixNano atTime) shardIdx = inr crlId ->
  getShardBoundaries cu atTime shardIdx = Some (expiresAfter, expiresBefore) ->
  issuers cu !! issuerNameID = Some issuer ->
  received (saStream_Recv peers) = None ->
  let run := tickShard crl_Id sha256_Sum256 cu peers atTime issuerNameID shardIdx in
  (exists err, fst run = Returned (Some err))
  /\ ~ In CA_CloseSend (snd run)
  /\ ~ In CS_UploadCRL (snd run)
  /\ csRequests (snd run) = []
  /\ ~ In CS_CloseAndRecv (snd run)
  /\ infoLines (snd run) = [].
Proof.
  intros Hid Hbounds Hissuer Hbroken run. subst run.
  destruct (tickShard_runs cu peers atTime issuerNameID shardIdx crlId issuer
              expiresAfter expiresBefore Hid Hbounds Hissuer)
    as (err & tr & label & Hrun & ->).
  cbn [fst snd].
  inversion Hrun; subst; try congruence;
    (split; [eexists; reflexivity|]);
    rewrite ?csRequests_app, ?infoLines_app, ?in_app_iff;
    repeat match goal with
           | H : forallb isForward ?sent = true |- _ =>
               pose proof (forallb_excludes _ CA_CloseSend _ H eq_refl);
               pose proof (forallb_excludes _ CS_UploadCRL _ H eq_refl);
               pose proof (forallb_excludes _ CS_CloseAndRecv _ H eq_refl);
               rewrite ?(csRequests_isForward _ H), ?(infoLines_isForward _ H);
               clear H
           end;
    unfold announced, started; cbn; repeat split; try reflexivity;
    intros Hin; repeat (destruct Hin as [Hin|Hin]); solve [discriminate | contradiction].
Qed.

(** X3.  A CRL that did not arrive whole is never committed: when the CA
    stream breaks before its end, [tickShard] returns an error, never
    calls [CloseAndRecv] on the storer stream and logs no CRL as
    generated. *)
Lemma ca_failure_is_never_committed (cu : crlUpdater) (peers : Peers)
    (atTime : time.Time) (issuerNameID shardIdx : Z) (crlId : string)
    (issuer : Certificate) (expiresAfter expiresBefore : time.Time) :
  crl_Id issuerNameID (time.UnixNano atTime) shardIdx = inr crlId ->
  getShardBoundaries cu atTime shardIdx = Some (expiresAfter, expiresBefore) ->
  issuers cu !! issuerNameID = Some issuer ->
  received (caStream_Recv peers) = None ->
  let run := tickShard crl_Id sha256_Sum256 cu peers atTime issuerNameID shardIdx in
  (exists err, fst run = Returned (Some err))
  /\ ~ In CS_CloseAndRecv (snd run)
  /\ infoLines (snd run) = [].
Proof.
  intros Hid Hbounds Hissuer Hbroken run. subst run.
  destruct (tickShard_runs cu peers atTime issuerNameID shardIdx crlId issuer
              expiresAfter expiresBefore Hid Hbounds Hissuer)
    as (err & tr & label & Hrun & ->).
  cbn [fst snd].
  inversion Hrun; subst; try congruence;
    (split; [eexists; reflexivity|]);
    unfold handedOver;
    rewrite ?infoLines_app, ?in_app_iff;
    try pose proof (forallb_excludes _ CS_CloseAndRecv _ (forwarded_isForward entries)
                      eq_refl);
    rewrite ?(infoLines_isForward _ (forwarded_isForward entries));
    repeat match goal with
           | H : forallb isForward ?sent = true |- _ =>
               pose proof (forallb_excludes _ CS_CloseAndRecv _ H eq_refl);
               rewrite ?(infoLines_isForward _ H); clear H
           | H : forallb isRelay ?sent = true |- _ =>
               pose proof (forallb_excludes _ CS_CloseAndRecv _ H eq_refl);
               rewrite ?(infoLines_isRelay _ H); clear H
           end;
    unfold announced, started; cbn; repeat split; try reflexivity;
    intros Hin; repeat (destruct Hin as [Hin|Hin]); solve [discriminate | contradiction].
Qed.

(** X4.  Success is reported for a whole CRL only: when [tickShard] returns
    nil, both streams were read to their end without error and the
    events are those of the run in which everything succeeds, every entry
    forwarded, every chunk relayed, the upload closed. *)
Lemma nil_means_all_relayed (cu : crlUpdater) (peers : Peers)
    (atTime : time.Time) (issuerNameID shardIdx : Z) (crlId : string)
    (issuer : Certificate) (expiresAfter expiresBefore : time.Time) :
  crl_Id issuerNameID (time.UnixNano atTime) shardIdx = inr crlId ->
  getShardBoundaries cu atTime shardIdx = Some (expiresAfter, expiresBefore) ->
  issuers cu !! issuerNameID = Some issuer ->
  fst (tickShard crl_Id sha256_Sum256 cu peers atTime issuerNameID shardIdx)
  = Returned None ->
  exists entries chunks,
    received (saStream_Recv peers) = Some entries
    /\ received (caStream_Recv peers) = Some chunks
    /\ csStream_CloseAndRecv peers = None
    /\ snd (tickShard crl_Id sha256_Sum256 cu peers atTime issuerNameID shardIdx)
       = successTrace atTime issuerNameID shardIdx expiresAfter expiresBefore
           (CommonName issuer) entries chunks
           [ArgString crlId; ArgInt (addLengths 0 chunks);
            ArgBytes (sha256_Sum256 (concat chunks))].
Proof.
  intros Hid Hbounds Hissuer.
  destruct (tickShard_runs cu peers atTime issuerNameID shardIdx crlId issuer
              expiresAfter expiresBefore Hid Hbounds Hissuer)
    as (err & tr & label & Hrun & ->).
  cbn [fst snd]. intros Hnil. injection Hnil as ->.
  inversion Hrun; subst.
  exists entries, chunks. repeat split; try assumption.
  unfold successTrace, generated, handedOver, announced, started, forwarded, relayed.
  cbn [app]. repeat (rewrite <- app_assoc; cbn [app]). reflexivity.
Qed.

(** X5.  [tickShard] returns the error of the first operation that fails,
    and names the CRL: once [crl.Id] has succeeded it returns
    [fmt.Errorf(step, crlId, cause)] where [step] is the format of the
    first operation, in program order, for which a peer returns an error
    and [cause] is that error; and it returns nil when no operation
    fails. *)
Lemma errors_name_the_crl (cu : crlUpdater) (peers : Peers)
    (atTime : time.Time) (issuerNameID shardIdx : Z) (crlId : string)
    (issuer : Certificate) (expiresAfter expiresBefore : time.Time) :
  crl_Id issuerNameID (time.UnixNano atTime) shardIdx = inr crlId ->
  getShardBoundaries cu atTime shardIdx = Some (expiresAfter, expiresBefore) ->
  issuers cu !! issuerNameID = Some issuer ->
  fst (tickShard crl_Id sha256_Sum256 cu peers atTime issuerNameID shardIdx)
  = Returned
      match firstError peers with
      | Some (step, cause) => Some (Errorf step [ArgString crlId; ArgError cause])
      | None => None
      end.
Proof.
  intros Hid Hbounds Hissuer.
  destruct (tickShard_runs cu peers atTime issuerNameID shardIdx crlId issuer
              expiresAfter expiresBefore Hid Hbounds Hissuer)
    as (err & tr & label & Hrun & ->).
  cbn [fst].
  inversion Hrun; subst;
    match goal with H : firstError peers = _ |- _ => rewrite H end; reflexivity.
Qed.

(** X6.  The storer comes last: the streams are opened in the order SA, CA,
    storer, each at most once, and when the storer stream is opened the
    SA stream has been read to its end, the CA has been sent the
    metadata frame and every entry, and its send side has been closed. *)
Lemma storer_comes_last (cu : crlUpdater) (peers : Peers)
    (atTime : time.Time) (issuerNameID shardIdx : Z) (crlId : string)
    (issuer : Certificate) (expiresAfter expiresBefore : time.Time) :
  crl_Id issuerNameID (time.UnixNano atTime) shardIdx = inr crlId ->
  getShardBoundaries cu atTime shardIdx = Some (expiresAfter, expiresBefore) ->
  issuers cu !! issuerNameID = Some issuer ->
  let run := tickShard crl_Id sha256_Sum256 cu peers atTime issuerNameID shardIdx in
  (exists rest,
     [SA_GetRevokedCerts {| IssuerNameID := issuerNameID;
                            ExpiresAfter := time.UnixNano expiresAfter;
                            ExpiresBefore := time.UnixNano expiresBefore;
                            RevokedBefore := time.UnixNano atTime |};
      CA_GenerateCRL; CS_UploadCRL]
     = streamsOpened (snd run) ++ rest)
  /\ (In CS_UploadCRL (snd run) ->
      In CA_CloseSend (snd run)
      /\ exists entries,
           received (saStream_Recv peers) = Some entries
           /\ caRequests (snd run)
              = GenerateCRLRequest_Metadata issuerNameID (time.UnixNano atTime) shardIdx
                :: map GenerateCRLRequest_Entry entries).
Proof.
  intros Hid Hbounds Hissuer run. subst run.
  destruct (tickShard_runs cu peers atTime issuerNameID shardIdx crlId issuer
              expiresAfter expiresBefore Hid Hbounds Hissuer)
    as (err & tr & label & Hrun & ->).
  cbn [fst snd].
  inversion Hrun; subst; unfold generated, handedOver;
    rewrite ?streamsOpened_app, ?caRequests_app, ?in_app_iff;
    rewrite ?caRequests_forwarded, ?(caRequests_isRelay _ (relayed_isRelay _)),
      ?(streamsOpened_isForward _ (forwarded_isForward _)),
      ?(streamsOpened_isRelay _ (relayed_isRelay _));
    try pose proof (forallb_excludes _ CS_UploadCRL _ (forwarded_isForward entries)
                      eq_refl);
    repeat match goal with
           | H : forallb isForward ?sent = true |- _ =>
               pose proof (forallb_excludes _ CS_UploadCRL _ H eq_refl);
               rewrite ?(streamsOpened_isForward _ H); clear H
           | H : forallb isRelay ?sent = true |- _ =>
               rewrite ?(streamsOpened_isRelay _ H), ?(caRequests_isRelay _ H); clear H
           end;
    unfold announced, started; cbn; rewrite ?app_nil_r;
    (split; [eexists; reflexivity|]);
    intros Hin;
    try (exfalso; repeat (destruct Hin as [Hin|Hin]);
         solve [discriminate | contradiction]);
    (split; [tauto | exists entries; split; [assumption | reflexivity]]).
Qed.

End ShardRunFacts.

(** ** NewUpdater: the issuers *)

Lemma issuersByNameID_other (issuerCerts : list Certificate) (id : Z) :
  forall m : gmap Z Certificate,
    Forall (fun c => NameID c <> id) issuerCerts ->
    fold_left (fun m issuer => <[NameID issuer := issuer]> m) issuerCerts m !! id
    = m !! id.
Proof.
  induction issuerCerts as [|c issuerCerts IH]; intros m Hother; [reflexivity|].
  inversion Hother as [|? ? Hc Hrest]; subst.
  cbn [fold_left]. rewrite (IH _ Hrest). apply lookup_insert_ne. exact Hc.
Qed.

Lemma issuersByNameID_listed (issuerCerts : list Certificate) (id : Z)
    (issuer : Certificate) :
  forall m : gmap Z Certificate,
    fold_left (fun m issuer => <[NameID issuer := issuer]> m) issuerCerts m !! id
    = Some issuer ->
    (In issuer issuerCerts /\ NameID issuer = id) \/ m !! id = Some issuer.
Proof.
  induction issuerCerts as [|c issuerCerts IH]; intros m Hlook; [right; exact Hlook|].
  cbn [fold_left] in Hlook.
  destruct (IH _ Hlook) as [[Hin Hid]|Hm].
  - left. split; [right; exact Hin | exact Hid].
  - destruct (Z.eq_dec (NameID c) id) as [Heq|Hne].
    + subst id. rewrite lookup_insert_eq in Hm. injection Hm as ->.
      left. split; [left; reflexivity | reflexivity].
    + rewrite lookup_insert_ne in Hm by exact Hne. right. exact Hm.
Qed.

(** X16.  The updater finds its issuers by NameID: a lookup returns a
    certificate of the list given to [NewUpdater] that has this NameID,
    and of several certificates with one NameID it is the last. *)
Lemma NewUpdater_issuers_by_NameID (issuerCerts : list Certificate)
    (shards : Z) (lifetime period offset : time.Duration) (parallelism : Z)
    (cu : crlUpdater) :
  NewUpdater issuerCerts shards lifetime period offset parallelism = inr cu ->
  (forall (id : Z) (issuer : Certificate),
     issuers cu !! id = Some issuer -> In issuer issuerCerts /\ NameID issuer = id)
  /\ (forall (earlier later : list Certificate) (issuer : Certificate),
        issuerCerts = earlier ++ issuer :: later ->
        Forall (fun c => NameID c <> NameID issuer) later ->
        issuers cu !! NameID issuer = Some issuer)
  /\ (forall id : Z,
        Forall (fun c => NameID c <> id) issuerCerts -> issuers cu !! id = None).
Proof.
  unfold NewUpdater. intros Hcu.
  destruct (shards <? 1); [discriminate|].
  destruct (7 * 24 * time.Hour <=? period); [discriminate|].
  destruct (period <=? offset); [discriminate|].
  injection Hcu as <-. cbn [issuers].
  split; [|split].
  - intros id issuer Hlook.
    destruct (issuersByNameID_listed issuerCerts id issuer _ Hlook) as [Hin|Hempty];
      [exact Hin|].
    rewrite lookup_empty in Hempty. discriminate.
  - intros earlier later issuer -> Hlater.
    rewrite fold_left_app. cbn [fold_left].
    rewrite (issuersByNameID_other later _ _ Hlater). apply lookup_insert_eq.
  - intros id Hnone. rewrite (issuersByNameID_other issuerCerts id _ Hnone).
    apply lookup_empty.
Qed.

(** ** NewUpdater: the look-forward buffer *)



(** X18.  With a single shard it does not: the shard is as wide as the whole
    window, and the look-forward period exceeds the lifetime by four
    fifths of it. *)
Lemma single_shard_has_no_overshoot (issuerCerts : list Certificate)
    (lifetime period offset : time.Duration) (parallelism : Z) :
  validConfig 1 lifetime period offset ->
  windowFits 1 lifetime period ->
  exists cu,
    NewUpdater issuerCerts 1 lifetime period offset parallelism = inr cu
    /\ shardWidth cu = 5 * (4 * period + lifetime)
    /\ lookforwardPeriod cu = lifetime + 4 * (4 * period + lifetime)
    /\ lookforwardPeriod cu < lifetime + shardWidth cu.
Proof.
  intros Hv Hfit.
  destruct (NewUpdater_exact issuerCerts 1 lifetime period offset parallelism Hv Hfit)
    as (cu & Hcu & Hshards & HL & HLpos & HFpos & HW & Hbound & Hmod).
  exists cu. split; [exact Hcu|].
  unfold windowFits, validConfig, exactWindow in *.
  rewrite Z.div_1_r in *.
  assert (Hsw : shardWidth cu = windowWidth cu).
  { unfold shardWidth. rewrite Hshards.
    rewrite quot64_nonneg by (unfold maxInt64 in *; lia). apply Z.div_1_r. }
  lia.
Qed.

(** ** Run *)

(** X19.  The first tick falls on the configured offset: for a positive
    period, an offset from 0 up to the period and a clock from 1970 to
    2262, the wait is shorter than one period and ends at the first
    instant from now on whose Unix time in nanoseconds is the offset
    modulo the period. *)
Lemma first_tick_is_aligned (cu : crlUpdater) (now : time.Time) :
  0 < updatePeriod cu <= maxInt64 ->
  0 <= updateOffset cu < updatePeriod cu ->
  0 <= now - time.unixToInternal * time.Second <= maxInt64 ->
  exists wait,
    waitNanos cu now = Some wait
    /\ 0 <= wait < updatePeriod cu
    /\ (time.UnixNano now + wait) mod updatePeriod cu = updateOffset cu
    /\ forall sooner, 0 <= sooner < wait ->
         (time.UnixNano now + sooner) mod updatePeriod cu <> updateOffset cu.
Proof.
  intros Hp Ho Hnow.
  assert (Hunix : time.UnixNano now = now - time.unixToInternal * time.Second).
  { unfold time.UnixNano. apply wrap64_small.
    unfold inInt64, minInt64, maxInt64 in *. lia. }
  unfold waitNanos. rewrite Hunix.
  set (u := now - time.unixToInternal * time.Second) in *.
  set (p := updatePeriod cu) in *. set (o := updateOffset cu) in *.
  destruct (Z.eqb_spec p 0) as [Hz|_]; [lia|].
  rewrite rem64_nonneg by lia.
  pose proof (Z.div_mod u p ltac:(lia)) as Hdm.
  pose proof (Z.mod_pos_bound u p ltac:(lia)) as Hm.
  set (q := u / p) in *. set (c := u mod p) in *.
  assert (Haligned : forall w, 0 <= w < p -> (u + w) mod p = o -> w = o - c \/ w = p - c + o).
  { intros w Hw Hmod.
    pose proof (Z.div_mod (u + w) p ltac:(lia)) as Hdm'.
    rewrite Hmod in Hdm'.
    assert (Hk : (u + w) / p = q \/ (u + w) / p = q + 1) by nia.
    destruct Hk as [Hk|Hk]; rewrite Hk in Hdm'; lia. }
  destruct (Z.leb_spec c o) as [Hle|Hgt].
  - exists (o - c).
    assert (Hs : sub64 o c = o - c).
    { apply wrap64_small. unfold inInt64, minInt64, maxInt64 in *. lia. }
    rewrite Hs. split; [reflexivity|]. split; [lia|]. split.
    + replace (u + (o - c)) with (o + q * p) by lia.
      rewrite Z.mod_add by lia. apply Z.mod_small. lia.
    + intros sooner Hsooner Hmod.
      destruct (Haligned sooner ltac:(lia) Hmod); lia.
  - exists (p - c + o).
    assert (Hs : sub64 p c = p - c).
    { apply wrap64_small. unfold inInt64, minInt64, maxInt64 in *. lia. }
    assert (Ha : add64 (p - c) o = p - c + o).
    { apply wrap64_small. unfold inInt64, minInt64, maxInt64 in *. lia. }
    rewrite Hs, Ha. split; [reflexivity|]. split; [lia|]. split.
    + replace (u + (p - c + o)) with (o + (q + 1) * p) by lia.
      rewrite Z.mod_add by lia. apply Z.mod_small. lia.
    + intros sooner Hsooner Hmod.
      destruct (Haligned sooner ltac:(lia) Hmod); lia.
Qed.

(** X20.  [NewUpdater] accepts a period of zero with a negative offset, and
    [Run] then divides by zero before its first tick, whatever the
    clock. *)
Lemma zero_period_is_accepted (issuerCerts : list Certificate)
    (shards : Z) (lifetime offset : time.Duration) (parallelism : Z) :
  1 <= shards -> offset < 0 ->
  exists cu,
    NewUpdater issuerCerts shards lifetime 0 offset parallelism = inr cu
    /\ updatePeriod cu = 0
    /\ forall now, waitNanos cu now = None.
Proof.
  intros Hn Ho. unfold NewUpdater.
  destruct (Z.ltb_spec shards 1); [lia|].
  destruct (Z.leb_spec (7 * 24 * time.Hour) 0) as [Hbad|_];
    [unfold time.Hour, time.Second in Hbad; lia|].
  destruct (Z.leb_spec 0 offset); [lia|].
  eexists. split; [reflexivity|]. split; [reflexivity|].
  intros now. reflexivity.
Qed.

(** ** getShardBoundaries: the shards of one tick *)

(** X11.  No instant lies in two shards: the intervals that one tick assigns
    to two shards do not overlap, from the zero Time to 2^65 ns before
    the end of the range of Time. *)
Lemma shards_are_disjoint (cu : crlUpdater) (atTime : time.Time) (i j : Z) :
  wellFormed cu -> 0 <= atTime -> time.awayFromEnds atTime ->
  0 <= i < j -> j < numShards cu ->
  exists iStart iEnd jStart jEnd,
    getShardBoundaries cu atTime i = Some (iStart, iEnd)
    /\ getShardBoundaries cu atTime j = Some (jStart, jEnd)
    /\ (iEnd <= jStart \/ jEnd <= iStart).
Proof.
  intros Hwf Ht Haway Hi Hj. destruct (wellFormed_widths cu Hwf) as (HW & Hsw & Hmul).
  pose proof (atTimeOffset_bounds cu atTime Hwf Ht) as Hoff.
  rewrite (getShardBoundaries_exact cu atTime i Hwf Ht Haway ltac:(lia)).
  rewrite (getShardBoundaries_exact cu atTime j Hwf Ht Haway ltac:(lia)).
  cbv zeta.
  set (off := atTimeOffset cu atTime) in *. set (sw := shardWidth cu) in *.
  set (W := windowWidth cu) in *.
  assert (Hij : (i + 1) * sw <= j * sw) by nia.
  assert (HjW : (j + 1) * sw <= W) by nia.
  repeat match goal with
         | |- context [if ?a <? ?b then _ else _] => destruct (Z.ltb_spec a b)
         end;
    do 4 eexists; (split; [reflexivity|]); (split; [reflexivity|]); nia.
Qed.


(** X14.  The boundaries only move by whole windows, up to 2^63 - 1 ns after
    the zero Time: between two instants the interval of a shard stays
    where it is or moves forward by a multiple of windowWidth. *)
Lemma boundaries_move_by_whole_windows (cu : crlUpdater) (t1 t2 : time.Time)
    (shardIdx : Z) :
  wellFormed cu -> 0 <= t1 <= t2 -> t2 <= time.maxDuration ->
  0 <= shardIdx < numShards cu ->
  exists shardStart shardEnd epochs,
    getShardBoundaries cu t1 shardIdx = Some (shardStart, shardEnd)
    /\ getShardBoundaries cu t2 shardIdx
       = Some (shardStart + epochs * windowWidth cu, shardEnd + epochs * windowWidth cu)
    /\ 0 <= epochs.
Proof.
  intros Hwf Ht1 Ht2 Hi. destruct (wellFormed_widths cu Hwf) as (HW & Hsw & Hmul).
  rewrite (getShardBoundaries_exact cu t1 shardIdx Hwf ltac:(lia)
             (awayFromEnds_early t1 ltac:(lia)) Hi).
  rewrite (getShardBoundaries_exact cu t2 shardIdx Hwf ltac:(lia)
             (awayFromEnds_early t2 ltac:(lia)) Hi).
  rewrite (atTimeOffset_unsaturated cu t1 Hwf ltac:(lia)).
  rewrite (atTimeOffset_unsaturated cu t2 Hwf ltac:(lia)).
  pose proof Hwf as (Hn & HL & HF & Hmax & Hmod).
  set (sw := shardWidth cu) in *. set (W := windowWidth cu) in *.
  pose proof (Z.div_mod t1 W ltac:(lia)) as Hdm1.
  pose proof (Z.div_mod t2 W ltac:(lia)) as Hdm2.
  pose proof (Z.mod_pos_bound t1 W ltac:(lia)) as Hm1.
  pose proof (Z.mod_pos_bound t2 W ltac:(lia)) as Hm2.
  assert (Hk : t1 / W <= t2 / W) by (apply Z.div_le_mono; lia).
  set (k1 := t1 / W) in *. set (k2 := t2 / W) in *.
  replace (t1 - t1 mod W) with (W * k1) by lia.
  replace (t2 - t2 mod W) with (W * k2) by lia.
  cbv zeta.
  destruct (Z.ltb_spec (W * k1 + shardIdx * sw + sw) (t1 - lookbackPeriod cu)) as [H1|H1];
    destruct (Z.ltb_spec (W * k2 + shardIdx * sw + sw) (t2 - lookbackPeriod cu)) as [H2|H2].
  - exists (W * k1 + shardIdx * sw + W), (W * k1 + shardIdx * sw + sw + W), (k2 - k1).
    split; [reflexivity|]. split; [do 2 f_equal; lia | lia].
  - assert (Hlt : k1 < k2) by nia.
    exists (W * k1 + shardIdx * sw + W), (W * k1 + shardIdx * sw + sw + W), (k2 - k1 - 1).
    split; [reflexivity|]. split; [do 2 f_equal; lia | lia].
  - exists (W * k1 + shardIdx * sw), (W * k1 + shardIdx * sw + sw), (k2 - k1 + 1).
    split; [reflexivity|]. split; [do 2 f_equal; lia | lia].
  - exists (W * k1 + shardIdx * sw), (W * k1 + shardIdx * sw + sw), (k2 - k1).
    split; [reflexivity|]. split; [do 2 f_equal; lia | lia].
Qed.

(** X15.  The shard index counts modulo numShards: an index beyond the last
    shard names the shard it is congruent to. *)
Lemma shard_index_wraps_around (cu : crlUpdater) (atTime : time.Time)
    (shardIdx laps : Z) :
  0 < numShards cu -> 0 <= shardIdx -> 0 <= laps ->
  getShardBoundaries cu atTime (shardIdx + laps * numShards cu)
  = getShardBoundaries cu atTime shardIdx.
Proof.
  intros Hn Hi Hlaps.
  assert (Hrem : Z.rem (shardIdx + laps * numShards cu) (numShards cu)
                 = Z.rem shardIdx (numShards cu)).
  { rewrite !Z.rem_mod_nonneg by nia. apply Z.mod_add. lia. }
  unfold getShardBoundaries, anchoredShard, shardOffset, rem64.
  rewrite Hrem. reflexivity.
Qed.

(** X13.  A certificate that expired within the look-back period is in a shard
    exactly when it expired at or after the anchor [zeroStart]: what
    expired before the anchor is in no shard of this tick.  So it is from
    the zero Time to 2^65 ns before the end of the range of Time. *)
Lemma lookback_is_covered_from_the_anchor (cu : crlUpdater) (atTime expired : time.Time) :
  wellFormed cu -> 0 <= atTime -> time.awayFromEnds atTime ->
  atTime - lookbackPeriod cu <= expired < atTime ->
  (exists shardIdx shardStart shardEnd,
     0 <= shardIdx < numShards cu
     /\ getShardBoundaries cu atTime shardIdx = Some (shardStart, shardEnd)
     /\ shardStart <= expired < shardEnd)
  <-> zeroStart cu atTime <= expired.
Proof.
  intros Hwf Ht Haway Hx. destruct (wellFormed_widths cu Hwf) as (HW & Hsw & Hmul).
  pose proof (atTimeOffset_bounds cu atTime Hwf Ht) as Hoff.
  assert (Hzero : zeroStart cu atTime = atTime - atTimeOffset cu atTime)
    by exact (zeroStart_exact cu atTime Hwf Ht Haway).
  rewrite Hzero.
  set (off := atTimeOffset cu atTime) in *. set (sw := shardWidth cu) in *.
  set (W := windowWidth cu) in *.
  split.
  - intros (i & s & e & Hi & Hb & Hin).
    rewrite (getShardBoundaries_exact cu atTime i Hwf Ht Haway Hi) in Hb. cbv zeta in Hb.
    fold off sw W in Hb.
    destruct (atTime - off + i * sw + sw <? atTime - lookbackPeriod cu);
      injection Hb as <- <-; nia.
  - intros Hge.
    set (y := expired - (atTime - off)).
    pose proof (Z.div_mod y sw ltac:(lia)) as Hdm.
    pose proof (Z.mod_pos_bound y sw Hsw) as Hm.
    assert (Hi : 0 <= y / sw < numShards cu).
    { split; [apply Z.div_pos; lia|]. apply Z.div_lt_upper_bound; lia. }
    exists (y / sw).
    rewrite (getShardBoundaries_exact cu atTime (y / sw) Hwf Ht Haway Hi). cbv zeta.
    fold off sw W.
    destruct (Z.ltb_spec (atTime - off + y / sw * sw + sw) (atTime - lookbackPeriod cu));
      [subst y; nia|].
    do 2 eexists. split; [exact Hi|]. split; [reflexivity|]. subst y. nia.
Qed.

(** ** The worker pool of tickIssuer *)

Lemma completions_length (sched : list nat) :
  forall (running : list Z) (next n P : Z),
    (length (completions sched running next n P) <= length sched)%nat.
Proof.
  induction sched as [|pick sched IH]; intros running next n P; [reflexivity|].
  cbn [completions]. destruct (startShards running next n P) as [running' next'].
  destruct (running' !! _); cbn [length]; [|lia].
  specialize (IH (delete (pick mod length running')%nat running') next' n P). lia.
Qed.

(** ** The goroutines of tickIssuer *)

Lemma seqZ_snoc (k : Z) : 0 <= k -> seqZ 0 (k + 1) = seqZ 0 k ++ [k].
Proof.
  intros Hk. rewrite seqZ_app by lia. reflexivity.
Qed.

Lemma held_insert (ws : list pool.worker) (j : nat) (w w' : pool.worker) :
  ws !! j = Some w ->
  exists rest,
    pool.held ws ≡ₚ pool.holds w ++ rest
    /\ pool.held (<[j := w']> ws) ≡ₚ pool.holds w' ++ rest.
Proof.
  intros Hj. exists (pool.held (take j ws) ++ pool.held (drop (S j) ws)).
  assert (Hlen : (j < length ws)%nat) by (apply lookup_lt_Some in Hj; exact Hj).
  split.
  - rewrite <- (take_drop_middle ws j w Hj) at 1.
    unfold pool.held. rewrite flat_map_app. cbn [flat_map].
    apply Permutation_app_swap_app.
  - rewrite (insert_take_drop ws j w' Hlen).
    unfold pool.held. rewrite flat_map_app. cbn [flat_map].
    apply Permutation_app_swap_app.
Qed.

(** The fields of a state built by a step. *)
Ltac pool_simpl :=
  unfold pool.fed, pool.setCoord, pool.setWorker;
  cbn [pool.idxs pool.idxsClosed pool.results pool.workers pool.coord pool.ctxDone
       pool.panicked pool.taken pool.sent].

Section PoolFacts.

Variable crl_Id : Z -> Z -> Z -> error + string.
Variable sha256_Sum256 : list byte -> list byte.
Variable cu : crlUpdater.
Variable peers : Z -> Peers.
Variable atTime : time.Time.
Variable issuerNameID : Z.

Lemma shardWorker_index (idx : Z) (res : shardResult) :
  shardWorker crl_Id sha256_Sum256 cu peers atTime issuerNameID idx = Some res ->
  res_shardIdx res = idx
  /\ fst (tickShard crl_Id sha256_Sum256 cu (peers idx) atTime issuerNameID idx)
     = Returned (res_err res).
Proof.
  unfold shardWorker.
  destruct (fst (tickShard _ _ _ _ _ _ _)) as [err| |]; [|discriminate..].
  intros [= <-]. split; reflexivity.
Qed.

Lemma start_invariant :
  0 <= numShards cu ->
  pool.invariant crl_Id sha256_Sum256 cu peers atTime issuerNameID (pool.start cu).
Proof.
  intros Hn. constructor; cbn.
  - lia.
  - reflexivity.
  - apply submseteq_nil_l.
  - exists []. split; reflexivity.
  - split; constructor.
  - split; lia.
Qed.

Lemma step_invariant (a : pool.action) (st st' : pool.state) :
  0 <= numShards cu ->
  pool.invariant crl_Id sha256_Sum256 cu peers atTime issuerNameID st ->
  pool.step crl_Id sha256_Sum256 cu peers atTime issuerNameID a st = Some st' ->
  pool.invariant crl_Id sha256_Sum256 cu peers atTime issuerNameID st'.
Proof.
  intros Hn [Hfed Htaken Hheld (collected & Hsent & Hcoll) (Hres & Hws) (Hlen & Hspawn)].
  unfold pool.step. destruct (pool.panicked st); [discriminate|].
  destruct a as [|j|].
  - unfold pool.stepMain, pool.fed in *.
    destruct (pool.coord st) as [i|shardIdx|i|err] eqn:Hcoord; [| | |discriminate].
    + destruct (Z.ltb_spec i (maxParallelism cu)) as [Hlt|Hge]; intros [= <-];
        constructor; pool_simpl.
      * exact Hfed.
      * exact Htaken.
      * unfold pool.held in *. rewrite flat_map_app. cbn. rewrite app_nil_r. exact Hheld.
      * exists collected. split; [exact Hsent | exact Hcoll].
      * split; [exact Hres|]. apply Forall_app. split; [exact Hws | repeat constructor].
      * rewrite length_app. cbn. lia.
      * exact Hfed.
      * exact Htaken.
      * exact Hheld.
      * exists collected. split; [exact Hsent | exact Hcoll].
      * split; [exact Hres | exact Hws].
      * split; [exact Hlen | exact I].
    + destruct (Z.ltb_spec shardIdx (numShards cu)) as [Hlt|Hge].
      * destruct (Z.of_nat (length (pool.idxs st)) <? numShards cu); [|discriminate].
        intros [= <-]. constructor; pool_simpl.
        -- lia.
        -- rewrite app_assoc, Htaken. symmetry. apply seqZ_snoc. lia.
        -- exact Hheld.
        -- exists collected. split; [exact Hsent | exact Hcoll].
        -- split; [exact Hres | exact Hws].
        -- split; [exact Hlen | exact I].
      * intros [= <-]. constructor; pool_simpl.
        -- lia.
        -- rewrite Htaken. f_equal. lia.
        -- exact Hheld.
        -- exists collected. split; [exact Hsent|]. cbn in Hcoll. subst collected.
           split; [reflexivity | constructor].
        -- split; [exact Hres | exact Hws].
        -- split; [exact Hlen | exact I].
    + cbn in Hcoll. destruct Hcoll as (Hi & Hnil).
      destruct (Z.ltb_spec i (numShards cu)) as [Hlt|Hge].
      * destruct (pool.results st) as [|res rest] eqn:Hresults; [discriminate|].
        intros [= <-]. constructor; pool_simpl.
        -- destruct (res_err res); exact Hfed.
        -- destruct (res_err res); exact Htaken.
        -- exact Hheld.
        -- exists (collected ++ [res]). split.
           ++ rewrite Hsent, <- app_assoc. reflexivity.
           ++ destruct (res_err res) as [err|] eqn:Herr; [exact I|]. cbn. split.
              ** rewrite length_app. cbn. lia.
              ** apply Forall_app. split; [exact Hnil | repeat constructor; exact Herr].
        -- split; [exact Hres | exact Hws].
        -- split; [exact Hlen|]. destruct (res_err res); exact I.
      * intros [= <-]. constructor; pool_simpl.
        -- exact Hfed.
        -- exact Htaken.
        -- exact Hheld.
        -- exists collected. split; [exact Hsent|]. split; [lia | exact Hnil].
        -- split; [exact Hres | exact Hws].
        -- split; [exact Hlen | exact I].
  - unfold pool.stepWorker.
    destruct (pool.workers st !! j) as [w|] eqn:Hj; [|discriminate].
    destruct (held_insert (pool.workers st) j w pool.Exited Hj) as (rest & Hold & _).
    assert (Hnew : forall w', pool.held (<[j := w']> (pool.workers st))
                              ≡ₚ pool.holds w' ++ rest).
    { intros w'. destruct (held_insert (pool.workers st) j w w' Hj) as (rest' & Hold' & Hnew').
      rewrite Hnew'. apply Permutation_app_head.
      rewrite Hold in Hold'. apply Permutation_app_inv_l in Hold'. symmetry. exact Hold'. }
    rewrite Hold in Hheld.
    destruct w as [|idx|res|]; [| | |discriminate].
    + destruct (pool.idxs st) as [|idx idxs] eqn:Hidxs.
      * destruct (pool.idxsClosed st); [|discriminate]. intros [= <-].
        constructor; pool_simpl.
        -- exact Hfed.
        -- rewrite Hidxs. exact Htaken.
        -- rewrite Hnew. exact Hheld.
        -- exists collected. split; [exact Hsent | exact Hcoll].
        -- split; [exact Hres|]. apply Forall_insert; [exact Hws | exact I].
        -- rewrite length_insert. split; [exact Hlen | exact Hspawn].
      * intros [= <-]. constructor; pool_simpl.
        -- exact Hfed.
        -- rewrite <- app_assoc. exact Htaken.
        -- rewrite Hnew. cbn. apply (submseteq_cons_middle idx _ (pool.taken st) []).
           rewrite app_nil_r. exact Hheld.
        -- exists collected. split; [exact Hsent | exact Hcoll].
        -- split; [exact Hres|]. apply Forall_insert; [exact Hws | exact I].
        -- rewrite length_insert. split; [exact Hlen | exact Hspawn].
    + destruct (pool.ctxDone st).
      * intros [= <-]. constructor; pool_simpl.
        -- exact Hfed.
        -- exact Htaken.
        -- rewrite Hnew. cbn. cbn in Hheld.
           etransitivity; [|exact Hheld]. apply submseteq_cons. reflexivity.
        -- exists collected. split; [exact Hsent | exact Hcoll].
        -- split; [exact Hres|]. apply Forall_insert; [exact Hws | exact I].
        -- rewrite length_insert. split; [exact Hlen | exact Hspawn].
      * destruct (shardWorker _ _ _ _ _ _ idx) as [res|] eqn:Htick; intros [= <-];
          constructor; pool_simpl.
        -- exact Hfed.
        -- exact Htaken.
        -- destruct (shardWorker_index idx res Htick) as (Hidx & _).
           rewrite Hnew. cbn. rewrite Hidx. exact Hheld.
        -- exists collected. split; [exact Hsent | exact Hcoll].
        -- split; [exact Hres|]. apply Forall_insert; [exact Hws|].
           destruct (shardWorker_index idx res Htick) as (Hidx & _).
           unfold pool.ticked. rewrite Hidx. exact Htick.
        -- rewrite length_insert. split; [exact Hlen | exact Hspawn].
        -- exact Hfed.
        -- exact Htaken.
        -- rewrite Hold. exact Hheld.
        -- exists collected. split; [exact Hsent | exact Hcoll].
        -- split; [exact Hres | exact Hws].
        -- split; [exact Hlen | exact Hspawn].
    + destruct (Z.of_nat (length (pool.results st)) <? numShards cu); [|discriminate].
      intros [= <-]. constructor; pool_simpl.
      * exact Hfed.
      * exact Htaken.
      * rewrite Hnew, fmap_app. cbn. cbn in Hheld.
        etransitivity; [|exact Hheld].
        rewrite (Permutation_app_comm (res_shardIdx <$> pool.sent st)). cbn.
        rewrite Permutation_middle. reflexivity.
      * exists collected. split; [|exact Hcoll]. rewrite Hsent, app_assoc. reflexivity.
      * split.
        -- apply Forall_app. split; [exact Hres|]. repeat constructor.
           exact (proj1 (Forall_lookup _ _) Hws j _ Hj).
        -- apply Forall_insert; [exact Hws | exact I].
      * rewrite length_insert. split; [exact Hlen | exact Hspawn].
  - intros [= <-]. constructor; pool_simpl.
    + exact Hfed.
    + exact Htaken.
    + exact Hheld.
    + exists collected. split; [exact Hsent | exact Hcoll].
    + split; [exact Hres | exact Hws].
    + split; [exact Hlen | exact Hspawn].
Qed.

Lemma exec_invariant (schedule : list pool.action) :
  forall st st' : pool.state,
    0 <= numShards cu ->
    pool.invariant crl_Id sha256_Sum256 cu peers atTime issuerNameID st ->
    pool.exec crl_Id sha256_Sum256 cu peers atTime issuerNameID schedule st = Some st' ->
    pool.invariant crl_Id sha256_Sum256 cu peers atTime issuerNameID st'.
Proof.
  induction schedule as [|a schedule IH]; intros st st' Hn Hinv; cbn [pool.exec].
  - intros [= <-]. exact Hinv.
  - destruct (pool.step _ _ _ _ _ _ a st) as [st1|] eqn:Hstep; [|discriminate].
    apply (IH st1 st' Hn). exact (step_invariant a st st1 Hn Hinv Hstep).
Qed.

(** No goroutine moves once one has panicked. *)
Lemma exec_panicked (schedule : list pool.action) (st st' : pool.state) :
  pool.panicked st = true ->
  pool.exec crl_Id sha256_Sum256 cu peers atTime issuerNameID schedule st = Some st' ->
  st' = st.
Proof.
  intros Hp. destruct schedule as [|a schedule]; cbn [pool.exec].
  - intros [= <-]. reflexivity.
  - unfold pool.step. rewrite Hp. discriminate.
Qed.

Lemma reachable_invariant (schedule : list pool.action) (st : pool.state) :
  0 <= numShards cu ->
  pool.exec crl_Id sha256_Sum256 cu peers atTime issuerNameID schedule (pool.start cu)
  = Some st ->
  pool.invariant crl_Id sha256_Sum256 cu peers atTime issuerNameID st.
Proof.
  intros Hn. apply exec_invariant; [exact Hn | exact (start_invariant Hn)].
Qed.

Lemma reachable_unstarted (schedule : list pool.action) (st : pool.state) :
  numShards cu < 0 ->
  pool.exec crl_Id sha256_Sum256 cu peers atTime issuerNameID schedule (pool.start cu)
  = Some st ->
  st = pool.start cu.
Proof.
  intros Hn. apply exec_panicked. cbn. apply Z.ltb_lt. exact Hn.
Qed.

(** The indices of the results sent are among the shards. *)
Lemma sent_among_shards (st : pool.state) :
  0 <= numShards cu ->
  pool.invariant crl_Id sha256_Sum256 cu peers atTime issuerNameID st ->
  pool.held (pool.workers st) ++ (res_shardIdx <$> pool.sent st)
  ⊆+ seqZ 0 (numShards cu)
  /\ pool.taken st `prefix_of` seqZ 0 (numShards cu).
Proof.
  intros Hn [Hfed Htaken Hheld _ _ _].
  assert (Hprefix : pool.taken st `prefix_of` seqZ 0 (numShards cu)).
  { exists (pool.idxs st ++ seqZ (pool.fed cu st) (numShards cu - pool.fed cu st)).
    rewrite app_assoc, Htaken, <- seqZ_app by lia. f_equal. lia. }
  split; [|exact Hprefix].
  etransitivity; [exact Hheld|].
  destruct Hprefix as [rest ->]. apply submseteq_inserts_r. reflexivity.
Qed.

(** X27.  A failing shard is not masked: in every interleaving of the
    goroutines, whatever the order in which the workers take and finish
    their shards, [tickIssuer] returns nil only when [tickShard] has
    returned nil for every shard from 0 to numShards - 1. *)
Lemma nil_means_every_shard_succeeded (schedule : list pool.action) (st : pool.state) :
  pool.exec crl_Id sha256_Sum256 cu peers atTime issuerNameID schedule (pool.start cu)
  = Some st ->
  pool.coord st = pool.Returning None ->
  forall idx, 0 <= idx < numShards cu ->
    fst (tickShard crl_Id sha256_Sum256 cu (peers idx) atTime issuerNameID idx)
    = Returned None.
Proof.
  intros Hexec Hret idx Hidx.
  assert (Hn : 0 <= numShards cu) by lia.
  pose proof (reachable_invariant schedule st Hn Hexec) as Hinv.
  destruct (sent_among_shards st Hn Hinv) as (Hamong & _).
  destruct Hinv as [_ _ _ (collected & Hsent & Hcoll) (Hticked & _) _].
  rewrite Hret in Hcoll. cbn in Hcoll. destruct Hcoll as (Hall & Hnil).
  assert (Hperm : res_shardIdx <$> collected ≡ₚ seqZ 0 (numShards cu)).
  { apply submseteq_length_Permutation.
    - etransitivity; [|exact Hamong].
      rewrite Hsent, fmap_app. apply submseteq_inserts_l, submseteq_inserts_r. reflexivity.
    - rewrite length_seqZ, length_fmap. lia. }
  assert (Hin : idx ∈ res_shardIdx <$> collected).
  { rewrite Hperm. apply elem_of_seqZ. lia. }
  apply list_elem_of_fmap in Hin as (res & -> & Hres).
  assert (Hres' : res ∈ pool.sent st) by (rewrite Hsent; apply elem_of_app; left; exact Hres).
  pose proof (proj1 (Forall_forall _ _) Hticked res Hres') as Htick.
  destruct (shardWorker_index _ _ Htick) as (_ & ->).
  rewrite (proj1 (Forall_forall _ _) Hnil res Hres). reflexivity.
Qed.

(** X21.  Each shard is run at most once: in every interleaving the
    workers take the shards from the channel in index order, no shard has
    two results, and every result sent is what [tickShard] returned for a
    shard from 0 to numShards - 1. *)
Lemma no_shard_runs_twice (schedule : list pool.action) (st : pool.state) :
  pool.exec crl_Id sha256_Sum256 cu peers atTime issuerNameID schedule (pool.start cu)
  = Some st ->
  pool.taken st `prefix_of` seqZ 0 (numShards cu)
  /\ NoDup (res_shardIdx <$> pool.sent st)
  /\ Forall (fun res =>
               0 <= res_shardIdx res < numShards cu
               /\ fst (tickShard crl_Id sha256_Sum256 cu (peers (res_shardIdx res))
                         atTime issuerNameID (res_shardIdx res))
                  = Returned (res_err res))
       (pool.sent st).
Proof.
  intros Hexec.
  destruct (Z.lt_ge_cases (numShards cu) 0) as [Hneg|Hn].
  { rewrite (reachable_unstarted schedule st Hneg Hexec). cbn.
    split; [apply prefix_nil|]. split; constructor. }
  pose proof (reachable_invariant schedule st Hn Hexec) as Hinv.
  destruct (sent_among_shards st Hn Hinv) as (Hamong & Hprefix).
  destruct Hinv as [_ _ _ _ (Hticked & _) _].
  assert (Hsent : res_shardIdx <$> pool.sent st ⊆+ seqZ 0 (numShards cu)).
  { etransitivity; [|exact Hamong]. apply submseteq_inserts_l. reflexivity. }
  split; [exact Hprefix|]. split.
  - destruct (submseteq_Permutation _ _ Hsent) as [rest Hperm].
    pose proof (NoDup_seqZ 0 (numShards cu)) as Hnodup.
    rewrite Hperm in Hnodup. apply NoDup_app in Hnodup as (Hnodup & _). exact Hnodup.
  - apply Forall_forall. intros res Hres. split.
    + assert (Hin : res_shardIdx res ∈ seqZ 0 (numShards cu)).
      { apply (elem_of_submseteq _ _ _ (list_elem_of_fmap_2 res_shardIdx _ _ Hres) Hsent). }
      apply elem_of_seqZ in Hin. lia.
    + pose proof (proj1 (Forall_forall _ _) Hticked res Hres) as Htick.
      exact (proj2 (shardWorker_index _ _ Htick)).
Qed.

Lemma held_length (ws : list pool.worker) :
  (length (pool.held ws) <= length ws)%nat.
Proof.
  induction ws as [|w ws IH]; [reflexivity|].
  unfold pool.held in *. cbn [flat_map]. rewrite length_app.
  destruct w; cbn [pool.holds length]; lia.
Qed.

(** X22.  At most maxParallelism shards are in progress: in every
    interleaving, the shards that workers have taken and not yet
    answered are distinct and no more than maxParallelism. *)
Lemma in_progress_at_most_maxParallelism (schedule : list pool.action)
    (st : pool.state) :
  pool.exec crl_Id sha256_Sum256 cu peers atTime issuerNameID schedule (pool.start cu)
  = Some st ->
  Z.of_nat (length (pool.held (pool.workers st))) <= Z.max 0 (maxParallelism cu)
  /\ NoDup (pool.held (pool.workers st)).
Proof.
  intros Hexec.
  destruct (Z.lt_ge_cases (numShards cu) 0) as [Hneg|Hn].
  { rewrite (reachable_unstarted schedule st Hneg Hexec). cbn.
    split; [lia | constructor]. }
  pose proof (reachable_invariant schedule st Hn Hexec) as Hinv.
  destruct (sent_among_shards st Hn Hinv) as (Hamong & _).
  destruct Hinv as [_ _ _ _ _ (Hlen & _)].
  split.
  - pose proof (held_length (pool.workers st)). lia.
  - assert (Hheld : pool.held (pool.workers st) ⊆+ seqZ 0 (numShards cu)).
    { etransitivity; [|exact Hamong]. apply submseteq_inserts_r. reflexivity. }
    destruct (submseteq_Permutation _ _ Hheld) as [rest Hperm].
    pose proof (NoDup_seqZ 0 (numShards cu)) as Hnodup.
    rewrite Hperm in Hnodup. apply NoDup_app in Hnodup as (Hnodup & _). exact Hnodup.
Qed.

Lemma step_inOrder (a : pool.action) (st st' : pool.state) :
  maxParallelism cu <= 1 ->
  pool.invariant crl_Id sha256_Sum256 cu peers atTime issuerNameID st ->
  pool.inOrder st ->
  pool.step crl_Id sha256_Sum256 cu peers atTime issuerNameID a st = Some st' ->
  pool.inOrder st'.
Proof.
  intros HP [_ _ _ _ _ (Hlen & Hspawn)] Hin.
  unfold pool.step. destruct (pool.panicked st); [discriminate|].
  unfold pool.inOrder in *.
  destruct (pool.workers st) as [|w [|w' ws]] eqn:Hws; [| |cbn [length] in Hlen; lia].
  - destruct a as [|j|].
    + unfold pool.stepMain.
      destruct (pool.coord st) as [i|shardIdx|i|err]; [| | |discriminate].
      * destruct (i <? maxParallelism cu); intros [= <-]; pool_simpl; rewrite ?Hws; cbn.
        -- destruct Hin as [-> ->]. reflexivity.
        -- exact Hin.
      * destruct (shardIdx <? numShards cu);
          [destruct (_ <? numShards cu); [|discriminate]|];
          intros [= <-]; pool_simpl; rewrite ?Hws; exact Hin.
      * destruct (i <? numShards cu);
          [destruct (pool.results st); [discriminate|]|];
          intros [= <-]; pool_simpl; rewrite ?Hws; exact Hin.
    + unfold pool.stepWorker. rewrite ?Hws. discriminate.
    + intros [= <-]. pool_simpl. rewrite ?Hws. exact Hin.
  - destruct a as [|j|].
    + unfold pool.stepMain.
      destruct (pool.coord st) as [i|shardIdx|i|err]; [| | |discriminate].
      * destruct (Z.ltb_spec i (maxParallelism cu)); [cbn [length] in Hspawn; lia|].
        intros [= <-]. pool_simpl. rewrite ?Hws. exact Hin.
      * destruct (shardIdx <? numShards cu);
          [destruct (_ <? numShards cu); [|discriminate]|];
          intros [= <-]; pool_simpl; rewrite ?Hws; exact Hin.
      * destruct (i <? numShards cu);
          [destruct (pool.results st); [discriminate|]|];
          intros [= <-]; pool_simpl; rewrite ?Hws; exact Hin.
    + unfold pool.stepWorker. rewrite ?Hws.
      destruct j as [|j]; [|discriminate]. cbn [lookup list_lookup].
      destruct w as [|idx|res|]; [| | |discriminate].
      * destruct (pool.idxs st) as [|idx idxs].
        -- destruct (pool.idxsClosed st); [|discriminate].
           intros [= <-]. pool_simpl. rewrite ?Hws. cbn. rewrite Hin. reflexivity.
        -- intros [= <-]. pool_simpl. rewrite ?Hws. cbn. rewrite Hin. reflexivity.
      * destruct (pool.ctxDone st).
        -- intros [= <-]. pool_simpl. rewrite ?Hws. cbn. rewrite Hin.
           apply prefix_app_r. reflexivity.
        -- destruct (shardWorker _ _ _ _ _ _ idx) as [res|] eqn:Htick; intros [= <-];
             pool_simpl; rewrite ?Hws; cbn.
           ++ rewrite (proj1 (shardWorker_index idx res Htick)). exact Hin.
           ++ exact Hin.
      * destruct (_ <? numShards cu); [|discriminate].
        intros [= <-]. pool_simpl. rewrite ?Hws. cbn. rewrite fmap_app. symmetry. exact Hin.
    + intros [= <-]. pool_simpl. rewrite ?Hws. exact Hin.
Qed.

Lemma exec_inOrder (schedule : list pool.action) :
  forall st st' : pool.state,
    0 <= numShards cu -> maxParallelism cu <= 1 ->
    pool.invariant crl_Id sha256_Sum256 cu peers atTime issuerNameID st ->
    pool.inOrder st ->
    pool.exec crl_Id sha256_Sum256 cu peers atTime issuerNameID schedule st = Some st' ->
    pool.inOrder st'.
Proof.
  induction schedule as [|a schedule IH]; intros st st' Hn HP Hinv Hin; cbn [pool.exec].
  - intros [= <-]. exact Hin.
  - destruct (pool.step _ _ _ _ _ _ a st) as [st1|] eqn:Hstep; [|discriminate].
    apply (IH st1 st' Hn HP).
    + exact (step_invariant a st st1 Hn Hinv Hstep).
    + exact (step_inOrder a st st1 HP Hinv Hin Hstep).
Qed.

(** X23.  A single worker answers in index order: with maxParallelism at
    most 1, in every interleaving the results are sent on [shardResults]
    in the order of the shard indices, from shard 0 on and without a
    gap. *)
Lemma single_worker_sends_in_order (schedule : list pool.action) (st : pool.state) :
  maxParallelism cu <= 1 ->
  pool.exec crl_Id sha256_Sum256 cu peers atTime issuerNameID schedule (pool.start cu)
  = Some st ->
  (res_shardIdx <$> pool.sent st) `prefix_of` seqZ 0 (numShards cu).
Proof.
  intros HP Hexec.
  destruct (Z.lt_ge_cases (numShards cu) 0) as [Hneg|Hn].
  { rewrite (reachable_unstarted schedule st Hneg Hexec). cbn. apply prefix_nil. }
  pose proof (reachable_invariant schedule st Hn Hexec) as Hinv.
  destruct (sent_among_shards st Hn Hinv) as (_ & Hprefix).
  assert (Hin : pool.inOrder st).
  { apply (exec_inOrder schedule (pool.start cu) st Hn HP (start_invariant Hn));
      [|exact Hexec]. cbn. split; reflexivity. }
  destruct Hinv as [_ _ _ _ _ (Hlen & _)].
  etransitivity; [|exact Hprefix].
  unfold pool.inOrder in Hin.
  destruct (pool.workers st) as [|w [|w' ws]]; [| |cbn [length] in Hlen; lia].
  - destruct Hin as [-> ->]. reflexivity.
  - destruct w; rewrite ?Hin; first [reflexivity | exact Hin | apply prefix_app_r; reflexivity].
Qed.

End PoolFacts.

(** ** tickIssuer and Tick *)

Lemma collectResults_starved (done : list shardResult) :
  forall (n : nat) (s : frame),
    (length done < n)%nat ->
    Forall (fun r => res_err r = None) done ->
    collectResults n (map Some done) s = (Block, s).
Proof.
  induction done as [|r done IH]; intros n s Hn Hnil.
  - destruct n as [|n]; [cbn in Hn; lia|]. reflexivity.
  - destruct n as [|n]; [cbn in Hn; lia|].
    inversion Hnil as [|? ? Hr Hdone]; subst.
    cbn. rewrite Hr. apply IH; [cbn in Hn; lia | assumption].
Qed.

Section TickFacts.

Variable crl_Id : Z -> Z -> Z -> error + string.
Variable sha256_Sum256 : list byte -> list byte.
Variable Format_RFC3339Nano : time.Time -> string.

(** X24.  A cancelled tick never ends: when the workers stop before every
    shard has a result and no result carries an error, [tickIssuer]
    waits for the missing results for ever; it returns nothing and its
    histogram is not observed. *)
Lemma tickIssuer_waits_for_ever (cu : crlUpdater) (peers : Z -> Peers)
    (sched : list nat) (atTime : time.Time) (issuerNameID : Z) :
  (length sched < Z.to_nat (numShards cu))%nat ->
  Forall (fun idx =>
            fst (tickShard crl_Id sha256_Sum256 cu (peers idx) atTime issuerNameID idx)
            = Returned None)
    (completions sched [] 0 (numShards cu) (maxParallelism cu)) ->
  tickIssuer crl_Id sha256_Sum256 cu peers sched atTime issuerNameID
  = (Blocked,
     [Log_Debugf "Ticking issuer %d at time %s" [ArgInt issuerNameID; ArgTime atTime]]).
Proof.
  intros Hshort Hok.
  pose proof (completions_length sched [] 0 (numShards cu) (maxParallelism cu)) as Hlen.
  unfold tickIssuer, tickIssuerBody, shardResults.
  destruct (Z.ltb_spec (numShards cu) 0) as [Hneg|_]; [lia|].
  set (done := completions sched [] 0 (numShards cu) (maxParallelism cu)) in *.
  assert (Hresults : map (shardWorker crl_Id sha256_Sum256 cu peers atTime issuerNameID) done
                     = map Some (map (fun idx => {| res_shardIdx := idx; res_err := None |})
                                   done)).
  { rewrite map_map. apply map_ext_Forall.
    eapply Forall_impl; [exact Hok|]. cbn. intros idx Hidx.
    unfold shardWorker. rewrite Hidx. reflexivity. }
  rewrite Hresults.
  unfold mbind, M_bind, emit, mret, M_ret, returnNil. cbn [caSends csSends trace result app].
  rewrite collectResults_starved.
  - reflexivity.
  - rewrite length_map. lia.
  - apply Forall_map. apply Forall_forall. reflexivity.
Qed.

Lemma tickIssuers_returns (cu : crlUpdater) (peers : Z -> Z -> Peers)
    (sched : Z -> list nat) (atTime : time.Time) (order : list (Z * Certificate)) :
  (forall entry, In entry order ->
     exists err events,
       tickIssuer crl_Id sha256_Sum256 cu (peers (fst entry)) (sched (fst entry))
         atTime (fst entry)
       = (Returned err, events)) ->
  forall result : string,
  exists tr,
    tickIssuers crl_Id sha256_Sum256 Format_RFC3339Nano cu peers sched atTime order result
    = (Returned None, tr,
       match failures crl_Id sha256_Sum256 cu peers sched atTime order with
       | [] => result
       | _ :: _ => "failed"
       end)
    /\ issuersTicked tr = order.*1
    /\ auditLines tr
       = map (fun failure : Certificate * error =>
                [ArgString (CommonName (fst failure));
                 ArgString (Format_RFC3339Nano atTime);
                 ArgError (snd failure)])
           (failures crl_Id sha256_Sum256 cu peers sched atTime order).
Proof.
  induction order as [|[id iss] order IH]; intros Hall result.
  - eexists. repeat split.
  - destruct (Hall (id, iss) (or_introl eq_refl)) as (err & events & Hrun).
    cbn [fst] in Hrun.
    assert (Hrest : forall entry, In entry order ->
              exists err events,
                tickIssuer crl_Id sha256_Sum256 cu (peers (fst entry)) (sched (fst entry))
                  atTime (fst entry)
                = (Returned err, events)).
    { intros entry Hin. apply Hall. right. exact Hin. }
    cbn [tickIssuers failures flat_map fst snd]. rewrite Hrun. cbn [fst].
    fold (failures crl_Id sha256_Sum256 cu peers sched atTime order).
    destruct err as [err|].
    + destruct (IH Hrest "failed") as (tr & -> & Hticked & Haudit).
      eexists. split; [|split].
      * cbn [app]. destruct (failures _ _ _ _ _ _ _); reflexivity.
      * unfold issuersTicked in *. cbn [flat_map app]. rewrite Hticked. reflexivity.
      * unfold auditLines in *. cbn [flat_map app map fst snd]. rewrite Haudit.
        reflexivity.
    + destruct (IH Hrest result) as (tr & -> & Hticked & Haudit).
      eexists. split; [|split].
      * reflexivity.
      * unfold issuersTicked in *. cbn [flat_map app]. rewrite Hticked. reflexivity.
      * unfold auditLines in *. cbn [flat_map app map fst snd]. rewrite Haudit.
        reflexivity.
Qed.

(** X25.  A failing issuer does not stop the tick: when every call of
    [tickIssuer] returns, with an error or without, [Tick] returns
    having ticked every issuer of the updater once. *)
Lemma Tick_ticks_every_issuer (cu : crlUpdater) (peers : Z -> Z -> Peers)
    (sched : Z -> list nat) (atTime : time.Time) (order : list (Z * Certificate)) :
  order ≡ₚ map_to_list (issuers cu) ->
  (forall entry, In entry order ->
     exists err events,
       tickIssuer crl_Id sha256_Sum256 cu (peers (fst entry)) (sched (fst entry))
         atTime (fst entry)
       = (Returned err, events)) ->
  let run := Tick crl_Id sha256_Sum256 Format_RFC3339Nano cu peers sched atTime order in
  fst run = Returned None
  /\ NoDup (issuersTicked (snd run))
  /\ forall id, In id (issuersTicked (snd run)) <-> is_Some (issuers cu !! id).
Proof.
  intros Horder Hall run. subst run. unfold Tick.
  destruct (tickIssuers_returns cu peers sched atTime order Hall "success")
    as (tr & -> & Hticked & _).
  cbn [fst snd].
  assert (Hsame : forall last,
            issuersTicked
              ((Tick_Debugf "Ticking at time %s" [ArgTime atTime] :: tr) ++ [last])
            = issuersTicked tr ++ issuersTicked [last]).
  { intros last. unfold issuersTicked. rewrite flat_map_app. reflexivity. }
  rewrite Hsame, Hticked. cbn [issuersTicked flat_map]. rewrite app_nil_r.
  split; [reflexivity|]. split.
  - rewrite Horder. apply NoDup_fst_map_to_list.
  - intros id. rewrite <- list_elem_of_In, Horder.
    rewrite list_elem_of_fmap. split.
    + intros ([id' iss] & -> & Hin). apply elem_of_map_to_list in Hin.
      cbn. eexists. exact Hin.
    + intros [iss Hlook]. exists (id, iss). split; [reflexivity|].
      apply elem_of_map_to_list. exact Hlook.
Qed.

(** X26.  One failure marks the whole tick: when every call of [tickIssuer]
    returns, [Tick] writes one audit line for each issuer that failed,
    with its common name and its error, and observes the histogram last,
    as "failed" if any issuer failed and as "success" otherwise. *)
Lemma Tick_reports_every_failure (cu : crlUpdater) (peers : Z -> Z -> Peers)
    (sched : Z -> list nat) (atTime : time.Time) (order : list (Z * Certificate)) :
  (forall entry, In entry order ->
     exists err events,
       tickIssuer crl_Id sha256_Sum256 cu (peers (fst entry)) (sched (fst entry))
         atTime (fst entry)
       = (Returned err, events)) ->
  let run := Tick crl_Id sha256_Sum256 Format_RFC3339Nano cu peers sched atTime order in
  let failed := failures crl_Id sha256_Sum256 cu peers sched atTime order in
  auditLines (snd run)
  = map (fun failure : Certificate * error =>
           [ArgString (CommonName (fst failure));
            ArgString (Format_RFC3339Nano atTime);
            ArgError (snd failure)]) failed
  /\ exists before,
       snd run
       = before ++ [Tick_Observe "all" match failed with
                                       | [] => "success"
                                       | _ :: _ => "failed"
                                       end].
Proof.
  intros Hall run failed. subst run failed. unfold Tick.
  destruct (tickIssuers_returns cu peers sched atTime order Hall "success")
    as (tr & -> & _ & Haudit).
  cbn [fst snd]. split.
  - unfold auditLines in *. rewrite flat_map_app. cbn [flat_map app].
    rewrite app_nil_r. exact Haudit.
  - eexists. reflexivity.
Qed.

End TickFacts.

(** * The properties at concrete inputs *)

Lemma exampleUpdater_wellFormed : wellFormed exampleUpdater.
Proof. evaluated. Qed.

(** The SA stream breaks after one entry: that entry reaches the CA, and
    nothing reaches the storer or the log. *)
Lemma sa_failure_reaches_no_storer_witness :
  csRequests (snd (tickShard exampleId exampleDigest exampleUpdater brokenSAPeers
                     exampleTime 7 0)) = []
  /\ infoLines (snd (tickShard exampleId exampleDigest exampleUpdater brokenSAPeers
                       exampleTime 7 0)) = [].
Proof.
  pose proof (sa_failure_reaches_no_storer exampleId exampleDigest exampleUpdater
                brokenSAPeers exampleTime 7 0 "crl-id" exampleIssuer
                63843241723145224193 63844332379145224193
                eq_refl eq_refl eq_refl eq_refl) as Hrun.
  cbv zeta in Hrun. destruct Hrun as (_ & _ & _ & Hcs & _ & Hinfo).
  split; assumption.
Defined.

(** The CA stream breaks after one chunk. *)
Lemma ca_failure_is_never_committed_witness :
  (exists err,
     fst (tickShard exampleId exampleDigest exampleUpdater brokenCAPeers exampleTime 7 0)
     = Returned (Some err))
  /\ infoLines (snd (tickShard exampleId exampleDigest exampleUpdater brokenCAPeers
                       exampleTime 7 0)) = [].
Proof.
  pose proof (ca_failure_is_never_committed exampleId exampleDigest exampleUpdater
                brokenCAPeers exampleTime 7 0 "crl-id" exampleIssuer
                63843241723145224193 63844332379145224193
                eq_refl eq_refl eq_refl eq_refl) as Hrun.
  cbv zeta in Hrun. destruct Hrun as (Herr & _ & Hinfo).
  split; assumption.
Defined.

(** Shard 0 of the example updater returns nil. *)
Lemma nil_means_all_relayed_witness :
  exists entries chunks,
    received (saStream_Recv examplePeers) = Some entries
    /\ received (caStream_Recv examplePeers) = Some chunks
    /\ csStream_CloseAndRecv examplePeers = None
    /\ snd (tickShard exampleId exampleDigest exampleUpdater examplePeers exampleTime 7 0)
       = successTrace exampleTime 7 0 63843241723145224193 63844332379145224193
           (CommonName exampleIssuer) entries chunks
           [ArgString "crl-id"; ArgInt (addLengths 0 chunks);
            ArgBytes (exampleDigest (concat chunks))].
Proof.
  apply (nil_means_all_relayed exampleId exampleDigest exampleUpdater examplePeers
           exampleTime 7 0 "crl-id" exampleIssuer
           63843241723145224193 63844332379145224193 eq_refl eq_refl eq_refl).
  vm_compute. reflexivity.
Defined.

(** A CA stream that breaks after one chunk: the error names the step
    that receives the CRL bytes and wraps the error of the stream. *)
Lemma errors_name_the_crl_witness :
  fst (tickShard exampleId exampleDigest exampleUpdater brokenCAPeers exampleTime 7 0)
  = Returned (Some (Errorf "receiving CRL bytes for %s: %w"
                      [ArgString "crl-id"; ArgError (ErrValue "connection reset")])).
Proof.
  exact (errors_name_the_crl exampleId exampleDigest exampleUpdater brokenCAPeers
           exampleTime 7 0 "crl-id" exampleIssuer
           63843241723145224193 63844332379145224193 eq_refl eq_refl eq_refl).
Defined.

(** The three streams of a run in which everything succeeds. *)
Lemma storer_comes_last_witness :
  (exists rest,
     [SA_GetRevokedCerts {| IssuerNameID := 7;
                            ExpiresAfter := time.UnixNano 63843241723145224193;
                            ExpiresBefore := time.UnixNano 63844332379145224193;
                            RevokedBefore := time.UnixNano exampleTime |};
      CA_GenerateCRL; CS_UploadCRL]
     = streamsOpened (snd (tickShard exampleId exampleDigest exampleUpdater examplePeers
                             exampleTime 7 0)) ++ rest)
  /\ caRequests (snd (tickShard exampleId exampleDigest exampleUpdater examplePeers
                        exampleTime 7 0))
     = GenerateCRLRequest_Metadata 7 (time.UnixNano exampleTime) 0
       :: map GenerateCRLRequest_Entry exampleEntries.
Proof.
  pose proof (storer_comes_last exampleId exampleDigest exampleUpdater examplePeers
                exampleTime 7 0 "crl-id" exampleIssuer
                63843241723145224193 63844332379145224193
                eq_refl eq_refl eq_refl) as Hrun.
  cbv zeta in Hrun. destruct Hrun as (Hopened & Hlast).
  split; [exact Hopened|].
  assert (Hin : In CS_UploadCRL
                  (snd (tickShard exampleId exampleDigest exampleUpdater examplePeers
                          exampleTime 7 0))).
  { vm_compute. tauto. }
  destruct (Hlast Hin) as (_ & entries & Hentries & Hca).
  rewrite Hca. vm_compute in Hentries. injection Hentries as <-. reflexivity.
Defined.

(** The metrics of a shard whose SA cannot be reached. *)
Lemma tickShard_metrics_witness :
  metricUpdates (snd (tickShard exampleId exampleDigest exampleUpdater unreachablePeers
                        exampleTime 7 0))
  = [TickHistogram_Observe "Example CA" "failed"; UpdatedCounter_Inc "failed"].
Proof.
  exact (tickShard_metrics exampleId exampleDigest exampleUpdater unreachablePeers
           exampleTime 7 0 "crl-id" exampleIssuer eq_refl eq_refl).
Defined.

(** One nanosecond after 2024-01-01T00:00:00Z. *)
Lemma getShardBoundaries_saturated_witness :
  getShardBoundaries exampleUpdater (time.Add exampleTime 1) 0
  = option_map (fun b => (time.Add (fst b) 1, time.Add (snd b) 1))
      (getShardBoundaries exampleUpdater exampleTime 0).
Proof.
  apply (getShardBoundaries_saturated exampleUpdater exampleTime 1 0); evaluated.
Defined.

Lemma shardEnd_reaches_window_witness :
  exists shardStart shardEnd,
    getShardBoundaries exampleUpdater exampleTime 3 = Some (shardStart, shardEnd)
    /\ exampleTime - lookbackPeriod exampleUpdater <= shardEnd.
Proof.
  apply (shardEnd_reaches_window exampleUpdater exampleTime 3 exampleUpdater_wellFormed);
    evaluated.
Defined.

(** Five hours into the second epoch of the example updater. *)
Lemma getShardBoundaries_leftmost_witness :
  getShardBoundaries exampleUpdater 10924560000000000 0
  = Some (documentedShard exampleUpdater 10924560000000000 0).
Proof.
  apply (getShardBoundaries_leftmost exampleUpdater 10924560000000000 0
           exampleUpdater_wellFormed); evaluated.
Defined.

Lemma last_shard_at_epoch_start_witness :
  getShardBoundaries exampleUpdater (1 * windowWidth exampleUpdater)
    (numShards exampleUpdater - 1)
  = Some (chunkInstance exampleUpdater 1 (numShards exampleUpdater - 1))
  /\ documentedShard exampleUpdater (1 * windowWidth exampleUpdater)
       (numShards exampleUpdater - 1)
     = chunkInstance exampleUpdater (1 - 1) (numShards exampleUpdater - 1).
Proof.
  apply (last_shard_at_epoch_start exampleUpdater 1 exampleUpdater_wellFormed); evaluated.
Defined.

Lemma shards_are_disjoint_witness :
  exists iStart iEnd jStart jEnd,
    getShardBoundaries exampleUpdater exampleTime 0 = Some (iStart, iEnd)
    /\ getShardBoundaries exampleUpdater exampleTime 1 = Some (jStart, jEnd)
    /\ (iEnd <= jStart \/ jEnd <= iStart).
Proof.
  apply (shards_are_disjoint exampleUpdater exampleTime 0 1 exampleUpdater_wellFormed);
    evaluated.
Defined.


(** A certificate that expired an hour before 2024-01-01T00:00:00Z. *)
Lemma lookback_is_covered_from_the_anchor_witness :
  (exists shardIdx shardStart shardEnd,
     0 <= shardIdx < numShards exampleUpdater
     /\ getShardBoundaries exampleUpdater exampleTime shardIdx = Some (shardStart, shardEnd)
     /\ shardStart <= exampleTime - time.Hour < shardEnd)
  <-> zeroStart exampleUpdater exampleTime <= exampleTime - time.Hour.
Proof.
  apply (lookback_is_covered_from_the_anchor exampleUpdater exampleTime
           (exampleTime - time.Hour) exampleUpdater_wellFormed); evaluated.
Defined.

(** Shard 0, five hours into the second epoch and into the third. *)
Lemma boundaries_move_by_whole_windows_witness :
  exists shardStart shardEnd epochs,
    getShardBoundaries exampleUpdater 10924560000000000 0 = Some (shardStart, shardEnd)
    /\ getShardBoundaries exampleUpdater 21831120000000000 0
       = Some (shardStart + epochs * windowWidth exampleUpdater,
               shardEnd + epochs * windowWidth exampleUpdater)
    /\ 0 <= epochs.
Proof.
  apply (boundaries_move_by_whole_windows exampleUpdater 10924560000000000
           21831120000000000 0 exampleUpdater_wellFormed); evaluated.
Defined.

Lemma shard_index_wraps_around_witness :
  getShardBoundaries exampleUpdater exampleTime (3 + 2 * numShards exampleUpdater)
  = getShardBoundaries exampleUpdater exampleTime 3.
Proof.
  apply (shard_index_wraps_around exampleUpdater exampleTime 3 2); evaluated.
Defined.

(** Of the two certificates with NameID 7 the updater keeps the last. *)
Lemma NewUpdater_issuers_by_NameID_witness :
  exists cu,
    NewUpdater exampleIssuers 10 (90 * 24 * time.Hour) time.Hour 0 2 = inr cu
    /\ issuers cu !! 7 = Some exampleIssuer.
Proof.
  eexists. split; [reflexivity|].
  apply (proj1 (proj2 (NewUpdater_issuers_by_NameID exampleIssuers 10
                         (90 * 24 * time.Hour) time.Hour 0 2 _ eq_refl))
           [{| NameID := 7; CommonName := "Old CA" |}; otherIssuer] [] exampleIssuer
           eq_refl).
  constructor.
Defined.


Lemma single_shard_has_no_overshoot_witness :
  exists cu,
    NewUpdater [exampleIssuer] 1 (90 * 24 * time.Hour) time.Hour 0 2 = inr cu
    /\ shardWidth cu = 5 * (4 * time.Hour + 90 * 24 * time.Hour)
    /\ lookforwardPeriod cu
       = 90 * 24 * time.Hour + 4 * (4 * time.Hour + 90 * 24 * time.Hour)
    /\ lookforwardPeriod cu < 90 * 24 * time.Hour + shardWidth cu.
Proof.
  apply (single_shard_has_no_overshoot [exampleIssuer] (90 * 24 * time.Hour)
           time.Hour 0 2); evaluated.
Defined.

(** Ten minutes past the hour, with hourly updates on the hour. *)
Lemma first_tick_is_aligned_witness :
  exists wait,
    waitNanos exampleUpdater (time.Unix 1704067800 0) = Some wait
    /\ 0 <= wait < updatePeriod exampleUpdater
    /\ (time.UnixNano (time.Unix 1704067800 0) + wait) mod updatePeriod exampleUpdater
       = updateOffset exampleUpdater
    /\ forall sooner, 0 <= sooner < wait ->
         (time.UnixNano (time.Unix 1704067800 0) + sooner) mod updatePeriod exampleUpdater
         <> updateOffset exampleUpdater.
Proof.
  apply (first_tick_is_aligned exampleUpdater (time.Unix 1704067800 0)); evaluated.
Defined.

Lemma zero_period_is_accepted_witness :
  exists cu,
    NewUpdater [exampleIssuer] 10 (90 * 24 * time.Hour) 0 (-1) 2 = inr cu
    /\ updatePeriod cu = 0
    /\ forall now, waitNanos cu now = None.
Proof.
  apply (zero_period_is_accepted [exampleIssuer] 10 (90 * 24 * time.Hour) (-1) 2);
    evaluated.
Defined.

(** Two shards, and workers that stop after the first of them. *)
Lemma tickIssuer_waits_for_ever_witness :
  tickIssuer exampleId exampleDigest smallUpdater (fun _ => examplePeers) [0%nat]
    exampleTime 7
  = (Blocked, [Log_Debugf "Ticking issuer %d at time %s" [ArgInt 7; ArgTime exampleTime]]).
Proof.
  apply (tickIssuer_waits_for_ever exampleId exampleDigest smallUpdater
           (fun _ => examplePeers) [0%nat] exampleTime 7).
  - cbn. lia.
  - change (completions [0%nat] [] 0 (numShards smallUpdater) (maxParallelism smallUpdater))
      with [0].
    constructor; [vm_compute; reflexivity | constructor].
Defined.

Lemma twoIssuerUpdater_returns (entry : Z * Certificate) :
  In entry [(9, otherIssuer); (7, exampleIssuer)] ->
  exists err events,
    tickIssuer exampleId exampleDigest twoIssuerUpdater (peersOf (fst entry))
      [0; 0]%nat exampleTime (fst entry)
    = (Returned err, events).
Proof.
  intros [<-|[<-|[]]]; do 2 eexists; vm_compute; reflexivity.
Qed.

(** Two issuers; the first one ticked fails, the second is ticked all
    the same. *)
Lemma Tick_ticks_every_issuer_witness :
  fst (Tick exampleId exampleDigest exampleFormat twoIssuerUpdater peersOf
         (fun _ => [0; 0]%nat) exampleTime [(9, otherIssuer); (7, exampleIssuer)])
  = Returned None
  /\ NoDup (issuersTicked
              (snd (Tick exampleId exampleDigest exampleFormat twoIssuerUpdater peersOf
                      (fun _ => [0; 0]%nat) exampleTime
                      [(9, otherIssuer); (7, exampleIssuer)])))
  /\ forall id,
       In id (issuersTicked
                (snd (Tick exampleId exampleDigest exampleFormat twoIssuerUpdater peersOf
                        (fun _ => [0; 0]%nat) exampleTime
                        [(9, otherIssuer); (7, exampleIssuer)])))
       <-> is_Some (issuers twoIssuerUpdater !! id).
Proof.
  apply (Tick_ticks_every_issuer exampleId exampleDigest exampleFormat twoIssuerUpdater
           peersOf (fun _ => [0; 0]%nat) exampleTime
           [(9, otherIssuer); (7, exampleIssuer)]).
  - assert (Hlist : map_to_list (issuers twoIssuerUpdater)
                    = [(7, exampleIssuer); (9, otherIssuer)]) by (vm_compute; reflexivity).
    rewrite Hlist. apply perm_swap.
  - exact twoIssuerUpdater_returns.
Defined.

Lemma Tick_reports_every_failure_witness :
  auditLines (snd (Tick exampleId exampleDigest exampleFormat twoIssuerUpdater peersOf
                     (fun _ => [0; 0]%nat) exampleTime
                     [(9, otherIssuer); (7, exampleIssuer)]))
  = [[ArgString "Other CA"; ArgString "2024-01-01T00:00:00Z";
      ArgError (Errorf "updating shard %d: %w"
                  [ArgInt 0;
                   ArgError (Errorf "connecting to SA for %s: %w"
                               [ArgString "crl-id"; ArgError (ErrValue "unavailable")])])]]
  /\ exists before,
       snd (Tick exampleId exampleDigest exampleFormat twoIssuerUpdater peersOf
              (fun _ => [0; 0]%nat) exampleTime [(9, otherIssuer); (7, exampleIssuer)])
       = before ++ [Tick_Observe "all" "failed"].
Proof.
  pose proof (Tick_reports_every_failure exampleId exampleDigest exampleFormat
                twoIssuerUpdater peersOf (fun _ => [0; 0]%nat) exampleTime
                [(9, otherIssuer); (7, exampleIssuer)] twoIssuerUpdater_returns) as Hrun.
  cbv zeta in Hrun.
  assert (Hfailed : failures exampleId exampleDigest twoIssuerUpdater peersOf
                      (fun _ => [0; 0]%nat) exampleTime
                      [(9, otherIssuer); (7, exampleIssuer)]
                    = [(otherIssuer,
                        Errorf "updating shard %d: %w"
                          [ArgInt 0;
                           ArgError (Errorf "connecting to SA for %s: %w"
                                       [ArgString "crl-id";
                                        ArgError (ErrValue "unavailable")])])])
    by (vm_compute; reflexivity).
  rewrite Hfailed in Hrun. exact Hrun.
Defined.

(** In the interleaving above shard 1 is answered before shard 0, each
    once. *)
Lemma no_shard_runs_twice_witness :
  exists st,
    pool.exec exampleId exampleDigest smallUpdater (fun _ => examplePeers) exampleTime 7
      exampleSchedule (pool.start smallUpdater) = Some st
    /\ res_shardIdx <$> pool.sent st = [1; 0]
    /\ NoDup (res_shardIdx <$> pool.sent st).
Proof.
  destruct (pool.exec exampleId exampleDigest smallUpdater (fun _ => examplePeers)
              exampleTime 7 exampleSchedule (pool.start smallUpdater))
    as [st|] eqn:Hexec; [|vm_compute in Hexec; discriminate].
  exists st. split; [reflexivity|].
  pose proof (no_shard_runs_twice exampleId exampleDigest smallUpdater
                (fun _ => examplePeers) exampleTime 7 exampleSchedule st Hexec)
    as (_ & Hnodup & _).
  split; [|exact Hnodup].
  vm_compute in Hexec. injection Hexec as <-. reflexivity.
Defined.

Lemma in_progress_at_most_maxParallelism_witness :
  exists st,
    pool.exec exampleId exampleDigest smallUpdater (fun _ => examplePeers) exampleTime 7
      (firstn 8 exampleSchedule) (pool.start smallUpdater) = Some st
    /\ pool.held (pool.workers st) = [0; 1]
    /\ Z.of_nat (length (pool.held (pool.workers st)))
       <= Z.max 0 (maxParallelism smallUpdater).
Proof.
  destruct (pool.exec exampleId exampleDigest smallUpdater (fun _ => examplePeers)
              exampleTime 7 (firstn 8 exampleSchedule) (pool.start smallUpdater))
    as [st|] eqn:Hexec; [|vm_compute in Hexec; discriminate].
  exists st. split; [reflexivity|].
  pose proof (in_progress_at_most_maxParallelism exampleId exampleDigest smallUpdater
                (fun _ => examplePeers) exampleTime 7 (firstn 8 exampleSchedule) st Hexec)
    as (Hbound & _).
  split; [|exact Hbound].
  vm_compute in Hexec. injection Hexec as <-. reflexivity.
Defined.

Lemma single_worker_sends_in_order_witness :
  exists st,
    pool.exec exampleId exampleDigest serialUpdater (fun _ => examplePeers) exampleTime 7
      serialSchedule (pool.start serialUpdater) = Some st
    /\ res_shardIdx <$> pool.sent st = [0; 1]
    /\ (res_shardIdx <$> pool.sent st) `prefix_of` seqZ 0 (numShards serialUpdater).
Proof.
  destruct (pool.exec exampleId exampleDigest serialUpdater (fun _ => examplePeers)
              exampleTime 7 serialSchedule (pool.start serialUpdater))
    as [st|] eqn:Hexec; [|vm_compute in Hexec; discriminate].
  exists st. split; [reflexivity|].
  pose proof (single_worker_sends_in_order exampleId exampleDigest serialUpdater
                (fun _ => examplePeers) exampleTime 7 serialSchedule st
                ltac:(cbn; lia) Hexec) as Hprefix.
  split; [|exact Hprefix].
  vm_compute in Hexec. injection Hexec as <-. reflexivity.
Defined.

(** The interleaving above ends with [tickIssuer] returning nil: both
    shards have returned nil. *)
Lemma nil_means_every_shard_succeeded_witness :
  fst (tickShard exampleId exampleDigest smallUpdater examplePeers exampleTime 7 0)
  = Returned None
  /\ fst (tickShard exampleId exampleDigest smallUpdater examplePeers exampleTime 7 1)
     = Returned None.
Proof.
  destruct (pool.exec exampleId exampleDigest smallUpdater (fun _ => examplePeers)
              exampleTime 7 exampleSchedule (pool.start smallUpdater))
    as [st|] eqn:Hexec; [|vm_compute in Hexec; discriminate].
  assert (Hret : pool.coord st = pool.Returning None).
  { vm_compute in Hexec. injection Hexec as <-. reflexivity. }
  pose proof (nil_means_every_shard_succeeded exampleId exampleDigest smallUpdater
                (fun _ => examplePeers) exampleTime 7 exampleSchedule st Hexec Hret)
    as Hall.
  split; apply Hall; cbn; lia.
Defined.
